(** * Colour palette generator: harmony derivation and picker state

    A shallow embedding of [script.js] and of the parts of the colour library
    it imports ([tinycolor2], script.js line 8).

    In the derivation of the palettes JavaScript numbers are idealised as
    exact rationals ([Q]): there is no rounding error, no [NaN] and no
    infinity.  Where the rounding of binary64 decides what is stored (the
    picker triple and the marker of the pad) the arithmetic is redone on
    binary64 in the module [Double].  Strings are sequences of 8-bit code
    units ([string]).  The listeners are functions on an explicit state; a
    canvas is the sequence of calls its context receives; the swatches,
    with the tasks of [copyColor] that wait for the clipboard and for their
    timer, are part of the document. *)

From Stdlib Require Import ZArith QArith Qround Qabs Qpower Lqa Lia List String Ascii Bool.
From Stdlib Require Import HexadecimalString.
From Stdlib Require DecimalString.
Import ListNotations.

Open Scope Q_scope.

(** ** JavaScript number primitives *)

Module Js.

Definition lt (a b : Q) : bool := negb (Qle_bool b a).
Definition le (a b : Q) : bool := Qle_bool a b.
Definition eq (a b : Q) : bool := Qeq_bool a b.

(** [Math.max] / [Math.min] on two numbers. *)
Definition max (a b : Q) : Q := if le a b then b else a.
Definition min (a b : Q) : Q := if le a b then a else b.

Definition max3 (a b c : Q) : Q := max (max a b) c.
Definition min3 (a b c : Q) : Q := min (min a b) c.

Definition abs (a : Q) : Q := if lt a 0 then - a else a.

(** [Math.floor] and [Math.round] (round half up). *)
Definition floor (a : Q) : Z := Qfloor a.
Definition round (a : Q) : Z := Qfloor (a + (1 # 2)).

(** Truncation toward zero: [parseInt(x, 10)] on a number, and the
    quotient behind the [%] operator.  ([parseInt] reads the decimal string
    of its argument; a number below 1e-6 prints in exponent form and is not
    truncated to 0 by it.  That case is left out.) *)
Definition trunc (a : Q) : Z := if lt a 0 then Qceiling a else Qfloor a.

(** [x % m]: remainder with the sign of the dividend. *)
Definition rem (x m : Q) : Q := x - m * inject_Z (trunc (x / m)).

End Js.

(** ** tinycolor2: numeric conversions

    The library is imported by URL and is not part of the repository; the
    definitions below follow the functions of the same names of its release
    1.6, which the import resolves to. *)

(** A CSS unit as the library receives it: a plain number, or a percentage
    string ["q%"]. *)
Inductive cssunit : Type :=
| Num (q : Q)
| Pct (q : Q).

(** [bound01(n, max)]: takes input from [0, max] and returns it in [0, 1].
<<
    var processPercent = isPercentage(n);
    n = Math.min(max, Math.max(0, parseFloat(n)));
    if (processPercent) n = parseInt(n * max, 10) / 100;
    if (Math.abs(n - max) < 0.000001) return 1;
    return (n % max) / parseFloat(max);
>> *)
Definition bound01 (n : cssunit) (max : Q) : Q :=
  let n' :=
    match n with
    | Num q => Js.min max (Js.max 0 q)
    | Pct q => inject_Z (Js.trunc (Js.min max (Js.max 0 q) * max)) / 100
    end in
  if Js.lt (Js.abs (n' - max)) (1 # 1000000) then 1
  else Js.rem n' max / max.

(** [convertToPercentage(n)]: [if (n <= 1) n = n * 100 + "%"]. *)
Definition convertToPercentage (n : cssunit) : cssunit :=
  match n with
  | Num q => if Js.le q 1 then Pct (q * 100) else Num q
  | Pct q => Pct q
  end.

Definition clamp01 (v : Q) : Q := Js.min 1 (Js.max 0 v).

(** [rgbToRgb(r, g, b)]. *)
Definition rgbToRgb (r g b : cssunit) : Q * Q * Q :=
  (bound01 r 255 * 255, bound01 g 255 * 255, bound01 b 255 * 255).

(** The hue computed by the [switch (max)] of [rgbToHsl] and [rgbToHsv]
    (before the division by 6). *)
Definition hueSector (r g b max d : Q) : Q :=
  if Js.eq max r then (g - b) / d + (if Js.lt g b then 6 else 0)
  else if Js.eq max g then (b - r) / d + 2
  else (r - g) / d + 4.

(** [rgbToHsl(r, g, b)]: r, g, b in [0, 255]; h, s, l in [0, 1]. *)
Definition rgbToHsl (r g b : Q) : Q * Q * Q :=
  let r := bound01 (Num r) 255 in
  let g := bound01 (Num g) 255 in
  let b := bound01 (Num b) 255 in
  let max := Js.max3 r g b in
  let min := Js.min3 r g b in
  let l := (max + min) / 2 in
  if Js.eq max min then (0, 0, l)
  else
    let d := max - min in
    let s := if Js.lt (1 # 2) l then d / (2 - max - min) else d / (max + min) in
    (hueSector r g b max d / 6, s, l).

Definition hue2rgb (p q t : Q) : Q :=
  let t := if Js.lt t 0 then t + 1 else t in
  let t := if Js.lt 1 t then t - 1 else t in
  if Js.lt t (1 # 6) then p + (q - p) * 6 * t
  else if Js.lt t (1 # 2) then q
  else if Js.lt t (2 # 3) then p + (q - p) * ((2 # 3) - t) * 6
  else p.

(** [hslToRgb(h, s, l)]: h in [0, 360], s and l in [0, 1] or percentages;
    r, g, b in [0, 255]. *)
Definition hslToRgb (h s l : cssunit) : Q * Q * Q :=
  let h := bound01 h 360 in
  let s := bound01 s 100 in
  let l := bound01 l 100 in
  if Js.eq s 0 then (l * 255, l * 255, l * 255)
  else
    let q := if Js.lt l (1 # 2) then l * (1 + s) else l + s - l * s in
    let p := 2 * l - q in
    (hue2rgb p q (h + (1 # 3)) * 255,
     hue2rgb p q h * 255,
     hue2rgb p q (h - (1 # 3)) * 255).

(** [rgbToHsv(r, g, b)]. *)
Definition rgbToHsv (r g b : Q) : Q * Q * Q :=
  let r := bound01 (Num r) 255 in
  let g := bound01 (Num g) 255 in
  let b := bound01 (Num b) 255 in
  let max := Js.max3 r g b in
  let min := Js.min3 r g b in
  let v := max in
  let d := max - min in
  let s := if Js.eq max 0 then 0 else d / max in
  if Js.eq max min then (0, s, v)
  else (hueSector r g b max d / 6, s, v).

(** [hsvToRgb(h, s, v)]. *)
Definition hsvToRgb (h s v : cssunit) : Q * Q * Q :=
  let h := bound01 h 360 * 6 in
  let s := bound01 s 100 in
  let v := bound01 v 100 in
  let i := Js.floor h in
  let f := h - inject_Z i in
  let p := v * (1 - s) in
  let q := v * (1 - f * s) in
  let t := v * (1 - (1 - f) * s) in
  let mod6 := Z.rem i 6 in
  let pick (l : list Q) := nth (Z.to_nat mod6) l 0 in
  (pick [v; q; p; p; t; v] * 255,
   pick [t; v; v; q; p; p] * 255,
   pick [p; p; t; v; v; q] * 255).

(** ** tinycolor2: colour values and hex output *)

(** The format tag of a colour: how its input was written. *)
Inductive format : Type :=
| FormatRgb
| FormatPrgb
| FormatHsl
| FormatHsv
| FormatHex
| FormatHex8
| FormatName.

(** A colour instance: the channels [_r], [_g], [_b] (in [0, 255], not
    necessarily integral), the alpha [_a], the format tag and [_ok]. *)
Record color : Type := mkColor {
  _r : Q;
  _g : Q;
  _b : Q;
  _a : Q;
  _format : option format;
  _ok : bool
}.

(** The colour components of an object input. *)
Inductive colorObject : Type :=
| ObjRgb (r g b : cssunit)
| ObjHsv (h s v : cssunit)
| ObjHsl (h s l : cssunit).

(** An object input of the constructor: its components, its [a] property
    and its [format] property, when it has them. *)
Record colorInput : Type := mkInput {
  components : colorObject;
  alpha : option Q;
  declared : option format
}.

(** The object branch of [inputToRGB]. *)
Definition objectToRgb (o : colorObject) : Q * Q * Q :=
  match o with
  | ObjRgb r g b => rgbToRgb r g b
  | ObjHsv h s v => hsvToRgb h (convertToPercentage s) (convertToPercentage v)
  | ObjHsl h s l => hslToRgb h (convertToPercentage s) (convertToPercentage l)
  end.

(** The constructor, after its input has been read as an object (or not):
    [inputToRGB] clamps to [0, 255], then
    [if (this._r < 1) this._r = Math.round(this._r)]. *)
Definition clamp255 (x : Q) : Q := Js.min 255 (Js.max x 0).

Definition roundSmall (x : Q) : Q := if Js.lt x 1 then inject_Z (Js.round x) else x.

(** [boundAlpha(a)]: [if (isNaN(a) || a < 0 || a > 1) a = 1]. *)
Definition boundAlpha (a : Q) : Q := if Js.lt a 0 || Js.lt 1 a then 1 else a.

(** The format [inputToRGB] gives an object that declares none. *)
Definition objectFormat (o : colorObject) : format :=
  match o with
  | ObjRgb (Pct _) _ _ => FormatPrgb
  | ObjRgb (Num _) _ _ => FormatRgb
  | ObjHsv _ _ _ => FormatHsv
  | ObjHsl _ _ _ => FormatHsl
  end.

Definition inputAlpha (input : option colorInput) : Q :=
  match input with
  | Some i =>
      match alpha i with
      | Some a => a
      | None => 1
      end
  | None => 1
  end.

Definition inputFormat (input : option colorInput) : option format :=
  match input with
  | Some i =>
      Some match declared i with
           | Some f => f
           | None => objectFormat (components i)
           end
  | None => None
  end.

Definition inputRgb (input : option colorInput) : Q * Q * Q :=
  match input with
  | Some i => objectToRgb (components i)
  | None => (0, 0, 0)
  end.

Definition construct (input : option colorInput) : color :=
  let rgb := inputRgb input in
  {| _r := roundSmall (clamp255 (fst (fst rgb)));
     _g := roundSmall (clamp255 (snd (fst rgb)));
     _b := roundSmall (clamp255 (snd rgb));
     _a := boundAlpha (inputAlpha input);
     _format := inputFormat input;
     _ok := match input with Some _ => true | None => false end |}.

Definition isValid (c : color) : bool := _ok c.

(** [tinycolor({h, s, l, a})] and [tinycolor({h, s, v})] on numbers; [a] is
    present when the object comes from [toHsl()]. *)
Definition fromHsl (h s l : Q) (a : option Q) : color :=
  construct (Some (mkInput (ObjHsl (Num h) (Num s) (Num l)) a None)).

Definition fromHsv (h s v : Q) : color :=
  construct (Some (mkInput (ObjHsv (Num h) (Num s) (Num v)) None None)).

Definition toHsl (c : color) : Q * Q * Q :=
  let '(h, s, l) := rgbToHsl (_r c) (_g c) (_b c) in (h * 360, s, l).

Definition toHsv (c : color) : Q * Q * Q :=
  let '(h, s, v) := rgbToHsv (_r c) (_g c) (_b c) in (h * 360, s, v).

(** [n.toString(16)] on an integer. *)
Definition toString16 (n : Z) : string := HexadecimalString.NilZero.string_of_int (Z.to_hex_int n).

(** [pad2(c)]: [c.length == 1 ? "0" + c : "" + c]. *)
Definition pad2 (c : string) : string :=
  if (String.length c =? 1)%nat then String "0" c else c.

(** [rgbToHex(r, g, b)] without the 3-character option. *)
Definition rgbToHex (r g b : Q) : string :=
  pad2 (toString16 (Js.round r)) ++ pad2 (toString16 (Js.round g)) ++ pad2 (toString16 (Js.round b)).

Definition toHexString (c : color) : string :=
  String "#" (rgbToHex (_r c) (_g c) (_b c)).

(** [toHex8String()]: the alpha byte is
    [pad2(Math.round(parseFloat(a) * 255).toString(16))]. *)
Definition toHex8String (c : color) : string :=
  String "#" (rgbToHex (_r c) (_g c) (_b c) ++ pad2 (toString16 (Js.round (_a c * 255)))).

(** ** tinycolor2: modifications and combinations *)

(** Each modification reads [toHsl()], whose object carries the alpha of
    the colour, changes one field and builds a colour from the object. *)
Definition lighten (amount : Q) (c : color) : color :=
  let '(h, s, l) := toHsl c in fromHsl h s (clamp01 (l + amount / 100)) (Some (_a c)).

Definition darken (amount : Q) (c : color) : color :=
  let '(h, s, l) := toHsl c in fromHsl h s (clamp01 (l - amount / 100)) (Some (_a c)).

Definition desaturate (amount : Q) (c : color) : color :=
  let '(h, s, l) := toHsl c in fromHsl h (clamp01 (s - amount / 100)) l (Some (_a c)).

Definition spin (amount : Q) (c : color) : color :=
  let '(h, s, l) := toHsl c in
  let hue := Js.rem (h + amount) 360 in
  fromHsl (if Js.lt hue 0 then 360 + hue else hue) s l (Some (_a c)).

Definition complement (c : color) : color :=
  let '(h, s, l) := toHsl c in fromHsl (Js.rem (h + 180) 360) s l (Some (_a c)).

(** [polyad(color, number)]; [triad] and [tetrad] are [polyad] at 3 and 4. *)
Definition polyad (number : nat) (c : color) : list color :=
  let '(h, s, l) := toHsl c in
  let step := 360 / inject_Z (Z.of_nat number) in
  c :: map (fun i => fromHsl (Js.rem (h + inject_Z (Z.of_nat i) * step) 360) s l None)
           (seq 1 (number - 1)).

Definition triad : color -> list color := polyad 3.
Definition tetrad : color -> list color := polyad 4.

Definition splitcomplement (c : color) : list color :=
  let '(h, s, l) := toHsl c in
  [c; fromHsl (Js.rem (h + 72) 360) s l None; fromHsl (Js.rem (h + 216) 360) s l None].

(** The body of the [for] loop of [analogous], run [n] times. *)
Fixpoint analogousLoop (n : nat) (part h s l a : Q) : list color :=
  match n with
  | O => []
  | S n' =>
      let h' := Js.rem (h + part) 360 in
      fromHsl h' s l (Some a) :: analogousLoop n' part h' s l a
  end.

(** [analogous(color, results, slices)] with the default [slices = 30]:
<<
    var part = 360 / slices;
    var ret = [tinycolor(color)];
    for (hsl.h = (hsl.h - (part * results >> 1) + 720) % 360; --results;) {
      hsl.h = (hsl.h + part) % 360;
      ret.push(tinycolor(hsl));
    }
>> *)
Definition analogous (results : nat) (c : color) : list color :=
  let results := if (results =? 0)%nat then 6%nat else results in
  let part := 360 / 30 in
  let '(h, s, l) := toHsl c in
  let shift := inject_Z (Z.shiftr (Js.trunc (part * inject_Z (Z.of_nat results))) 1) in
  c :: analogousLoop (results - 1) part (Js.rem (h - shift + 720) 360) s l (_a c).

(** The [while (results--)] loop of [monochromatic]. *)
Fixpoint monochromaticLoop (n : nat) (modification h s v : Q) : list color :=
  match n with
  | O => []
  | S n' =>
      fromHsv h s v :: monochromaticLoop n' modification h s (Js.rem (v + modification) 1)
  end.

Definition monochromatic (results : nat) (c : color) : list color :=
  let results := if (results =? 0)%nat then 6%nat else results in
  let '(h, s, v) := toHsv c in
  monochromaticLoop results (1 / inject_Z (Z.of_nat results)) h s v.

(** ** tinycolor2: reading a colour from a string *)

Open Scope string_scope.

(** [\s] of the regular expressions [trimLeft] and [trimRight], on 8-bit
    code units: tab to carriage return, space and no-break space. *)
Definition isWhitespace (c : ascii) : bool :=
  let n := nat_of_ascii c in
  ((9 <=? n) && (n <=? 13) || (n =? 32) || (n =? 160))%nat.

Fixpoint trimLeft (s : string) : string :=
  match s with
  | String c r => if isWhitespace c then trimLeft r else s
  | EmptyString => EmptyString
  end.

Fixpoint trimRight (s : string) : string :=
  match s with
  | EmptyString => EmptyString
  | String c r =>
      match trimRight r with
      | EmptyString => if isWhitespace c then EmptyString else String c EmptyString
      | r' => String c r'
      end
  end.

(** [toLowerCase] on one 8-bit code unit. *)
Definition lowerChar (c : ascii) : ascii :=
  let n := nat_of_ascii c in
  if ((65 <=? n) && (n <=? 90) || (192 <=? n) && (n <=? 222) && negb (n =? 215))%nat
  then ascii_of_nat (n + 32) else c.

Fixpoint toLowerCase (s : string) : string :=
  match s with
  | EmptyString => EmptyString
  | String c r => String (lowerChar c) (toLowerCase r)
  end.

(** The table [names] of the library: CSS colour names to hex. *)
Definition names : list (string * string) :=
  [("aliceblue", "f0f8ff"); ("antiquewhite", "faebd7"); ("aqua", "0ff");
    ("aquamarine", "7fffd4"); ("azure", "f0ffff"); ("beige", "f5f5dc");
    ("bisque", "ffe4c4"); ("black", "000"); ("blanchedalmond", "ffebcd");
    ("blue", "00f"); ("blueviolet", "8a2be2"); ("brown", "a52a2a");
    ("burlywood", "deb887"); ("burntsienna", "ea7e5d"); ("cadetblue", "5f9ea0");
    ("chartreuse", "7fff00"); ("chocolate", "d2691e"); ("coral", "ff7f50");
    ("cornflowerblue", "6495ed"); ("cornsilk", "fff8dc"); ("crimson", "dc143c");
    ("cyan", "0ff"); ("darkblue", "00008b"); ("darkcyan", "008b8b");
    ("darkgoldenrod", "b8860b"); ("darkgray", "a9a9a9"); ("darkgreen", "006400");
    ("darkgrey", "a9a9a9"); ("darkkhaki", "bdb76b"); ("darkmagenta", "8b008b");
    ("darkolivegreen", "556b2f"); ("darkorange", "ff8c00"); ("darkorchid", "9932cc");
    ("darkred", "8b0000"); ("darksalmon", "e9967a"); ("darkseagreen", "8fbc8f");
    ("darkslateblue", "483d8b"); ("darkslategray", "2f4f4f");
    ("darkslategrey", "2f4f4f"); ("darkturquoise", "00ced1"); ("darkviolet", "9400d3");
    ("deeppink", "ff1493"); ("deepskyblue", "00bfff"); ("dimgray", "696969");
    ("dimgrey", "696969"); ("dodgerblue", "1e90ff"); ("firebrick", "b22222");
    ("floralwhite", "fffaf0"); ("forestgreen", "228b22"); ("fuchsia", "f0f");
    ("gainsboro", "dcdcdc"); ("ghostwhite", "f8f8ff"); ("gold", "ffd700");
    ("goldenrod", "daa520"); ("gray", "808080"); ("green", "008000");
    ("greenyellow", "adff2f"); ("grey", "808080"); ("honeydew", "f0fff0");
    ("hotpink", "ff69b4"); ("indianred", "cd5c5c"); ("indigo", "4b0082");
    ("ivory", "fffff0"); ("khaki", "f0e68c"); ("lavender", "e6e6fa");
    ("lavenderblush", "fff0f5"); ("lawngreen", "7cfc00"); ("lemonchiffon", "fffacd");
    ("lightblue", "add8e6"); ("lightcoral", "f08080"); ("lightcyan", "e0ffff");
    ("lightgoldenrodyellow", "fafad2"); ("lightgray", "d3d3d3");
    ("lightgreen", "90ee90"); ("lightgrey", "d3d3d3"); ("lightpink", "ffb6c1");
    ("lightsalmon", "ffa07a"); ("lightseagreen", "20b2aa"); ("lightskyblue", "87cefa");
    ("lightslategray", "789"); ("lightslategrey", "789"); ("lightsteelblue", "b0c4de");
    ("lightyellow", "ffffe0"); ("lime", "0f0"); ("limegreen", "32cd32");
    ("linen", "faf0e6"); ("magenta", "f0f"); ("maroon", "800000");
    ("mediumaquamarine", "66cdaa"); ("mediumblue", "0000cd");
    ("mediumorchid", "ba55d3"); ("mediumpurple", "9370db");
    ("mediumseagreen", "3cb371"); ("mediumslateblue", "7b68ee");
    ("mediumspringgreen", "00fa9a"); ("mediumturquoise", "48d1cc");
    ("mediumvioletred", "c71585"); ("midnightblue", "191970"); ("mintcream", "f5fffa");
    ("mistyrose", "ffe4e1"); ("moccasin", "ffe4b5"); ("navajowhite", "ffdead");
    ("navy", "000080"); ("oldlace", "fdf5e6"); ("olive", "808000");
    ("olivedrab", "6b8e23"); ("orange", "ffa500"); ("orangered", "ff4500");
    ("orchid", "da70d6"); ("palegoldenrod", "eee8aa"); ("palegreen", "98fb98");
    ("paleturquoise", "afeeee"); ("palevioletred", "db7093"); ("papayawhip", "ffefd5");
    ("peachpuff", "ffdab9"); ("peru", "cd853f"); ("pink", "ffc0cb"); ("plum", "dda0dd");
    ("powderblue", "b0e0e6"); ("purple", "800080"); ("rebeccapurple", "663399");
    ("red", "f00"); ("rosybrown", "bc8f8f"); ("royalblue", "4169e1");
    ("saddlebrown", "8b4513"); ("salmon", "fa8072"); ("sandybrown", "f4a460");
    ("seagreen", "2e8b57"); ("seashell", "fff5ee"); ("sienna", "a0522d");
    ("silver", "c0c0c0"); ("skyblue", "87ceeb"); ("slateblue", "6a5acd");
    ("slategray", "708090"); ("slategrey", "708090"); ("snow", "fffafa");
    ("springgreen", "00ff7f"); ("steelblue", "4682b4"); ("tan", "d2b48c");
    ("teal", "008080"); ("thistle", "d8bfd8"); ("tomato", "ff6347");
    ("turquoise", "40e0d0"); ("violet", "ee82ee"); ("wheat", "f5deb3");
    ("white", "fff"); ("whitesmoke", "f5f5f5"); ("yellow", "ff0");
    ("yellowgreen", "9acd32")].

Fixpoint lookup (key : string) (table : list (string * string)) : option string :=
  match table with
  | [] => None
  | (k, v) :: rest => if String.eqb key k then Some v else lookup key rest
  end.

(** The value of one character under [[0-9a-fA-F]]. *)
Definition hexVal (c : ascii) : option Z :=
  let n := nat_of_ascii c in
  if ((48 <=? n) && (n <=? 57))%nat then Some (Z.of_nat (n - 48))
  else if ((97 <=? n) && (n <=? 102))%nat then Some (Z.of_nat (n - 87))
  else if ((65 <=? n) && (n <=? 70))%nat then Some (Z.of_nat (n - 55))
  else None.

(** [parseIntFromHex] on the two characters of a capture group. *)
Definition parseIntFromHex (a b : ascii) : option Z :=
  match hexVal a, hexVal b with
  | Some x, Some y => Some (16 * x + y)%Z
  | _, _ => None
  end.

(** The optional leading [#] of the four hex matchers. *)
Definition stripHash (s : string) : string :=
  match s with
  | String "#" r => r
  | _ => s
  end.

(** The object a hex matcher returns: numeric channels and a format. *)
Definition hexObject (r g b : option Z) (f : format) : option colorInput :=
  match r, g, b with
  | Some r, Some g, Some b =>
      Some (mkInput (ObjRgb (Num (inject_Z r)) (Num (inject_Z g)) (Num (inject_Z b)))
              None (Some f))
  | _, _, _ => None
  end.

(** The same with alpha digits:
    [a: convertHexToDecimal(h)], that is [parseIntFromHex(h) / 255]. *)
Definition hexObjectAlpha (r g b a : option Z) (f : format) : option colorInput :=
  match r, g, b, a with
  | Some r, Some g, Some b, Some a =>
      Some (mkInput (ObjRgb (Num (inject_Z r)) (Num (inject_Z g)) (Num (inject_Z b)))
              (Some (inject_Z a / 255)) (Some f))
  | _, _, _, _ => None
  end.

(** [matchers.hex8], [hex6], [hex4] and [hex3], each anchored at both ends;
    [named] tells whether the string came out of the names table. *)
Definition hex8 (named : bool) (s : string) : option colorInput :=
  match list_ascii_of_string (stripHash s) with
  | [r1; r2; g1; g2; b1; b2; a1; a2] =>
      hexObjectAlpha (parseIntFromHex r1 r2) (parseIntFromHex g1 g2) (parseIntFromHex b1 b2)
        (parseIntFromHex a1 a2) (if named then FormatName else FormatHex8)
  | _ => None
  end.

Definition hex6 (named : bool) (s : string) : option colorInput :=
  match list_ascii_of_string (stripHash s) with
  | [r1; r2; g1; g2; b1; b2] =>
      hexObject (parseIntFromHex r1 r2) (parseIntFromHex g1 g2) (parseIntFromHex b1 b2)
        (if named then FormatName else FormatHex)
  | _ => None
  end.

Definition hex4 (named : bool) (s : string) : option colorInput :=
  match list_ascii_of_string (stripHash s) with
  | [r; g; b; a] =>
      hexObjectAlpha (parseIntFromHex r r) (parseIntFromHex g g) (parseIntFromHex b b)
        (parseIntFromHex a a) (if named then FormatName else FormatHex8)
  | _ => None
  end.

Definition hex3 (named : bool) (s : string) : option colorInput :=
  match list_ascii_of_string (stripHash s) with
  | [r; g; b] =>
      hexObject (parseIntFromHex r r) (parseIntFromHex g g) (parseIntFromHex b b)
        (if named then FormatName else FormatHex)
  | _ => None
  end.

Definition orElse {A} (x : option A) (y : option A) : option A :=
  match x with
  | Some _ => x
  | None => y
  end.

(** Whether [needle] occurs in [s]. *)
Fixpoint contains (needle s : string) : bool :=
  String.prefix needle s ||
  match s with
  | EmptyString => false
  | String _ r => contains needle r
  end.

(** ** tinycolor2: the name of a colour *)

(** [rgbToHex(r, g, b, true)]: three characters when each channel prints as
    a doubled digit. *)
Definition rgbToHex3 (r g b : Q) : string :=
  let hr := pad2 (toString16 (Js.round r)) in
  let hg := pad2 (toString16 (Js.round g)) in
  let hb := pad2 (toString16 (Js.round b)) in
  let doubled (h : string) :=
    match String.get 0 h, String.get 1 h with
    | Some x, Some y => Ascii.eqb x y
    | None, None => true
    | _, _ => false
    end in
  let first (h : string) := substring 0 1 h in
  if doubled hr && doubled hg && doubled hb then first hr ++ first hg ++ first hb
  else hr ++ hg ++ hb.

(** [hexNames = flip(names)]: for a hex value listed under several names the
    last one stays. *)
Fixpoint reverseLookup (value : string) (table : list (string * string)) : option string :=
  match table with
  | [] => None
  | (k, v) :: rest =>
      match reverseLookup value rest with
      | Some k' => Some k'
      | None => if String.eqb value v then Some k else None
      end
  end.

(** [toName()]; [None] stands for [false]. *)
Definition toName (c : color) : option string :=
  if Js.eq (_a c) 0 then Some "transparent"
  else if Js.lt (_a c) 1 then None
  else reverseLookup (rgbToHex3 (_r c) (_g c) (_b c)) names.

(** ** What the script takes from outside *)

(** The functional notations of the library.  The six matchers [rgb],
    [rgba], [hsl], [hsla], [hsv] and [hsva], which [stringInputToObject]
    tries before the hex matchers, are taken as a parameter: the object they
    capture from a string, if any.  So are the printers [toRgbString],
    [toPercentageRgbString], [toHslString] and [toHsvString] that write those
    notations: [functionalString c] is the one [toString] picks for [c].
    The properties are proved for every library whose matchers require
    their keyword; [tinycolorNotation] below is the one of release 1.6. *)
Class FunctionalNotation : Type := {
  functionalNotation : string -> option colorInput;
  functionalString : color -> string
}.

(** The page: the text of each option of the rule selector, and the [width]
    and [height] attributes of the saturation/lightness canvas. *)
Class Page : Type := {
  ruleText : string -> string;
  slPickerCanvas_width : Q;
  slPickerCanvas_height : Q
}.

(** The functional notation that matches nothing; on a string without the
    keywords [rgb], [hsl] and [hsv] every instance agrees with it. *)
#[export] Instance noFunctionalNotation : FunctionalNotation := {|
  functionalNotation := fun _ => None;
  functionalString := fun _ => ""
|}.

(** A page whose options show their values, with a canvas of 200 by 200. *)
#[export] Instance samplePage : Page := {|
  ruleText := fun rule => rule;
  slPickerCanvas_width := 200;
  slPickerCanvas_height := 200
|}.

(** What the drawing functions take from the browser: [Math.PI],
    [Math.cos] and [Math.sin], the string a template literal writes for a
    number, and the [width] and [height] attributes of the hue wheel
    canvas. *)
Class Browser : Type := {
  Math_PI : Q;
  Math_cos : Q -> Q;
  Math_sin : Q -> Q;
  numberToString : Q -> string;
  hueWheelCanvas_width : Q;
  hueWheelCanvas_height : Q
}.

(** A stand-in browser: pi to fifteen decimals, cosine and sine by their
    Taylor polynomials of degree four and five, numbers written as the
    decimal digits of their integer part, and a wheel of 300 by 300. *)
#[export] Instance sampleBrowser : Browser := {|
  Math_PI := 3141592653589793 # 1000000000000000;
  Math_cos := fun x => 1 - x * x / 2 + x * x * x * x / 24;
  Math_sin := fun x => x - x * x * x / 6 + x * x * x * x * x / 120;
  numberToString := fun q => DecimalString.NilZero.string_of_int (Z.to_int (Qfloor q));
  hueWheelCanvas_width := 300;
  hueWheelCanvas_height := 300
|}.


(** ** tinycolor2: the functional notations of release 1.6

    The six matchers are regular expressions without anchors, run by
    [exec]; the strings they capture are read by [parseFloat].  The four
    printers write the notations back. *)

Module RegExp.

(** The constructs the matchers are written with: a character, a class of
    characters, a sequence, an alternative [r1|r2], a greedy [r*] and a
    capturing group. *)
Inductive regex : Type :=
| Empty
| Char (c : ascii)
| Class (p : ascii -> bool)
| Cat (r1 r2 : regex)
| Or (r1 r2 : regex)
| Star (r : regex)
| Capture (r : regex).

(** [r+] and the greedy [r?]. *)
Definition Plus (r : regex) : regex := Cat r (Star r).
Definition Opt (r : regex) : regex := Or r Empty.

(** The characters of a literal, in sequence. *)
Fixpoint Lit (s : string) : regex :=
  match s with
  | EmptyString => Empty
  | String c r => Cat (Char c) (Lit r)
  end.

(** What has been read of [s] when [rest] is left. *)
Definition taken (s rest : string) : string :=
  substring 0 (String.length s - String.length rest) s.

(** The backtracking matcher of the language: [r] is matched at the start
    of [s], and the continuation [k] receives what is left with the
    captures made so far; when [k] fails the next way to match [r] is
    tried.  An alternative tries its left side first; a star takes one more
    turn first, a turn that reads nothing being refused. *)
Fixpoint backtrack {R : Type} (r : regex) (s : string) (captures : list string)
    (k : string -> list string -> option R) : option R :=
  match r with
  | Empty => k s captures
  | Char c =>
      match s with
      | String c' rest => if Ascii.eqb c c' then k rest captures else None
      | EmptyString => None
      end
  | Class p =>
      match s with
      | String c' rest => if p c' then k rest captures else None
      | EmptyString => None
      end
  | Cat r1 r2 =>
      backtrack r1 s captures (fun rest captures' => backtrack r2 rest captures' k)
  | Or r1 r2 =>
      match backtrack r1 s captures k with
      | Some result => Some result
      | None => backtrack r2 s captures k
      end
  | Star r' =>
      (fix turns (fuel : nat) (s : string) (captures : list string) : option R :=
         match fuel with
         | O => k s captures
         | S fuel' =>
             match backtrack r' s captures
                     (fun rest captures' =>
                        if (String.length rest <? String.length s)%nat
                        then turns fuel' rest captures' else None) with
             | Some result => Some result
             | None => k s captures
             end
         end) (String.length s) s captures
  | Capture r' =>
      backtrack r' s captures
        (fun rest captures' => k rest (captures' ++ [taken s rest])%list)
  end.

(** [r.exec(s)] for a pattern without flags: the captures of the first
    match, the start positions being tried from the left. *)
Fixpoint exec (r : regex) (s : string) : option (list string) :=
  match backtrack r s [] (fun _ captures => Some captures) with
  | Some captures => Some captures
  | None =>
      match s with
      | EmptyString => None
      | String _ rest => exec r rest
      end
  end.

End RegExp.

Import RegExp.

(** The class [\d]. *)
Definition isDigit (c : ascii) : bool :=
  let n := nat_of_ascii c in ((48 <=? n) && (n <=? 57))%nat.

(** <<
    var CSS_INTEGER = "[-\\+]?\\d+%?";
    var CSS_NUMBER = "[-\\+]?\\d*\\.\\d+%?";
    var CSS_UNIT = "(?:" + CSS_NUMBER + ")|(?:" + CSS_INTEGER + ")";
>> *)
Definition signClass : regex :=
  Class (fun c => Ascii.eqb c "-" || Ascii.eqb c "+").

Definition CSS_INTEGER : regex :=
  Cat (Opt signClass) (Cat (Plus (Class isDigit)) (Opt (Char "%"))).

Definition CSS_NUMBER : regex :=
  Cat (Opt signClass)
    (Cat (Star (Class isDigit))
       (Cat (Char ".") (Cat (Plus (Class isDigit)) (Opt (Char "%"))))).

Definition CSS_UNIT : regex := Or CSS_NUMBER CSS_INTEGER.

(** The classes [[\s|\(]] and [[,|\s]], with [isWhitespace] for [\s];
    in a class the bar stands for itself. *)
Definition openingClass : regex :=
  Class (fun c => isWhitespace c || Ascii.eqb c "|" || Ascii.eqb c "(").

Definition separatorClass : regex :=
  Class (fun c => Ascii.eqb c "," || Ascii.eqb c "|" || isWhitespace c).

(** <<
    var PERMISSIVE_MATCH3 = "[\\s|\\(]+(" + CSS_UNIT + ")[,|\\s]+(" + CSS_UNIT
      + ")[,|\\s]+(" + CSS_UNIT + ")\\s*\\)?";
    var PERMISSIVE_MATCH4 = "[\\s|\\(]+(" + CSS_UNIT + ")[,|\\s]+(" + CSS_UNIT
      + ")[,|\\s]+(" + CSS_UNIT + ")[,|\\s]+(" + CSS_UNIT + ")\\s*\\)?";
>> *)
Definition closing : regex := Cat (Star (Class isWhitespace)) (Opt (Char ")")).

Definition PERMISSIVE_MATCH3 : regex :=
  Cat (Plus openingClass)
    (Cat (Capture CSS_UNIT)
       (Cat (Plus separatorClass)
          (Cat (Capture CSS_UNIT)
             (Cat (Plus separatorClass) (Cat (Capture CSS_UNIT) closing))))).

Definition PERMISSIVE_MATCH4 : regex :=
  Cat (Plus openingClass)
    (Cat (Capture CSS_UNIT)
       (Cat (Plus separatorClass)
          (Cat (Capture CSS_UNIT)
             (Cat (Plus separatorClass)
                (Cat (Capture CSS_UNIT)
                   (Cat (Plus separatorClass) (Cat (Capture CSS_UNIT) closing))))))).

(** [new RegExp("rgb" + PERMISSIVE_MATCH3)] and the five others. *)
Definition matchers_rgb : regex := Cat (Lit "rgb") PERMISSIVE_MATCH3.
Definition matchers_rgba : regex := Cat (Lit "rgba") PERMISSIVE_MATCH4.
Definition matchers_hsl : regex := Cat (Lit "hsl") PERMISSIVE_MATCH3.
Definition matchers_hsla : regex := Cat (Lit "hsla") PERMISSIVE_MATCH4.
Definition matchers_hsv : regex := Cat (Lit "hsv") PERMISSIVE_MATCH3.
Definition matchers_hsva : regex := Cat (Lit "hsva") PERMISSIVE_MATCH4.

(** The digits a string starts with: their value, their number, and what
    follows them. *)
Fixpoint leadingDigits (value : Z) (count : nat) (s : string) : Z * nat * string :=
  match s with
  | String c rest =>
      if isDigit c
      then leadingDigits (value * 10 + Z.of_nat (nat_of_ascii c - 48)) (S count) rest
      else (value, count, s)
  | EmptyString => (value, count, s)
  end.

(** [parseFloat(s)] on a string that [CSS_UNIT] matches: a sign, digits,
    a point and digits; a [%] at the end is not read.  The decimal is taken
    exactly. *)
Definition parseFloat (s : string) : Q :=
  let '(negative, unsigned) :=
    match s with
    | String "-" rest => (true, rest)
    | String "+" rest => (false, rest)
    | _ => (false, s)
    end in
  let '(whole, _, rest) := leadingDigits 0 0 unsigned in
  let magnitude :=
    match rest with
    | String "." fraction =>
        let '(part, places, _) := leadingDigits 0 0 fraction in
        inject_Z whole + inject_Z part / inject_Z (10 ^ Z.of_nat places)
    | _ => inject_Z whole
    end in
  if negative then - magnitude else magnitude.

(** A captured string as [bound01] takes it:
<<
    if (isOnePointZero(n)) n = "100%";
    var processPercent = isPercentage(n);
>>
    where [isOnePointZero(n)] is [n.indexOf('.') != -1 && parseFloat(n) === 1]
    and [isPercentage(n)] is [n.indexOf('%') != -1]. *)
Definition capturedUnit (s : string) : cssunit :=
  if contains "." s && Js.eq (parseFloat s) 1 then Pct 100
  else if contains "%" s then Pct (parseFloat s)
  else Num (parseFloat s).

(** [String(color.r).substr(-1) === "%" ? "prgb" : "rgb"]. *)
Definition capturedFormat (r : string) : format :=
  if String.eqb (substring (String.length r - 1) 1 r) "%" then FormatPrgb else FormatRgb.

(** The six matchers in the order [stringInputToObject] tries them:
<<
    if ((match = matchers.rgb.exec(color)))
        return { r: match[1], g: match[2], b: match[3] };
    if ((match = matchers.rgba.exec(color)))
        return { r: match[1], g: match[2], b: match[3], a: match[4] };
    if ((match = matchers.hsl.exec(color))) ...
>>
    The format is the one [inputToRGB] reads from the captured string of
    the first component, the alpha the one [boundAlpha] parses. *)
Definition functionalMatchers (color : string) : option colorInput :=
  match exec matchers_rgb color with
  | Some [r; g; b] =>
      Some (mkInput (ObjRgb (capturedUnit r) (capturedUnit g) (capturedUnit b))
              None (Some (capturedFormat r)))
  | _ =>
  match exec matchers_rgba color with
  | Some [r; g; b; a] =>
      Some (mkInput (ObjRgb (capturedUnit r) (capturedUnit g) (capturedUnit b))
              (Some (parseFloat a)) (Some (capturedFormat r)))
  | _ =>
  match exec matchers_hsl color with
  | Some [h; s; l] =>
      Some (mkInput (ObjHsl (capturedUnit h) (capturedUnit s) (capturedUnit l)) None None)
  | _ =>
  match exec matchers_hsla color with
  | Some [h; s; l; a] =>
      Some (mkInput (ObjHsl (capturedUnit h) (capturedUnit s) (capturedUnit l))
              (Some (parseFloat a)) None)
  | _ =>
  match exec matchers_hsv color with
  | Some [h; s; v] =>
      Some (mkInput (ObjHsv (capturedUnit h) (capturedUnit s) (capturedUnit v)) None None)
  | _ =>
  match exec matchers_hsva color with
  | Some [h; s; v; a] =>
      Some (mkInput (ObjHsv (capturedUnit h) (capturedUnit s) (capturedUnit v))
              (Some (parseFloat a)) None)
  | _ => None
  end end end end end end.

(** The string of an integer. *)
Definition integerString (n : Z) : string :=
  DecimalString.NilZero.string_of_int (Z.to_int n).

(** The string of [this._roundA = Math.round(100 * this._a) / 100], an
    alpha between 0 and 1: at most two decimals, none of them a closing
    zero. *)
Definition roundAString (a : Q) : string :=
  let hundredths := Js.round (100 * a) in
  let whole := (hundredths / 100)%Z in
  let part := (hundredths mod 100)%Z in
  if (part =? 0)%Z then integerString whole
  else if (part mod 10 =? 0)%Z
       then integerString whole ++ "." ++ integerString (part / 10)
       else integerString whole ++ "." ++ integerString (part / 10) ++ integerString (part mod 10).

(** The body of the four printers: [name(x, y, z)], or
    [namea(x, y, z, roundA)] when the alpha is not 1. *)
Definition notation (name x y z : string) (a : Q) : string :=
  if Js.eq a 1
  then name ++ "(" ++ x ++ ", " ++ y ++ ", " ++ z ++ ")"
  else name ++ "a(" ++ x ++ ", " ++ y ++ ", " ++ z ++ ", " ++ roundAString a ++ ")".

(** [toRgbString()]. *)
Definition toRgbString (c : color) : string :=
  notation "rgb" (integerString (Js.round (_r c))) (integerString (Js.round (_g c)))
    (integerString (Js.round (_b c))) (_a c).

(** [toPercentageRgbString()]: each channel is
    [mathRound(bound01(channel, 255) * 100) + "%"]. *)
Definition toPercentageRgbString (c : color) : string :=
  let percent (x : Q) := integerString (Js.round (bound01 (Num x) 255 * 100)) ++ "%" in
  notation "rgb" (percent (_r c)) (percent (_g c)) (percent (_b c)) (_a c).

(** [toHslString()]. *)
Definition toHslString (c : color) : string :=
  let '(h, s, l) := rgbToHsl (_r c) (_g c) (_b c) in
  notation "hsl" (integerString (Js.round (h * 360)))
    (integerString (Js.round (s * 100)) ++ "%")
    (integerString (Js.round (l * 100)) ++ "%") (_a c).

(** [toHsvString()]. *)
Definition toHsvString (c : color) : string :=
  let '(h, s, v) := rgbToHsv (_r c) (_g c) (_b c) in
  notation "hsv" (integerString (Js.round (h * 360)))
    (integerString (Js.round (s * 100)) ++ "%")
    (integerString (Js.round (v * 100)) ++ "%") (_a c).

(** The printer [toString()] picks where it writes a functional notation:
    the one of the format, and [toRgbString()] for a colour with an alpha
    whose format has no alpha. *)
Definition formatString (c : color) : string :=
  match _format c with
  | Some FormatPrgb => toPercentageRgbString c
  | Some FormatHsl => toHslString c
  | Some FormatHsv => toHsvString c
  | _ => toRgbString c
  end.

(** The functional notations of release 1.6.  It is not declared as an
    instance: the closed statements that name no library are read with
    [noFunctionalNotation]. *)
Definition tinycolorNotation : FunctionalNotation := {|
  functionalNotation := functionalMatchers;
  functionalString := formatString
|}.
(** ** Binary64 arithmetic

    A JavaScript number is a binary64 value: a rational [m * 2^e] whose
    significand [m] has at most 53 bits, with [e] no less than -1074.
    Each arithmetic operation returns the exact result rounded to the
    nearest such value, ties going to the even significand.  The module
    [Double] redoes on these numbers the arithmetic that sets the picker
    triple, where the rounding decides what is stored: the listeners of the
    two canvases, [toHsl] and the position of the marker of the pad.
    Infinity, [NaN] and the sign of zero are left out; no operation below
    overflows or divides by zero. *)

Module Double.

(** Rounding to the nearest integer, ties to the even one. *)
Definition rne (x : Q) : Z :=
  let f := Qfloor x in
  match Qcompare (x - inject_Z f) (1 # 2) with
  | Lt => f
  | Eq => if Z.even f then f else (f + 1)%Z
  | Gt => (f + 1)%Z
  end.

(** The integer part of the binary logarithm of a positive number. *)
Definition ilog2 (x : Q) : Z :=
  let k := (Z.log2 (Qnum x) - Z.log2 (Zpos (Qden x)))%Z in
  if Qle_bool (2 ^ k) x then k else (k - 1)%Z.

(** The exponent of the unit in the last place of [x]: 53 significant
    bits, and 2^-1074 in the subnormal range. *)
Definition ulpExponent (x : Q) : Z := Z.max (ilog2 (Qabs x) - 52) (-1074).

(** The binary64 value nearest to [x]. *)
Definition round (x : Q) : Q :=
  if Qeq_bool x 0 then 0
  else let e := ulpExponent x in inject_Z (rne (x / 2 ^ e)) * 2 ^ e.

(** The operators [+], [-], [*] and [/]. *)
Definition add (a b : Q) : Q := round (a + b).
Definition sub (a b : Q) : Q := round (a - b).
Definition mul (a b : Q) : Q := round (a * b).
Definition div (a b : Q) : Q := round (a / b).

(** [Math.PI]. *)
Definition Math_PI : Q := 884279719003555 # 281474976710656.

(** [bound01(n, max)] on a number: [parseFloat] gives the number back, and
    the remainder [n % max] of two binary64 values is one, so that it is
    not rounded. *)
Definition bound01 (n max : Q) : Q :=
  let n := Js.min max (Js.max 0 n) in
  if Js.lt (Js.abs (sub n max)) (round (1 # 1000000)) then 1
  else div (Js.rem n max) max.

(** [rgbToHsl(r, g, b)]. *)
Definition rgbToHsl (r g b : Q) : Q * Q * Q :=
  let r := bound01 r 255 in
  let g := bound01 g 255 in
  let b := bound01 b 255 in
  let max := Js.max3 r g b in
  let min := Js.min3 r g b in
  let l := div (add max min) 2 in
  if Js.eq max min then (0, 0, l)
  else
    let d := sub max min in
    let s := if Js.lt (1 # 2) l then div d (sub (sub 2 max) min) else div d (add max min) in
    let h :=
      if Js.eq max r then add (div (sub g b) d) (if Js.lt g b then 6 else 0)
      else if Js.eq max g then add (div (sub b r) d) 2
      else add (div (sub r g) d) 4 in
    (div h 6, s, l).

(** [toHsl()]. *)
Definition toHsl (c : color) : Q * Q * Q :=
  let '(h, s, l) := rgbToHsl (_r c) (_g c) (_b c) in (mul h 360, s, l).

(** The five variables of the picker (lines 32-36). *)
Record picker : Type := mkPicker {
  currentHue : Q;
  currentSaturation : Q;
  currentLightness : Q;
  isDraggingHue : bool;
  isDraggingSL : bool
}.

Definition setHsl (h s l : Q) (st : picker) : picker :=
  mkPicker h s l (isDraggingHue st) (isDraggingSL st).

Definition setDragging (hue sl : bool) (st : picker) : picker :=
  mkPicker (currentHue st) (currentSaturation st) (currentLightness st) hue sl.

Section Listeners.

Context {page : Page}.

(** The listeners, as far as they assign the five variables:
    [updateColorFromPicker()], which each of them calls last, reads the
    triple and assigns none of them.  The [input] listener is given the
    colour that [tinycolor(baseColorInput.value)] returns. *)
Definition baseColorInput_input (color : color) (st : picker) : picker :=
  if isValid color then
    let '(h, s, l) := toHsl color in setHsl h s l st
  else st.

(** Lines 490-493: [angleDeg] is the value of
    [Math.atan2(y - centerY, x - centerX) * 180 / Math.PI]. *)
Definition setHueFromAngle (angleDeg : Q) (st : picker) : picker :=
  let angleDeg := if Js.lt angleDeg 0 then add angleDeg 360 else angleDeg in
  setHsl angleDeg (currentSaturation st) (currentLightness st) st.

Definition hueWheelCanvas_mousedown (angleDeg : Q) (st : picker) : picker :=
  let st := setDragging true (isDraggingSL st) st in
  setHueFromAngle angleDeg st.

Definition hueWheelCanvas_mousemove (angleDeg : Q) (st : picker) : picker :=
  if isDraggingHue st then setHueFromAngle angleDeg st else st.

(** Lines 530-531: [x], [y] are the pointer offsets from the canvas
    corner. *)
Definition setSLFromPoint (x y : Q) (st : picker) : picker :=
  setHsl (currentHue st)
    (Js.max 0 (Js.min 1 (div x slPickerCanvas_width)))
    (sub 1 (Js.max 0 (Js.min 1 (div y slPickerCanvas_height)))) st.

Definition slPickerCanvas_mousedown (x y : Q) (st : picker) : picker :=
  let st := setDragging (isDraggingHue st) true st in
  setSLFromPoint x y st.

Definition slPickerCanvas_mousemove (x y : Q) (st : picker) : picker :=
  if isDraggingSL st then setSLFromPoint x y st else st.

Definition document_mouseup (st : picker) : picker := setDragging false false st.

(** Lines 156-157 of [drawSLPicker]: the centre of the marker. *)
Definition marker (st : picker) : Q * Q :=
  (mul (currentSaturation st) slPickerCanvas_width,
   mul (sub 1 (currentLightness st)) slPickerCanvas_height).

(** The events that run a listener; the two buttons, the rule selector and
    the swatches assign none of the five variables. *)
Inductive event : Type :=
| BaseColorInput (color : color)
| HueMouseDown (angleDeg : Q)
| HueMouseMove (angleDeg : Q)
| SLMouseDown (x y : Q)
| SLMouseMove (x y : Q)
| MouseUp
| RandomPaletteClick
| GenerateHarmonyClick
| HarmonyRuleChange
| SwatchClick.

Definition handle (ev : event) (st : picker) : picker :=
  match ev with
  | BaseColorInput color => baseColorInput_input color st
  | HueMouseDown a => hueWheelCanvas_mousedown a st
  | HueMouseMove a => hueWheelCanvas_mousemove a st
  | SLMouseDown x y => slPickerCanvas_mousedown x y st
  | SLMouseMove x y => slPickerCanvas_mousemove x y st
  | MouseUp => document_mouseup st
  | RandomPaletteClick | GenerateHarmonyClick | HarmonyRuleChange | SwatchClick => st
  end.

(** Lines 32-36, and [initializeApp()] on the colour read from the field. *)
Definition initialPicker : picker := mkPicker 0 1 (1 # 2) false false.

Definition initializeApp (initialColor : color) (st : picker) : picker :=
  if isValid initialColor then
    let '(h, s, l) := toHsl initialColor in setHsl h s l st
  else st.

(** [Math.atan2(..) * 180 / Math.PI] lies between -180 and 180. *)
Definition fromAtan2 (angleDeg : Q) : Prop := -(180) <= angleDeg <= 180.

(** The events the page can deliver. *)
Definition admissible (ev : event) : Prop :=
  match ev with
  | HueMouseDown a | HueMouseMove a => fromAtan2 a
  | _ => True
  end.

(** The picker states the script goes through. *)
Inductive reachable : picker -> Prop :=
| reachable_init initialColor :
    reachable (initializeApp initialColor initialPicker)
| reachable_step st ev :
    reachable st -> admissible ev -> reachable (handle ev st).

(** The picker triple is in range, the hue within the closed [0, 360]. *)
Definition inRange (st : picker) : Prop :=
  0 <= currentHue st <= 360 /\
  0 <= currentSaturation st <= 1 /\
  0 <= currentLightness st <= 1.

End Listeners.

End Double.

(** ** The script *)

Section Script.

Context {library : FunctionalNotation} {page : Page}.

Definition matchers (named : bool) (c : string) : option colorInput :=
  orElse (functionalNotation c)
    (orElse (hex8 named c)
       (orElse (hex6 named c) (orElse (hex4 named c) (hex3 named c)))).

(** [stringInputToObject(color)]. *)
Definition stringInputToObject (color : string) : option colorInput :=
  let color := toLowerCase (trimRight (trimLeft color)) in
  match lookup color names with
  | Some hex => matchers true hex
  | None =>
      if String.eqb color "transparent"
      then Some (mkInput (ObjRgb (Num 0) (Num 0) (Num 0)) (Some 0) (Some FormatName))
      else matchers false color
  end.

(** [tinycolor(color)] on a string. *)
Definition tinycolor (s : string) : color := construct (stringInputToObject s).

(** [toString()] without a format argument. *)
Definition toString (c : color) : string :=
  let hasAlpha := Js.lt (_a c) 1 && Js.le 0 (_a c) in
  let needsAlphaFormat :=
    hasAlpha &&
    match _format c with
    | Some FormatHex | Some FormatHex8 | Some FormatName => true
    | _ => false
    end in
  if needsAlphaFormat then
    match _format c, Js.eq (_a c) 0, toName c with
    | Some FormatName, true, Some name => name
    | _, _, _ => functionalString c
    end
  else
    let formattedString :=
      match _format c with
      | Some FormatRgb | Some FormatPrgb | Some FormatHsl | Some FormatHsv =>
          Some (functionalString c)
      | Some FormatHex => Some (toHexString c)
      | Some FormatHex8 => Some (toHex8String c)
      | Some FormatName => toName c
      | None => None
      end in
    match formattedString with
    | Some str => str
    | None => toHexString c
    end.

(** [clone()]: [tinycolor(this.toString())]. *)
Definition clone (c : color) : color := tinycolor (toString c).

Definition NUM_COLORS_PER_PALETTE : nat := 5.

(** [a.slice(start, end)] for [0 <= start <= end]. *)
Definition slice {A} (start stop : nat) (a : list A) : list A :=
  firstn (stop - start) (skipn start a).

(** [a[i]] on an array of strings; [undefined] is read by [tinycolor] as
    the empty string. *)
Definition at_ (a : list string) (i : nat) : string := nth i a "".

(** [getRandomHexColor()], over the outcomes [rand] of [Math.random()],
    the next one being at position [pos]. *)
Definition hexChars : string := "0123456789ABCDEF".

Fixpoint randomDigits (n : nat) (rand : nat -> Q) (pos : nat) (hexColor : string)
  : string * nat :=
  match n with
  | O => (hexColor, pos)
  | S n' =>
      let i := Js.floor (rand pos * 16) in
      let ch :=
        match (if (i <? 0)%Z then None else String.get (Z.to_nat i) hexChars) with
        | Some c => String c EmptyString
        | None => "undefined"
        end in
      randomDigits n' rand (S pos) (hexColor ++ ch)
  end.

Definition getRandomHexColor (rand : nat -> Q) (pos : nat) : string * nat :=
  randomDigits 6 rand pos "#".

Fixpoint generatePaletteLoop (n : nat) (rand : nat -> Q) (pos : nat) (colors : list string)
  : list string * nat :=
  match n with
  | O => (colors, pos)
  | S n' =>
      let '(c, pos') := getRandomHexColor rand pos in
      generatePaletteLoop n' rand pos' (colors ++ [c])%list
  end.

Definition generatePalette (rand : nat -> Q) (pos : nat) : list string * nat :=
  generatePaletteLoop NUM_COLORS_PER_PALETTE rand pos [].

(** The failure of [generateHarmonyPalette]: the alert it raises before
    returning [null]. *)
Inductive error : Type := InvalidBaseColor (alert : string).

Definition invalidBaseColorAlert : string :=
  "Invalid base color provided. Please enter a valid hex code (e.g., #3498db or 3498db).".

(** [generateHarmonyPalette(baseColorValue, harmonyRule)]. *)
Definition generateHarmonyPalette (baseColorValue harmonyRule : string)
  : error + list string :=
  let base := tinycolor baseColorValue in
  if negb (isValid base) then inl (InvalidBaseColor invalidBaseColorAlert)
  else
    let harmonyColors :=
      if String.eqb harmonyRule "analogous" then
        let harmonyColors := map toHexString (analogous (NUM_COLORS_PER_PALETTE + 1) base) in
        toHexString base :: slice 1 NUM_COLORS_PER_PALETTE harmonyColors
      else if String.eqb harmonyRule "monochromatic" then
        map toHexString (monochromatic NUM_COLORS_PER_PALETTE base)
      else if String.eqb harmonyRule "splitcomplement" then
        let splitComps := map toHexString (splitcomplement base) in
        slice 0 NUM_COLORS_PER_PALETTE
          [at_ splitComps 0;
           at_ splitComps 1;
           toHexString (lighten 15 (tinycolor (at_ splitComps 1)));
           at_ splitComps 2;
           toHexString (darken 15 (tinycolor (at_ splitComps 2)))]
      else if String.eqb harmonyRule "triad" then
        let harmonyColors := map toHexString (triad base) in
        let harmonyColors :=
          if ((List.length harmonyColors <? NUM_COLORS_PER_PALETTE) && (1 <? List.length harmonyColors))%nat
          then (harmonyColors ++ [toHexString (lighten 20 (tinycolor (at_ harmonyColors 1)))])%list
          else harmonyColors in
        let harmonyColors :=
          if ((List.length harmonyColors <? NUM_COLORS_PER_PALETTE) && (2 <? List.length harmonyColors))%nat
          then (harmonyColors ++ [toHexString (darken 20 (tinycolor (at_ harmonyColors 2)))])%list
          else harmonyColors in
        slice 0 NUM_COLORS_PER_PALETTE harmonyColors
      else if String.eqb harmonyRule "tetrad" then
        let harmonyColors := map toHexString (tetrad base) in
        let harmonyColors :=
          if (List.length harmonyColors <? NUM_COLORS_PER_PALETTE)%nat
          then (harmonyColors ++ [toHexString (lighten 20 (tinycolor (at_ harmonyColors 0)))])%list
          else harmonyColors in
        slice 0 NUM_COLORS_PER_PALETTE harmonyColors
      else if String.eqb harmonyRule "complement" then
        let complementColor := toHexString (complement base) in
        slice 0 NUM_COLORS_PER_PALETTE
          [toHexString base;
           toHexString (lighten 20 (clone base));
           complementColor;
           toHexString (lighten 20 (tinycolor complementColor));
           toHexString (desaturate 10 (spin 30 (clone base)))]
      else if String.eqb harmonyRule "shades" then
        slice 0 NUM_COLORS_PER_PALETTE
          [toHexString (darken 30 (clone base));
           toHexString (darken 15 (clone base));
           toHexString base;
           toHexString (lighten 15 (clone base));
           toHexString (lighten 30 (clone base))]
      else [toHexString base] in
    inr (map (fun color => toHexString (tinycolor color)) harmonyColors).

(** What [displayPalette(colors, title)] leaves in the palette section:
    the title and either the fallback message or one swatch per valid
    colour, labelled with its hex string. *)
Inductive display : Type :=
| NoColors (title : string)
| Swatches (title : string) (hexes : list string).

Definition displayPalette (colors : list string) (title : string) : display :=
  match colors with
  | [] => NoColors title
  | _ =>
      Swatches title
        (map toHexString (filter isValid (map tinycolor colors)))
  end.

(** The variables of the script and the parts of the page it reads and
    writes. *)
Record state : Type := mkState {
  currentHue : Q;
  currentSaturation : Q;
  currentLightness : Q;
  isDraggingHue : bool;
  isDraggingSL : bool;
  baseColorInput_value : string;
  harmonyRuleSelect_value : string;
  paletteDisplay : option display;
  alerts : list string
}.

Definition setHsl (h s l : Q) (st : state) : state :=
  mkState h s l (isDraggingHue st) (isDraggingSL st) (baseColorInput_value st)
    (harmonyRuleSelect_value st) (paletteDisplay st) (alerts st).

Definition setDragging (hue sl : bool) (st : state) : state :=
  mkState (currentHue st) (currentSaturation st) (currentLightness st) hue sl
    (baseColorInput_value st) (harmonyRuleSelect_value st) (paletteDisplay st) (alerts st).

Definition setBaseColorInput (v : string) (st : state) : state :=
  mkState (currentHue st) (currentSaturation st) (currentLightness st)
    (isDraggingHue st) (isDraggingSL st) v
    (harmonyRuleSelect_value st) (paletteDisplay st) (alerts st).

Definition setHarmonyRule (v : string) (st : state) : state :=
  mkState (currentHue st) (currentSaturation st) (currentLightness st)
    (isDraggingHue st) (isDraggingSL st) (baseColorInput_value st)
    v (paletteDisplay st) (alerts st).

Definition setDisplay (d : display) (st : state) : state :=
  mkState (currentHue st) (currentSaturation st) (currentLightness st)
    (isDraggingHue st) (isDraggingSL st) (baseColorInput_value st)
    (harmonyRuleSelect_value st) (Some d) (alerts st).

Definition alert (msg : string) (st : state) : state :=
  mkState (currentHue st) (currentSaturation st) (currentLightness st)
    (isDraggingHue st) (isDraggingSL st) (baseColorInput_value st)
    (harmonyRuleSelect_value st) (paletteDisplay st) (alerts st ++ [msg])%list.

(** [handleGenerateHarmony()]: the new state and the returned palette. *)
Definition handleGenerateHarmony (st : state) : state * (error + list string) :=
  let colorFromPicker :=
    fromHsl (currentHue st) (currentSaturation st) (currentLightness st) None in
  let st := setBaseColorInput (toHexString colorFromPicker) st in
  let baseColor := baseColorInput_value st in
  let harmonyRule := harmonyRuleSelect_value st in
  let selectedRuleText := ruleText harmonyRule in
  let harmonyPalette := generateHarmonyPalette baseColor harmonyRule in
  match harmonyPalette with
  | inl (InvalidBaseColor msg) => (alert msg st, harmonyPalette)
  | inr palette =>
      (setDisplay (displayPalette palette (selectedRuleText ++ " Harmony")) st,
       harmonyPalette)
  end.

(** [updateColorFromPicker()]; redrawing the two canvases changes no
    variable. *)
Definition updateColorFromPicker (st : state) : state :=
  fst (handleGenerateHarmony st).

(** The [input] listener of the base colour field, once the field holds
    [text]. *)
Definition baseColorInput_input (text : string) (st : state) : state :=
  let st := setBaseColorInput text st in
  let color := tinycolor (baseColorInput_value st) in
  if isValid color then
    let '(h, s, l) := toHsl color in
    updateColorFromPicker (setHsl h s l st)
  else st.

(** Lines 490-493: [angleDeg] is the value of
    [Math.atan2(y - centerY, x - centerX) * 180 / Math.PI].  The sum is
    exact here; [Double.setHueFromAngle] rounds it. *)
Definition setHueFromAngle (angleDeg : Q) (st : state) : state :=
  let angleDeg := if Js.lt angleDeg 0 then angleDeg + 360 else angleDeg in
  setHsl angleDeg (currentSaturation st) (currentLightness st) st.

Definition hueWheelCanvas_mousedown (angleDeg : Q) (st : state) : state :=
  let st := setDragging true (isDraggingSL st) st in
  updateColorFromPicker (setHueFromAngle angleDeg st).

Definition hueWheelCanvas_mousemove (angleDeg : Q) (st : state) : state :=
  if isDraggingHue st then updateColorFromPicker (setHueFromAngle angleDeg st)
  else st.

(** Lines 530-531: [x], [y] are the pointer offsets from the canvas
    corner. *)
Definition setSLFromPoint (x y : Q) (st : state) : state :=
  setHsl (currentHue st)
    (Js.max 0 (Js.min 1 (x / slPickerCanvas_width)))
    (1 - Js.max 0 (Js.min 1 (y / slPickerCanvas_height))) st.

Definition slPickerCanvas_mousedown (x y : Q) (st : state) : state :=
  let st := setDragging (isDraggingHue st) true st in
  updateColorFromPicker (setSLFromPoint x y st).

Definition slPickerCanvas_mousemove (x y : Q) (st : state) : state :=
  if isDraggingSL st then updateColorFromPicker (setSLFromPoint x y st)
  else st.

Definition document_mouseup (st : state) : state := setDragging false false st.

Definition randomPaletteBtn_click (rand : nat -> Q) (st : state) : state :=
  setDisplay (displayPalette (fst (generatePalette rand 0)) "Random Palette") st.

(** The events of the page and the listener each one runs; the clicks on
    the swatches, which assign no variable of the script, come with the
    document ([happening]). *)
Inductive event : Type :=
| RandomPaletteClick (rand : nat -> Q)
| GenerateHarmonyClick
| HarmonyRuleChange (rule : string)
| BaseColorInput (text : string)
| HueMouseDown (angleDeg : Q)
| HueMouseMove (angleDeg : Q)
| SLMouseDown (x y : Q)
| SLMouseMove (x y : Q)
| MouseUp.

Definition handle (ev : event) (st : state) : state :=
  match ev with
  | RandomPaletteClick rand => randomPaletteBtn_click rand st
  | GenerateHarmonyClick => updateColorFromPicker st
  | HarmonyRuleChange rule => updateColorFromPicker (setHarmonyRule rule st)
  | BaseColorInput text => baseColorInput_input text st
  | HueMouseDown a => hueWheelCanvas_mousedown a st
  | HueMouseMove a => hueWheelCanvas_mousemove a st
  | SLMouseDown x y => slPickerCanvas_mousedown x y st
  | SLMouseMove x y => slPickerCanvas_mousemove x y st
  | MouseUp => document_mouseup st
  end.

(** The state when the listeners are installed (lines 32-36), over the
    initial contents of the two form fields, and [initializeApp()]. *)
Definition initialState (baseColor rule : string) : state :=
  mkState 0 1 (1 # 2) false false baseColor rule None [].

Definition initializeApp (st : state) : state :=
  let initialColor := tinycolor (baseColorInput_value st) in
  let st :=
    if isValid initialColor then
      let '(h, s, l) := toHsl initialColor in setHsl h s l st
    else st in
  fst (handleGenerateHarmony st).

(** ** Vocabulary of the properties *)

Definition isHexDigit (c : ascii) : bool :=
  match hexVal c with
  | Some _ => true
  | None => false
  end.

(** A hex colour string as the specification describes the input of the
    base colour parser: an optional leading [#], then 3 or 6 hex digits. *)
Definition validHex (s : string) : bool :=
  let digits := list_ascii_of_string (stripHash s) in
  ((List.length digits =? 3) || (List.length digits =? 6))%nat && forallb isHexDigit digits.

(** The pattern [^#[0-9A-Fa-f]{6}$]. *)
Definition matchesHexColor (s : string) : bool :=
  match s with
  | String "#" digits =>
      (String.length digits =? 6)%nat && forallb isHexDigit (list_ascii_of_string digits)
  | _ => false
  end.

(** The seven named harmony rules; every other selector value takes the
    [default] branch. *)
Definition harmonyRules : list string :=
  ["analogous"; "monochromatic"; "splitcomplement"; "triad"; "tetrad";
   "complement"; "shades"].

(** The [complement] palette in the words of the specification:
    [[base, lighten(base,20%), complement(base),
      lighten(complement(base),20%), spin(desaturate(base,10%),30)]],
    each element as a hex string. *)
Definition specComplementPalette (base : color) : list string :=
  [toHexString base;
   toHexString (lighten 20 base);
   toHexString (complement base);
   toHexString (lighten 20 (complement base));
   toHexString (spin 30 (desaturate 10 base))].

(** The hue of a palette element, rounded to a whole degree. *)
Definition roundedHue (hex : string) : Z :=
  let '(h, _, _) := toHsl (tinycolor hex) in Js.round h.

(** The picker triple is in range. *)
Definition inRange (st : state) : Prop :=
  0 <= currentHue st /\ currentHue st < 360 /\
  0 <= currentSaturation st <= 1 /\
  0 <= currentLightness st <= 1.

(** Two states hold the same picker triple. *)
Definition samePicker (st st' : state) : Prop :=
  currentHue st' == currentHue st /\
  currentSaturation st' == currentSaturation st /\
  currentLightness st' == currentLightness st.

(** The outcomes of [Math.random()] lie in [0, 1). *)
Definition unitInterval (rand : nat -> Q) : Prop :=
  forall n, 0 <= rand n /\ rand n < 1.

(** The integers a colour channel can round to. *)
Definition bytes : list Z := map Z.of_nat (seq 0 256).

(** A colour built by the library's constructor. *)
Definition constructed (c : color) : Prop := exists o, c = construct o.

(** The object the hex matchers [hex6] and [hex3] return for three bytes. *)
Definition hexBytes (r g b : Z) : colorInput :=
  mkInput (ObjRgb (Num (inject_Z r)) (Num (inject_Z g)) (Num (inject_Z b)))
    None (Some FormatHex).

(** A colour read from a hex string of 3 or 6 digits. *)
Definition hexRead (c : color) : Prop :=
  exists r g b,
    (0 <= r <= 255)%Z /\ (0 <= g <= 255)%Z /\ (0 <= b <= 255)%Z /\
    c = construct (Some (hexBytes r g b)).

(** Every 8-bit code unit. *)
Definition allAscii : list ascii := map ascii_of_nat (seq 0 256).

(** Characters of a hex colour string: hex digits and [#]. *)
Definition plainChar (c : ascii) : bool := isHexDigit c || Ascii.eqb c "#".

Definition plain (s : string) : bool := forallb plainChar (list_ascii_of_string s).

(** [n] hex digits after an optional [#]. *)
Definition hexDigits (n : nat) (s : string) : bool :=
  let digits := list_ascii_of_string (stripHash s) in
  (List.length digits =? n)%nat && forallb isHexDigit digits.

(** The base colour strings that are well formed for the parser, in
    syntax: once trimmed and put in lower case, a colour name of the
    library's table, ["transparent"], a string that one of the functional
    notations captures, or 8, 6, 4 or 3 hex digits after an optional [#].
    The others are malformed. *)
Definition wellFormed (s : string) : bool :=
  let color := toLowerCase (trimRight (trimLeft s)) in
  match lookup color names with
  | Some _ => true
  | None =>
      String.eqb color "transparent"
      || match functionalNotation color with
         | Some _ => true
         | None => false
         end
      || hexDigits 8 color || hexDigits 6 color || hexDigits 4 color || hexDigits 3 color
  end.

Definition malformed (s : string) : bool := negb (wellFormed s).

(** [Math.atan2(..) * 180 / Math.PI] lies between -180 and 180. *)
Definition fromAtan2 (angleDeg : Q) : Prop := -(180) <= angleDeg <= 180.

(** The events the page can deliver. *)
Definition admissible (ev : event) : Prop :=
  match ev with
  | HueMouseDown a | HueMouseMove a => fromAtan2 a
  | RandomPaletteClick rand => unitInterval rand
  | _ => True
  end.

(** The states the script goes through, from the initial contents
    [baseColor] and [rule] of the two form fields. *)
Inductive reachable (baseColor rule : string) : state -> Prop :=
| reachable_init :
    reachable baseColor rule (initializeApp (initialState baseColor rule))
| reachable_step st ev :
    reachable baseColor rule st -> admissible ev ->
    reachable baseColor rule (handle ev st).

(** Each functional-notation pattern begins with its literal keyword, so a
    string holding none of the three is matched by none of the six. *)
Definition keywordGuarded (f : string -> option colorInput) : Prop :=
  forall s, contains "rgb" s = false -> contains "hsl" s = false ->
            contains "hsv" s = false -> f s = None.

Hypothesis functionalNotation_keyword : keywordGuarded functionalNotation.

(** ** Vocabulary of the further properties *)

(** The pattern [^#[0-9a-f]{6}$]: a normalized hex colour string. *)
Definition normalizedHex (s : string) : bool :=
  matchesHexColor s && String.eqb (toLowerCase s) s.

(** The normalized spelling of a hex colour string of 3 or 6 digits: [#],
    then its digits in lower case, each digit of a shorthand doubled. *)
Definition sixDigitForm (s : string) : string :=
  let digits := toLowerCase (stripHash s) in
  String "#"
    match list_ascii_of_string digits with
    | [r; g; b] => string_of_list_ascii [r; r; g; g; b; b]
    | _ => digits
    end.

(** The pattern [^#[0-9A-F]{6}$]: what [getRandomHexColor] writes. *)
Definition isUpperHexDigit (c : ascii) : bool :=
  existsb (Ascii.eqb c) (list_ascii_of_string hexChars).

Definition matchesUpperHexColor (s : string) : bool :=
  match s with
  | String "#" digits =>
      (String.length digits =? 6)%nat && forallb isUpperHexDigit (list_ascii_of_string digits)
  | _ => false
  end.

(** A pointer move over one of the two canvases. *)
Definition isMove (ev : event) : bool :=
  match ev with
  | HueMouseMove _ | SLMouseMove _ _ => true
  | _ => false
  end.

(** The listeners of a sequence of events, run in order. *)
Definition run (evs : list event) (st : state) : state :=
  fold_left (fun st ev => handle ev st) evs st.

(** The hex string of the picker triple, as [handleGenerateHarmony] and
    [drawHueWheel] compute it. *)
Definition pickerHex (st : state) : string :=
  toHexString (fromHsl (currentHue st) (currentSaturation st) (currentLightness st) None).

(** [hexChars[Math.floor(q * 16)]] for an outcome [q] of [Math.random()]. *)
Definition hexDigitAt (q : Q) : ascii :=
  nth (Z.to_nat (Js.floor (q * 16))) (list_ascii_of_string hexChars) "0"%char.

(** The colour written from the six outcomes at [pos], ..., [pos + 5]. *)
Definition drawnColor (rand : nat -> Q) (pos : nat) : string :=
  String "#" (string_of_list_ascii (map (fun k => hexDigitAt (rand k)) (seq pos 6))).

(** The palette section shows between one and five swatches, each labelled
    with a normalized hex string. *)
Definition showsPalette (st : state) : Prop :=
  exists title hexes,
    paletteDisplay st = Some (Swatches title hexes) /\
    (1 <= List.length hexes <= 5)%nat /\
    Forall (fun c => normalizedHex c = true) hexes.

(** Whenever the base colour field holds something the parser accepts, it
    holds the hex string of the picker triple. *)
Definition fieldFollowsPicker (st : state) : Prop :=
  isValid (tinycolor (baseColorInput_value st)) = true ->
  baseColorInput_value st = pickerHex st.

(** An outcome of [Math.random()] on which [getRandomHexColor] writes the
    digit [c]. *)
Definition outcomeOf (c : ascii) : Q :=
  match hexVal c with
  | Some v => inject_Z v / 16
  | None => 0
  end.

(** ** The two canvases *)

Context {browser : Browser}.

(** A fill or stroke style: a CSS colour string, or the gradient object of
    [createLinearGradient(x0, y0, x1, y1)] with the stops added to it. *)
Inductive style : Type :=
| Css (value : string)
| LinearGradient (x0 y0 x1 y1 : Q) (colorStops : list (Q * string)).

(** The calls a 2D context receives, assignments to its properties
    included. *)
Inductive call : Type :=
| clearRect (x y w h : Q)
| fillRect (x y w h : Q)
| beginPath
| arc (x y radius startAngle endAngle : Q)
| set_lineWidth (value : Q)
| set_strokeStyle (value : style)
| set_fillStyle (value : style)
| stroke
| fill.

Definition HUE_WHEEL_RADIUS : Q := hueWheelCanvas_width / 2.
Definition HUE_MARKER_RADIUS : Q := 8.
Definition SL_MARKER_RADIUS : Q := 6.
Definition HARMONY_INDICATOR_RADIUS : Q := 4.

(** The template literal [hsl(${hue}, 100%, 50%)]. *)
Definition hslFull (hue : Q) : string :=
  "hsl(" ++ numberToString hue ++ ", 100%, 50%)".

(** The body of the [for] loop of [drawHueWheel] at [angle]. *)
Definition hueSegment (centerX centerY radius bandThickness : Q) (angle : nat) : list call :=
  let angle := inject_Z (Z.of_nat angle) in
  let startAngle := (angle - 1) * Math_PI / 180 in
  let endAngle := angle * Math_PI / 180 in
  [beginPath;
   arc centerX centerY radius startAngle endAngle;
   set_lineWidth bandThickness;
   set_strokeStyle (Css (hslFull angle));
   stroke].

(** The callback of [harmonyPaletteColors.forEach] in [drawHueWheel]. *)
Definition harmonyIndicator (centerX centerY radius : Q) (baseColorHex hexColor : string)
  : list call :=
  if String.eqb (toLowerCase hexColor) (toLowerCase baseColorHex) then []
  else
    let color := tinycolor hexColor in
    if isValid color then
      let '(h, _, l) := toHsl color in
      let harmonyAngleRad := h * Math_PI / 180 in
      let hX := centerX + Math_cos harmonyAngleRad * radius in
      let hY := centerY + Math_sin harmonyAngleRad * radius in
      [beginPath;
       arc hX hY HARMONY_INDICATOR_RADIUS 0 (2 * Math_PI);
       set_fillStyle (Css (if Js.lt (1 # 2) l then "#333" else "#fff"));
       fill;
       set_strokeStyle (Css (if Js.lt (1 # 2) l then "#fff" else "#333"));
       set_lineWidth 1;
       stroke]
    else [].

(** [drawHueWheel(harmonyPaletteColors)]: the calls it makes on the context
    of the hue wheel; [inl _] stands for [null]. *)
Definition drawHueWheel (harmonyPaletteColors : error + list string) (st : state)
  : list call :=
  let centerX := hueWheelCanvas_width / 2 in
  let centerY := hueWheelCanvas_height / 2 in
  let radius := HUE_WHEEL_RADIUS * (85 # 100) in
  let bandThickness := HUE_WHEEL_RADIUS * (15 # 100) * 2 in
  let markerAngle := currentHue st * Math_PI / 180 in
  let markerX := centerX + Math_cos markerAngle * radius in
  let markerY := centerY + Math_sin markerAngle * radius in
  ([clearRect 0 0 hueWheelCanvas_width hueWheelCanvas_height]
   ++ flat_map (hueSegment centerX centerY radius bandThickness) (seq 0 360)
   ++ [beginPath;
       arc markerX markerY HUE_MARKER_RADIUS 0 (2 * Math_PI);
       set_fillStyle (Css "white");
       fill;
       set_strokeStyle (Css "#333");
       set_lineWidth 2;
       stroke]
   ++ match harmonyPaletteColors with
      | inr ((_ :: _) as colors) =>
          let baseColorHex :=
            toHexString
              (fromHsl (currentHue st) (currentSaturation st) (currentLightness st) None) in
          flat_map (harmonyIndicator centerX centerY radius baseColorHex) colors
      | _ => []
      end)%list.

(** [drawSLPicker()]: the calls it makes on the context of the
    saturation/lightness pad. *)
Definition drawSLPicker (st : state) : list call :=
  let width := slPickerCanvas_width in
  let height := slPickerCanvas_height in
  let satGradient :=
    LinearGradient 0 0 width 0
      [(0, "rgba(255, 255, 255, 1)"); (1, "rgba(255, 255, 255, 0)")] in
  let lightGradient :=
    LinearGradient 0 0 0 height
      [(0, "rgba(0, 0, 0, 0)"); (1, "rgba(0, 0, 0, 1)")] in
  let markerX := currentSaturation st * width in
  let markerY := (1 - currentLightness st) * height in
  let markerFillColor := if Js.lt (1 # 2) (currentLightness st) then "black" else "white" in
  [clearRect 0 0 width height;
   set_fillStyle (Css (hslFull (currentHue st)));
   fillRect 0 0 width height;
   set_fillStyle satGradient;
   fillRect 0 0 width height;
   set_fillStyle lightGradient;
   fillRect 0 0 width height;
   beginPath;
   arc markerX markerY SL_MARKER_RADIUS 0 (2 * Math_PI);
   set_fillStyle (Css markerFillColor);
   fill;
   set_strokeStyle (Css (if Js.lt (1 # 2) (currentLightness st) then "white" else "black"));
   set_lineWidth (3 # 2);
   stroke].

(** The script's variables together with the calls each context has
    received so far. *)
Record screen : Type := mkScreen {
  vars : state;
  hueWheelCtx : list call;
  slPickerCtx : list call
}.

Definition setVars (st : state) (scr : screen) : screen :=
  mkScreen st (hueWheelCtx scr) (slPickerCtx scr).

(** [updateColorFromPicker()] with its two redraws, run on the variables
    [st]. *)
Definition updateColorFromPicker_canvas (st : state) (scr : screen) : screen :=
  let '(st, currentPalette) := handleGenerateHarmony st in
  mkScreen st
    (hueWheelCtx scr ++ drawHueWheel currentPalette st)
    (slPickerCtx scr ++ drawSLPicker st).

(** The listeners, drawing included. *)
Definition listener (ev : event) (scr : screen) : screen :=
  let st := vars scr in
  match ev with
  | RandomPaletteClick rand => setVars (randomPaletteBtn_click rand st) scr
  | GenerateHarmonyClick => updateColorFromPicker_canvas st scr
  | HarmonyRuleChange rule => updateColorFromPicker_canvas (setHarmonyRule rule st) scr
  | BaseColorInput text =>
      let st := setBaseColorInput text st in
      let color := tinycolor (baseColorInput_value st) in
      if isValid color then
        let '(h, s, l) := toHsl color in
        updateColorFromPicker_canvas (setHsl h s l st) scr
      else setVars st scr
  | HueMouseDown angleDeg =>
      let st := setDragging true (isDraggingSL st) st in
      updateColorFromPicker_canvas (setHueFromAngle angleDeg st) scr
  | HueMouseMove angleDeg =>
      if isDraggingHue st
      then updateColorFromPicker_canvas (setHueFromAngle angleDeg st) scr
      else scr
  | SLMouseDown x y =>
      let st := setDragging (isDraggingHue st) true st in
      updateColorFromPicker_canvas (setSLFromPoint x y st) scr
  | SLMouseMove x y =>
      if isDraggingSL st
      then updateColorFromPicker_canvas (setSLFromPoint x y st) scr
      else scr
  | MouseUp => setVars (document_mouseup st) scr
  end.

(** [initializeApp()] on blank canvases. *)
Definition initializeApp_canvas (st : state) : screen :=
  let initialColor := tinycolor (baseColorInput_value st) in
  let st :=
    if isValid initialColor then
      let '(h, s, l) := toHsl initialColor in setHsl h s l st
    else st in
  updateColorFromPicker_canvas st (mkScreen st [] []).

(** The screens the page goes through. *)
Inductive displayed (baseColor rule : string) : screen -> Prop :=
| displayed_init :
    displayed baseColor rule (initializeApp_canvas (initialState baseColor rule))
| displayed_step scr ev :
    displayed baseColor rule scr -> admissible ev ->
    displayed baseColor rule (listener ev scr).

(** The centre and radius of each circle a sequence of calls draws. *)
Definition circles (calls : list call) : list (Q * Q * Q) :=
  flat_map (fun c =>
              match c with
              | arc x y radius _ _ => [(x, y, radius)]
              | _ => []
              end) calls.

(** The last picture on each canvas is the one of the current variables:
    the hue wheel with the indicators of the palette of the current triple
    and rule, and the pad with its marker. *)
Definition upToDate (scr : screen) : Prop :=
  let st := vars scr in
  (exists earlier,
      hueWheelCtx scr =
        (earlier ++
         drawHueWheel (generateHarmonyPalette (pickerHex st) (harmonyRuleSelect_value st))
           st)%list) /\
  (exists earlier, slPickerCtx scr = (earlier ++ drawSLPicker st)%list).


(** ** The swatches of the palette section *)

(** A swatch as [displayPalette] builds it and [copyColor] changes it: the
    background colour of its [div], which is also the colour its tooltips
    name and [copyColor] writes to the clipboard; the text of its label;
    and the border colour of its inline style, unset at first. *)
Record swatch : Type := mkSwatch {
  backgroundColor : string;
  hexCode_textContent : string;
  borderColor : option string
}.

(** The swatch of a colour, newly built. *)
Definition newSwatch (hex : string) : swatch := mkSwatch hex hex None.

(** What a closure of [copyColor] holds on to: the swatch built as number
    [snd] of the palette container number [fst]. *)
Definition element : Type := (nat * nat)%type.

(** The tasks of [copyColor] that wait for their turn: the function itself,
    suspended at [await navigator.clipboard.writeText(hex)], and the
    callback it hands to [setTimeout], with the text it restores. *)
Inductive task : Type :=
| ClipboardWrite (el : element)
| Timeout (el : element) (originalText : string).

(** The page: the variables of the script, every palette container built
    so far, of which the last one is in the palette section, the waiting
    tasks and the content of the clipboard. *)
Record document : Type := mkDocument {
  variables : state;
  containers : list (list swatch);
  pending : list task;
  clipboard : option string
}.

Definition setVariables (st : state) (doc : document) : document :=
  mkDocument st (containers doc) (pending doc) (clipboard doc).

(** The element at index [n] of an array changed by [f]. *)
Fixpoint changeAt {A} (n : nat) (f : A -> A) (l : list A) : list A :=
  match l, n with
  | [], _ => []
  | x :: r, O => f x :: r
  | x :: r, S n' => x :: changeAt n' f r
  end.

Definition swatchAt (el : element) (doc : document) : option swatch :=
  match nth_error (containers doc) (fst el) with
  | Some container => nth_error container (snd el)
  | None => None
  end.

Definition changeSwatch (el : element) (f : swatch -> swatch) (doc : document) : document :=
  mkDocument (variables doc) (changeAt (fst el) (changeAt (snd el) f) (containers doc))
    (pending doc) (clipboard doc).

Definition removeTask (k : nat) (doc : document) : document :=
  mkDocument (variables doc) (containers doc)
    (firstn k (pending doc) ++ skipn (S k) (pending doc)) (clipboard doc).

Definition addTask (t : task) (doc : document) : document :=
  mkDocument (variables doc) (containers doc) (pending doc ++ [t]) (clipboard doc).

(** [displayPalette(colors, title)] on the document: the palette section
    is emptied and a container is built with one swatch per valid colour
    (none for the empty list, where the message is shown instead). *)
Definition displayPalette_swatches (colors : list string) (doc : document) : document :=
  mkDocument (variables doc)
    (containers doc ++ [map newSwatch (map toHexString (filter isValid (map tinycolor colors)))])
    (pending doc) (clipboard doc).

(** [updateColorFromPicker()] on the document, run on the variables
    [st]. *)
Definition updateColorFromPicker_swatches (st : state) (doc : document) : document :=
  let '(st, harmonyPalette) := handleGenerateHarmony st in
  match harmonyPalette with
  | inr palette => displayPalette_swatches palette (setVariables st doc)
  | inl _ => setVariables st doc
  end.

(** The listeners of the script, the swatches they build included. *)
Definition listen (ev : event) (doc : document) : document :=
  let st := variables doc in
  match ev with
  | RandomPaletteClick rand =>
      displayPalette_swatches (fst (generatePalette rand 0))
        (setVariables (randomPaletteBtn_click rand st) doc)
  | GenerateHarmonyClick => updateColorFromPicker_swatches st doc
  | HarmonyRuleChange rule => updateColorFromPicker_swatches (setHarmonyRule rule st) doc
  | BaseColorInput text =>
      let st := setBaseColorInput text st in
      let color := tinycolor (baseColorInput_value st) in
      if isValid color then
        let '(h, s, l) := toHsl color in
        updateColorFromPicker_swatches (setHsl h s l st) doc
      else setVariables st doc
  | HueMouseDown angleDeg =>
      let st := setDragging true (isDraggingSL st) st in
      updateColorFromPicker_swatches (setHueFromAngle angleDeg st) doc
  | HueMouseMove angleDeg =>
      if isDraggingHue st
      then updateColorFromPicker_swatches (setHueFromAngle angleDeg st) doc
      else doc
  | SLMouseDown x y =>
      let st := setDragging (isDraggingHue st) true st in
      updateColorFromPicker_swatches (setSLFromPoint x y st) doc
  | SLMouseMove x y =>
      if isDraggingSL st
      then updateColorFromPicker_swatches (setSLFromPoint x y st) doc
      else doc
  | MouseUp => setVariables (document_mouseup st) doc
  end.

(** What happens on the page: a listener of the script runs; the swatch at
    [index] of the palette section, or its label, is clicked, and
    [copyColor] starts; the clipboard write of the waiting task number [k]
    succeeds, or it fails; the timer of the waiting task number [k]
    fires.  When the write fails, the [catch] block builds its alert from a
    variable [color] that the script declares nowhere: [shown] is the
    message, when the page defines such a global and an alert appears. *)
Inductive happening : Type :=
| Listener (ev : event)
| SwatchClick (index : nat)
| ClipboardWritten (k : nat)
| ClipboardFailed (k : nat) (shown : option string)
| TimerFired (k : nat).

(** The rest of [copyColor] after a successful write. *)
Definition copied (el : element) (doc : document) : document :=
  match swatchAt el doc with
  | Some sw =>
      let originalText := hexCode_textContent sw in
      let doc :=
        changeSwatch el (fun sw => mkSwatch (backgroundColor sw) "Copied!" (Some "#5cb85c"))
          doc in
      let doc := addTask (Timeout el originalText) doc in
      mkDocument (variables doc) (containers doc) (pending doc) (Some (backgroundColor sw))
  | None => doc
  end.

(** The callback of [setTimeout]. *)
Definition restored (el : element) (originalText : string) (doc : document) : document :=
  changeSwatch el (fun sw => mkSwatch (backgroundColor sw) originalText (Some "#ccc")) doc.

Definition happen (h : happening) (doc : document) : document :=
  match h with
  | Listener ev => listen ev doc
  | SwatchClick index =>
      let current := (List.length (containers doc) - 1)%nat in
      match swatchAt (current, index) doc with
      | Some _ => addTask (ClipboardWrite (current, index)) doc
      | None => doc
      end
  | ClipboardWritten k =>
      match nth_error (pending doc) k with
      | Some (ClipboardWrite el) => copied el (removeTask k doc)
      | _ => doc
      end
  | ClipboardFailed k shown =>
      match nth_error (pending doc) k with
      | Some (ClipboardWrite el) =>
          let doc := removeTask k doc in
          match shown with
          | Some msg => setVariables (alert msg (variables doc)) doc
          | None => doc
          end
      | _ => doc
      end
  | TimerFired k =>
      match nth_error (pending doc) k with
      | Some (Timeout el originalText) => restored el originalText (removeTask k doc)
      | _ => doc
      end
  end.

Definition possible (h : happening) : Prop :=
  match h with
  | Listener ev => admissible ev
  | _ => True
  end.

(** [initializeApp()] on the document as it is loaded. *)
Definition initializeApp_swatches (st : state) : document :=
  let initialColor := tinycolor (baseColorInput_value st) in
  let st :=
    if isValid initialColor then
      let '(h, s, l) := toHsl initialColor in setHsl h s l st
    else st in
  updateColorFromPicker_swatches st (mkDocument st [] [] None).

(** The documents the page goes through. *)
Inductive loaded (baseColor rule : string) : document -> Prop :=
| loaded_init :
    loaded baseColor rule (initializeApp_swatches (initialState baseColor rule))
| loaded_step doc h :
    loaded baseColor rule doc -> possible h ->
    loaded baseColor rule (happen h doc).

(** A swatch shows a normalized hex colour, and its label reads that
    colour or ["Copied!"]. *)
Definition legible (sw : swatch) : Prop :=
  normalizedHex (backgroundColor sw) = true /\
  (hexCode_textContent sw = backgroundColor sw \/ hexCode_textContent sw = "Copied!").

(** The text a waiting timer restores is the colour of its swatch or
    ["Copied!"]. *)
Definition restores (doc : document) (t : task) : Prop :=
  match t with
  | ClipboardWrite _ => True
  | Timeout el originalText =>
      originalText = "Copied!" \/
      option_map backgroundColor (swatchAt el doc) = Some originalText
  end.

(** The document is in order: the script shows a palette, the last
    container holds one swatch per colour of that palette, every swatch is
    legible, and every waiting timer restores a legible text. *)
Definition inOrder (doc : document) : Prop :=
  showsPalette (variables doc) /\
  (exists title hexes earlier,
      paletteDisplay (variables doc) = Some (Swatches title hexes) /\
      map (map backgroundColor) (containers doc) = (earlier ++ [hexes])%list) /\
  Forall (Forall legible) (containers doc) /\
  Forall (restores doc) (pending doc).
(** ** Characters and strings *)

Lemma forall_ascii (P : ascii -> bool) :
  forallb P allAscii = true -> forall c, P c = true.
Proof.
  intros H c.
  rewrite forallb_forall in H. apply H.
  unfold allAscii. rewrite <- (ascii_nat_embedding c).
  apply in_map. apply in_seq. pose proof (nat_ascii_bounded c). lia.
Qed.

Lemma plainChar_not_whitespace c : plainChar c = true -> isWhitespace c = false.
Proof.
  revert c.
  assert (H : forall c, (negb (plainChar c) || negb (isWhitespace c)) = true)
    by (apply forall_ascii; vm_compute; reflexivity).
  intros c Hc. specialize (H c). rewrite Hc in H. simpl in H.
  now apply negb_true_iff in H.
Qed.

Lemma hexVal_lowerChar c : hexVal (lowerChar c) = hexVal c.
Proof.
  assert (H : forall c,
             match hexVal (lowerChar c), hexVal c with
             | Some x, Some y => Z.eqb x y
             | None, None => true
             | _, _ => false
             end = true)
    by (apply forall_ascii; vm_compute; reflexivity).
  specialize (H c).
  destruct (hexVal (lowerChar c)), (hexVal c); try discriminate; auto.
  apply Z.eqb_eq in H. now subst.
Qed.

Lemma lowerChar_hash c : Ascii.eqb (lowerChar c) "#" = Ascii.eqb c "#".
Proof.
  assert (H : forall c, Bool.eqb (Ascii.eqb (lowerChar c) "#") (Ascii.eqb c "#") = true)
    by (apply forall_ascii; vm_compute; reflexivity).
  now apply Bool.eqb_prop.
Qed.

Lemma plainChar_lowerChar c : plainChar (lowerChar c) = plainChar c.
Proof.
  unfold plainChar, isHexDigit. now rewrite hexVal_lowerChar, lowerChar_hash.
Qed.

Lemma plain_cons c r : plain (String c r) = plainChar c && plain r.
Proof. reflexivity. Qed.

Lemma trimLeft_plain s : plain s = true -> trimLeft s = s.
Proof.
  destruct s as [|c r]; [reflexivity|].
  rewrite plain_cons. intros H. apply andb_prop in H as [Hc _].
  simpl. now rewrite (plainChar_not_whitespace _ Hc).
Qed.

Lemma trimRight_plain s : plain s = true -> trimRight s = s.
Proof.
  induction s as [|c r IH]; [reflexivity|].
  rewrite plain_cons. intros H. apply andb_prop in H as [Hc Hr].
  simpl. rewrite (IH Hr), (plainChar_not_whitespace _ Hc).
  now destruct r.
Qed.

Lemma chars_toLowerCase s :
  list_ascii_of_string (toLowerCase s) = map lowerChar (list_ascii_of_string s).
Proof. induction s as [|c r IH]; simpl; [reflexivity|now rewrite IH]. Qed.

Lemma plain_toLowerCase s : plain (toLowerCase s) = plain s.
Proof.
  induction s as [|c r IH]; [reflexivity|].
  simpl toLowerCase. now rewrite !plain_cons, plainChar_lowerChar, IH.
Qed.

Lemma stripHash_other c r : Ascii.eqb c "#" = false -> stripHash (String c r) = String c r.
Proof.
  destruct c as [[] [] [] [] [] [] [] []]; simpl; intros H;
    try reflexivity; discriminate.
Qed.

Lemma stripHash_toLowerCase s : stripHash (toLowerCase s) = toLowerCase (stripHash s).
Proof.
  destruct s as [|c r]; [reflexivity|].
  destruct (Ascii.eqb c "#") eqn:E.
  - apply Ascii.eqb_eq in E. subst c. reflexivity.
  - rewrite (stripHash_other c r E).
    change (toLowerCase (String c r)) with (String (lowerChar c) (toLowerCase r)).
    apply stripHash_other. now rewrite lowerChar_hash.
Qed.

Lemma parseIntFromHex_lowerChar a b :
  parseIntFromHex (lowerChar a) (lowerChar b) = parseIntFromHex a b.
Proof. unfold parseIntFromHex. now rewrite !hexVal_lowerChar. Qed.


Lemma hex8_toLowerCase named s : hex8 named (toLowerCase s) = hex8 named s.
Proof.
  unfold hex8.
  rewrite stripHash_toLowerCase, chars_toLowerCase.
  destruct (list_ascii_of_string (stripHash s)) as [|a [|b [|c [|d [|e [|f [|g [|h [|i l]]]]]]]]];
    simpl; try reflexivity.
  now rewrite !parseIntFromHex_lowerChar.
Qed.

Lemma hex6_toLowerCase named s : hex6 named (toLowerCase s) = hex6 named s.
Proof.
  unfold hex6.
  rewrite stripHash_toLowerCase, chars_toLowerCase.
  destruct (list_ascii_of_string (stripHash s)) as [|a [|b [|c [|d [|e [|f [|g l]]]]]]];
    simpl; try reflexivity.
  now rewrite !parseIntFromHex_lowerChar.
Qed.

Lemma hex4_toLowerCase named s : hex4 named (toLowerCase s) = hex4 named s.
Proof.
  unfold hex4.
  rewrite stripHash_toLowerCase, chars_toLowerCase.
  destruct (list_ascii_of_string (stripHash s)) as [|a [|b [|c [|d [|e l]]]]];
    simpl; try reflexivity.
  now rewrite !parseIntFromHex_lowerChar.
Qed.

Lemma hex3_toLowerCase named s : hex3 named (toLowerCase s) = hex3 named s.
Proof.
  unfold hex3.
  rewrite stripHash_toLowerCase, chars_toLowerCase.
  destruct (list_ascii_of_string (stripHash s)) as [|a [|b [|c [|d l]]]];
    simpl; try reflexivity.
  now rewrite !parseIntFromHex_lowerChar.
Qed.

(** No colour name is made of hex digits and [#] only. *)
Lemma names_not_plain :
  forallb (fun kv => negb (plain (fst kv))) names = true.
Proof. vm_compute. reflexivity. Qed.

Lemma lookup_miss key table :
  forallb (fun kv => negb (plain (fst kv))) table = true ->
  plain key = true -> lookup key table = None.
Proof.
  induction table as [|[k v] rest IH]; [reflexivity|].
  simpl. intros H Hkey. apply andb_prop in H as [Hk Hrest].
  destruct (String.eqb key k) eqn:E.
  - apply String.eqb_eq in E. subst k. rewrite Hkey in Hk. discriminate.
  - now apply IH.
Qed.

Lemma lookup_plain s : plain s = true -> lookup s names = None.
Proof. apply lookup_miss, names_not_plain. Qed.

Lemma transparent_plain s : plain s = true -> String.eqb s "transparent" = false.
Proof.
  intros H. destruct (String.eqb s "transparent") eqn:E; [|reflexivity].
  apply String.eqb_eq in E. subst s. discriminate.
Qed.

Lemma contains_first a needle s :
  contains (String a needle) s = true -> In a (list_ascii_of_string s).
Proof.
  induction s as [|c r IH]; simpl.
  - discriminate.
  - intros H. apply orb_prop in H as [H|H].
    + destruct (ascii_dec a c) as [->|]; [now left|discriminate].
    + right. now apply IH.
Qed.

Lemma contains_plain a needle s :
  plainChar a = false -> plain s = true -> contains (String a needle) s = false.
Proof.
  intros Ha Hs. destruct (contains (String a needle) s) eqn:E; [|reflexivity].
  apply contains_first in E.
  unfold plain in Hs. rewrite forallb_forall in Hs.
  rewrite (Hs _ E) in Ha. discriminate.
Qed.

Lemma functionalNotation_plain s : plain s = true -> functionalNotation s = None.
Proof.
  intros H. apply functionalNotation_keyword; now apply contains_plain.
Qed.

(** On a string of hex digits and [#] only the hex matchers decide. *)
Lemma stringInputToObject_plain s :
  plain s = true ->
  stringInputToObject s =
    orElse (hex8 false s) (orElse (hex6 false s) (orElse (hex4 false s) (hex3 false s))).
Proof.
  intros H. unfold stringInputToObject.
  rewrite (trimLeft_plain s H), (trimRight_plain s H).
  assert (Hl : plain (toLowerCase s) = true) by now rewrite plain_toLowerCase.
  rewrite (lookup_plain _ Hl), (transparent_plain _ Hl).
  unfold matchers. rewrite (functionalNotation_plain _ Hl).
  now rewrite hex8_toLowerCase, hex6_toLowerCase, hex4_toLowerCase, hex3_toLowerCase.
Qed.

(** ** Comparisons and rounding *)

Lemma Js_lt_spec a b : BoolSpec (a < b) (b <= a) (Js.lt a b).
Proof.
  unfold Js.lt. destruct (Qle_bool b a) eqn:E; constructor.
  - now apply Qle_bool_iff.
  - apply Qnot_le_lt. intros H. apply Qle_bool_iff in H. congruence.
Qed.

Lemma Js_le_spec a b : BoolSpec (a <= b) (b < a) (Js.le a b).
Proof.
  unfold Js.le. destruct (Qle_bool a b) eqn:E; constructor.
  - now apply Qle_bool_iff.
  - apply Qnot_le_lt. intros H. apply Qle_bool_iff in H. congruence.
Qed.

Lemma Js_eq_spec a b : BoolSpec (a == b) (~ a == b) (Js.eq a b).
Proof.
  unfold Js.eq. destruct (Qeq_bool a b) eqn:E; constructor.
  - now apply Qeq_bool_iff.
  - intros H. apply Qeq_bool_iff in H. congruence.
Qed.

Ltac js_case :=
  match goal with
  | |- context [Js.lt ?a ?b] => destruct (Js_lt_spec a b)
  | |- context [Js.le ?a ?b] => destruct (Js_le_spec a b)
  | |- context [Js.eq ?a ?b] => destruct (Js_eq_spec a b)
  | _ : context [Js.lt ?a ?b] |- _ => destruct (Js_lt_spec a b)
  | _ : context [Js.le ?a ?b] |- _ => destruct (Js_le_spec a b)
  end.

Lemma Js_max_spec a b : (a <= b /\ Js.max a b = b) \/ (b < a /\ Js.max a b = a).
Proof. unfold Js.max. js_case; auto. Qed.

Lemma Js_min_spec a b : (a <= b /\ Js.min a b = a) \/ (b < a /\ Js.min a b = b).
Proof. unfold Js.min. js_case; auto. Qed.

Lemma clamp255_range x : 0 <= clamp255 x <= 255.
Proof.
  unfold clamp255.
  destruct (Js_max_spec x 0) as [[? ->]|[? ->]];
    [destruct (Js_min_spec 255 0) as [[? ->]|[? ->]]
    |destruct (Js_min_spec 255 x) as [[? ->]|[? ->]]]; lra.
Qed.

Lemma round_range x lo hi :
  inject_Z lo <= x -> x <= inject_Z hi -> (lo <= Js.round x <= hi)%Z.
Proof.
  intros Hlo Hhi. unfold Js.round. split.
  - rewrite <- (Qfloor_Z lo). apply Qfloor_resp_le. lra.
  - assert (H : (Qfloor (x + (1 # 2)) < hi + 1)%Z); [|lia].
    rewrite Zlt_Qlt. eapply Qle_lt_trans; [apply Qfloor_le|].
    rewrite inject_Z_plus. change (inject_Z 1) with 1. lra.
Qed.

Lemma roundSmall_range x : 0 <= x <= 255 -> 0 <= roundSmall x <= 255.
Proof.
  intros [H0 H1]. unfold roundSmall. js_case; [|lra].
  destruct (round_range x 0 1) as [Ha Hb]; [unfold inject_Z; lra..|].
  rewrite Zle_Qle in Ha, Hb. unfold inject_Z in Ha, Hb |- *. lra.
Qed.

Lemma channel_byte x : (0 <= Js.round (roundSmall (clamp255 x)) <= 255)%Z.
Proof.
  pose proof (roundSmall_range _ (clamp255_range x)).
  apply round_range; unfold inject_Z; lra.
Qed.

Lemma construct_bytes o :
  (0 <= Js.round (_r (construct o)) <= 255)%Z /\
  (0 <= Js.round (_g (construct o)) <= 255)%Z /\
  (0 <= Js.round (_b (construct o)) <= 255)%Z.
Proof. repeat split; apply channel_byte. Qed.

Lemma byte_forall (P : Z -> bool) :
  forallb P bytes = true -> forall n, (0 <= n <= 255)%Z -> P n = true.
Proof.
  intros H n Hn. rewrite forallb_forall in H. apply H.
  unfold bytes. rewrite <- (Z2Nat.id n) by lia.
  apply in_map, in_seq. lia.
Qed.

(** A byte prints as two lower-case hex digits that read back as the
    byte. *)
Lemma hexByte_shape n :
  (0 <= n <= 255)%Z ->
  exists a b,
    pad2 (toString16 n) = String a (String b EmptyString) /\
    parseIntFromHex a b = Some n /\
    isHexDigit a = true /\ isHexDigit b = true.
Proof.
  intros Hn.
  pose (P := fun n =>
            match pad2 (toString16 n) with
            | String a (String b EmptyString) =>
                match parseIntFromHex a b with
                | Some m => Z.eqb m n
                | None => false
                end && isHexDigit a && isHexDigit b
            | _ => false
            end).
  assert (H : P n = true)
    by (apply byte_forall; [vm_compute; reflexivity|exact Hn]).
  unfold P in H. clear P.
  destruct (pad2 (toString16 n)) as [|a [|b [|? ?]]]; try discriminate.
  exists a, b. apply andb_prop in H as [H Hb]. apply andb_prop in H as [H Ha].
  destruct (parseIntFromHex a b) as [m|]; [|discriminate].
  apply Z.eqb_eq in H. subst m. auto.
Qed.

(** A byte read from a hex string is stored and printed unchanged. *)
Lemma byte_channel n :
  (0 <= n <= 255)%Z ->
  Js.round (roundSmall (clamp255 (bound01 (Num (inject_Z n)) 255 * 255))) = n.
Proof.
  intros Hn. apply Z.eqb_eq.
  apply (byte_forall
           (fun n => Z.eqb (Js.round (roundSmall (clamp255 (bound01 (Num (inject_Z n)) 255 * 255)))) n));
    [vm_compute; reflexivity|exact Hn].
Qed.

(** ** Hex strings in and out *)

Lemma isHexDigit_plainChar c : isHexDigit c = true -> plainChar c = true.
Proof. unfold plainChar. now intros ->. Qed.

(** The hex string of a constructed colour, character by character. *)
Lemma toHexString_shape o :
  exists r1 r2 g1 g2 b1 b2,
    toHexString (construct o) =
      String "#" (String r1 (String r2 (String g1 (String g2 (String b1 (String b2 EmptyString)))))) /\
    parseIntFromHex r1 r2 = Some (Js.round (_r (construct o))) /\
    parseIntFromHex g1 g2 = Some (Js.round (_g (construct o))) /\
    parseIntFromHex b1 b2 = Some (Js.round (_b (construct o))) /\
    forallb isHexDigit [r1; r2; g1; g2; b1; b2] = true.
Proof.
  destruct (construct_bytes o) as (Hr & Hg & Hb).
  destruct (hexByte_shape _ Hr) as (r1 & r2 & Er & Pr & Hr1 & Hr2).
  destruct (hexByte_shape _ Hg) as (g1 & g2 & Eg & Pg & Hg1 & Hg2).
  destruct (hexByte_shape _ Hb) as (b1 & b2 & Eb & Pb & Hb1 & Hb2).
  exists r1, r2, g1, g2, b1, b2.
  unfold toHexString, rgbToHex. rewrite Er, Eg, Eb.
  repeat split; auto.
  simpl. now rewrite Hr1, Hr2, Hg1, Hg2, Hb1, Hb2.
Qed.

(** Reading back the hex string of a constructed colour. *)
Lemma stringInputToObject_toHexString o :
  stringInputToObject (toHexString (construct o)) =
    Some (hexBytes (Js.round (_r (construct o))) (Js.round (_g (construct o)))
            (Js.round (_b (construct o)))).
Proof.
  destruct (toHexString_shape o) as (r1 & r2 & g1 & g2 & b1 & b2 & E & Pr & Pg & Pb & H).
  rewrite E. rewrite stringInputToObject_plain.
  - unfold hex8, hex6. simpl. now rewrite Pr, Pg, Pb.
  - simpl in H. unfold plain. simpl.
    repeat (apply andb_prop in H as [?Hd H]).
    now rewrite !isHexDigit_plainChar.
Qed.

Lemma isValid_toHexString o : isValid (tinycolor (toHexString (construct o))) = true.
Proof. unfold tinycolor. now rewrite stringInputToObject_toHexString. Qed.

Lemma construct_rgb_r r g b a f :
  _r (construct (Some (mkInput (ObjRgb r g b) a f))) =
    roundSmall (clamp255 (bound01 r 255 * 255)).
Proof. reflexivity. Qed.

Lemma construct_rgb_g r g b a f :
  _g (construct (Some (mkInput (ObjRgb r g b) a f))) =
    roundSmall (clamp255 (bound01 g 255 * 255)).
Proof. reflexivity. Qed.

Lemma construct_rgb_b r g b a f :
  _b (construct (Some (mkInput (ObjRgb r g b) a f))) =
    roundSmall (clamp255 (bound01 b 255 * 255)).
Proof. reflexivity. Qed.

(** The closing [map] of [generateHarmonyPalette] leaves the hex string of
    a constructed colour as it is. *)
Lemma normalize_construct o :
  toHexString (tinycolor (toHexString (construct o))) = toHexString (construct o).
Proof.
  destruct (construct_bytes o) as (Hr & Hg & Hb).
  unfold tinycolor. rewrite stringInputToObject_toHexString.
  unfold toHexString, rgbToHex, hexBytes.
  rewrite construct_rgb_r, construct_rgb_g, construct_rgb_b.
  rewrite !byte_channel by assumption.
  reflexivity.
Qed.

Lemma normalize_constructed c :
  constructed c -> toHexString (tinycolor (toHexString c)) = toHexString c.
Proof. intros [o ->]. apply normalize_construct. Qed.

Lemma normalize_map (l : list color) :
  Forall constructed l ->
  map (fun color => toHexString (tinycolor color)) (map toHexString l) = map toHexString l.
Proof.
  induction 1 as [|c l Hc _ IH]; simpl; [reflexivity|].
  now rewrite IH, normalize_constructed.
Qed.

Lemma stripHash_cases s : s = String "#" (stripHash s) \/ stripHash s = s.
Proof.
  destruct s as [|c r]; [now right|].
  destruct (Ascii.eqb c "#") eqn:E.
  - apply Ascii.eqb_eq in E. subst c. now left.
  - right. now apply stripHash_other.
Qed.

Lemma validHex_plain h : validHex h = true -> plain h = true.
Proof.
  unfold validHex. intros H. apply andb_prop in H as [_ H].
  assert (Hd : plain (stripHash h) = true).
  { unfold plain. rewrite forallb_forall in *. intros c Hc.
    now apply isHexDigit_plainChar, H. }
  destruct (stripHash_cases h) as [E|E].
  - rewrite E, plain_cons, Hd. reflexivity.
  - now rewrite <- E.
Qed.

(** Every hex colour string of the specification is read as a colour. *)
Lemma validHex_isValid h : validHex h = true -> isValid (tinycolor h) = true.
Proof.
  intros H. unfold tinycolor.
  rewrite (stringInputToObject_plain h (validHex_plain h H)).
  unfold validHex in H. unfold hex8, hex6, hex4, hex3, isHexDigit in *.
  destruct (list_ascii_of_string (stripHash h)) as [|a [|b [|c [|d [|e [|f [|g l]]]]]]];
    simpl in H; try discriminate; unfold parseIntFromHex.
  - destruct (hexVal a), (hexVal b), (hexVal c); try discriminate. reflexivity.
  - destruct (hexVal a), (hexVal b), (hexVal c), (hexVal d), (hexVal e), (hexVal f);
      try discriminate. reflexivity.
Qed.

Lemma tinycolor_constructed s : constructed (tinycolor s).
Proof. now eexists. Qed.

(** ** Colours read from hex strings, and their clones *)

Lemma hexVal_range c v : hexVal c = Some v -> (0 <= v <= 15)%Z.
Proof.
  assert (H : forall c,
             match hexVal c with
             | Some v => (0 <=? v)%Z && (v <=? 15)%Z
             | None => true
             end = true)
    by (apply forall_ascii; vm_compute; reflexivity).
  intros E. specialize (H c). rewrite E in H.
  apply andb_prop in H as [H0 H1]. apply Z.leb_le in H0, H1. lia.
Qed.

Lemma parseIntFromHex_byte a b n : parseIntFromHex a b = Some n -> (0 <= n <= 255)%Z.
Proof.
  unfold parseIntFromHex.
  destruct (hexVal a) as [x|] eqn:Ea; [|discriminate].
  destruct (hexVal b) as [y|] eqn:Eb; [|discriminate].
  intros E. assert (En : n = (16 * x + y)%Z) by congruence.
  pose proof (hexVal_range _ _ Ea). pose proof (hexVal_range _ _ Eb). lia.
Qed.

Lemma hexObject_hexRead r g b :
  hexObject r g b FormatHex <> None -> 
  (forall n, r = Some n -> (0 <= n <= 255)%Z) ->
  (forall n, g = Some n -> (0 <= n <= 255)%Z) ->
  (forall n, b = Some n -> (0 <= n <= 255)%Z) ->
  hexRead (construct (hexObject r g b FormatHex)).
Proof.
  destruct r as [r|], g as [g|], b as [b|]; simpl; try congruence.
  intros _ Hr Hg Hb. exists r, g, b.
  pose proof (Hr r eq_refl). pose proof (Hg g eq_refl). pose proof (Hb b eq_refl).
  repeat split; try lia.
Qed.

Lemma orElse_none {A} (x : option A) : orElse x None = x.
Proof. now destruct x. Qed.

(** Every hex colour string of the specification is read as its bytes. *)
Lemma validHex_hexRead h : validHex h = true -> hexRead (tinycolor h).
Proof.
  intros H. unfold tinycolor.
  rewrite (stringInputToObject_plain h (validHex_plain h H)).
  unfold validHex in H. unfold hex8, hex6, hex4, hex3, isHexDigit in *.
  destruct (list_ascii_of_string (stripHash h)) as [|a [|b [|c [|d [|e [|f [|g l]]]]]]];
    simpl in H; try discriminate; cbn [orElse].
  - apply hexObject_hexRead; eauto using parseIntFromHex_byte.
    unfold parseIntFromHex.
    destruct (hexVal a), (hexVal b), (hexVal c); discriminate.
  - rewrite orElse_none.
    apply hexObject_hexRead; eauto using parseIntFromHex_byte.
    unfold parseIntFromHex.
    destruct (hexVal a), (hexVal b), (hexVal c), (hexVal d), (hexVal e), (hexVal f);
      discriminate.
Qed.

Lemma toHexString_hexRead o : hexRead (tinycolor (toHexString (construct o))).
Proof.
  unfold tinycolor. rewrite stringInputToObject_toHexString.
  destruct (construct_bytes o) as (Hr & Hg & Hb).
  exists (Js.round (_r (construct o))), (Js.round (_g (construct o))),
    (Js.round (_b (construct o))).
  split; [exact Hr|]. split; [exact Hg|]. split; [exact Hb|]. reflexivity.
Qed.

Lemma hexRead_isValid c : hexRead c -> isValid c = true.
Proof. intros (r & g & b & _ & _ & _ & ->). reflexivity. Qed.

Lemma hexRead_constructed c : hexRead c -> constructed c.
Proof. intros (r & g & b & _ & _ & _ & ->). now eexists. Qed.

(** A colour read from a hex string prints as its hex string. *)
Lemma toString_hexRead c : hexRead c -> toString c = toHexString c.
Proof.
  intros (r & g & b & _ & _ & _ & ->). unfold toString.
  change (_a (construct (Some (hexBytes r g b)))) with 1.
  change (_format (construct (Some (hexBytes r g b)))) with (Some FormatHex).
  reflexivity.
Qed.

(** Its clone is the colour itself. *)
Lemma clone_hexRead c : hexRead c -> clone c = c.
Proof.
  intros H. unfold clone. rewrite (toString_hexRead c H).
  destruct H as (r & g & b & Hr & Hg & Hb & ->).
  unfold tinycolor. rewrite stringInputToObject_toHexString.
  assert (Er : Js.round (_r (construct (Some (hexBytes r g b)))) = r)
    by (unfold hexBytes; rewrite construct_rgb_r; now apply byte_channel).
  assert (Eg : Js.round (_g (construct (Some (hexBytes r g b)))) = g)
    by (unfold hexBytes; rewrite construct_rgb_g; now apply byte_channel).
  assert (Eb : Js.round (_b (construct (Some (hexBytes r g b)))) = b)
    by (unfold hexBytes; rewrite construct_rgb_b; now apply byte_channel).
  now rewrite Er, Eg, Eb.
Qed.

(** ** The library's operators build colours with the constructor *)

Lemma fromHsl_constructed h s l a : constructed (fromHsl h s l a).
Proof. now eexists. Qed.

Lemma fromHsv_constructed h s v : constructed (fromHsv h s v).
Proof. now eexists. Qed.

Ltac by_fromHsl c :=
  destruct (toHsl c) as [[? ?] ?]; apply fromHsl_constructed.

Lemma lighten_constructed a c : constructed (lighten a c).
Proof. unfold lighten. by_fromHsl c. Qed.

Lemma darken_constructed a c : constructed (darken a c).
Proof. unfold darken. by_fromHsl c. Qed.

Lemma desaturate_constructed a c : constructed (desaturate a c).
Proof. unfold desaturate. by_fromHsl c. Qed.

Lemma spin_constructed a c : constructed (spin a c).
Proof. unfold spin. by_fromHsl c. Qed.

Lemma complement_constructed c : constructed (complement c).
Proof. unfold complement. by_fromHsl c. Qed.

Lemma polyad_length n c : List.length (polyad (S n) c) = S n.
Proof.
  unfold polyad. destruct (toHsl c) as [[h s] l].
  simpl List.length. now rewrite length_map, length_seq, Nat.sub_0_r.
Qed.

Lemma polyad_constructed n c : constructed c -> Forall constructed (polyad n c).
Proof.
  intros Hc. unfold polyad. destruct (toHsl c) as [[h s] l].
  constructor; [exact Hc|].
  apply Forall_map, Forall_forall. intros i _. apply fromHsl_constructed.
Qed.

Lemma splitcomplement_constructed c :
  constructed c -> Forall constructed (splitcomplement c).
Proof.
  intros Hc. unfold splitcomplement. destruct (toHsl c) as [[h s] l].
  repeat constructor; auto using fromHsl_constructed.
Qed.

Lemma analogousLoop_length n part h s l a :
  List.length (analogousLoop n part h s l a) = n.
Proof. revert h. induction n as [|n IH]; intros h; simpl; [reflexivity|now rewrite IH]. Qed.

Lemma analogousLoop_constructed n part h s l a :
  Forall constructed (analogousLoop n part h s l a).
Proof.
  revert h. induction n as [|n IH]; intros h; simpl; constructor;
    auto using fromHsl_constructed.
Qed.

Lemma analogous_length n c : List.length (analogous (S n) c) = S n.
Proof.
  unfold analogous. destruct (toHsl c) as [[h s] l].
  simpl List.length. now rewrite analogousLoop_length, Nat.sub_0_r.
Qed.

Lemma analogous_constructed n c : constructed c -> Forall constructed (analogous n c).
Proof.
  intros Hc. unfold analogous. destruct (toHsl c) as [[h s] l].
  constructor; [exact Hc|apply analogousLoop_constructed].
Qed.

Lemma monochromaticLoop_length n m h s v :
  List.length (monochromaticLoop n m h s v) = n.
Proof. revert v. induction n as [|n IH]; intros v; simpl; [reflexivity|now rewrite IH]. Qed.

Lemma monochromaticLoop_constructed n m h s v :
  Forall constructed (monochromaticLoop n m h s v).
Proof.
  revert v. induction n as [|n IH]; intros v; simpl; constructor;
    auto using fromHsv_constructed.
Qed.

Lemma monochromatic_length n c : List.length (monochromatic (S n) c) = S n.
Proof.
  unfold monochromatic. destruct (toHsv c) as [[h s] v].
  apply monochromaticLoop_length.
Qed.

Lemma monochromatic_constructed n c : Forall constructed (monochromatic n c).
Proof.
  unfold monochromatic. destruct (toHsv c) as [[h s] v].
  apply monochromaticLoop_constructed.
Qed.

(** ** The branches of [generateHarmonyPalette] *)

(** Decide the comparisons of the [switch] on a literal rule. *)
Ltac pick_rule :=
  repeat match goal with
    | |- context [String.eqb ?a ?b] =>
        let v := eval vm_compute in (String.eqb a b) in
        change (String.eqb a b) with v
    end;
  cbv iota.

Ltac enter_rule H :=
  unfold generateHarmonyPalette; rewrite H; cbv [negb]; pick_rule;
  change NUM_COLORS_PER_PALETTE with 5%nat.

Lemma slice_all {A} (a b c d e : A) :
  slice 0 5 [a; b; c; d; e] = [a; b; c; d; e].
Proof. reflexivity. Qed.

Lemma palette_shades b :
  hexRead (tinycolor b) ->
  generateHarmonyPalette b "shades" =
    inr [toHexString (darken 30 (tinycolor b));
         toHexString (darken 15 (tinycolor b));
         toHexString (tinycolor b);
         toHexString (lighten 15 (tinycolor b));
         toHexString (lighten 30 (tinycolor b))].
Proof.
  intros Hb. pose proof (hexRead_isValid _ Hb) as H.
  enter_rule H. rewrite slice_all, (clone_hexRead _ Hb). f_equal.
  apply (normalize_map
           [darken 30 (tinycolor b); darken 15 (tinycolor b); tinycolor b;
            lighten 15 (tinycolor b); lighten 30 (tinycolor b)]).
  repeat constructor;
    auto using darken_constructed, lighten_constructed, tinycolor_constructed.
Qed.

Lemma palette_complement b :
  hexRead (tinycolor b) ->
  generateHarmonyPalette b "complement" =
    inr [toHexString (tinycolor b);
         toHexString (lighten 20 (tinycolor b));
         toHexString (complement (tinycolor b));
         toHexString (lighten 20 (tinycolor (toHexString (complement (tinycolor b)))));
         toHexString (desaturate 10 (spin 30 (tinycolor b)))].
Proof.
  intros Hb. pose proof (hexRead_isValid _ Hb) as H.
  enter_rule H. rewrite slice_all, (clone_hexRead _ Hb). f_equal.
  apply (normalize_map
           [tinycolor b; lighten 20 (tinycolor b); complement (tinycolor b);
            lighten 20 (tinycolor (toHexString (complement (tinycolor b))));
            desaturate 10 (spin 30 (tinycolor b))]).
  repeat constructor;
    auto using desaturate_constructed, lighten_constructed, complement_constructed,
      tinycolor_constructed.
Qed.

Lemma palette_monochromatic b :
  isValid (tinycolor b) = true ->
  generateHarmonyPalette b "monochromatic" =
    inr (map toHexString (monochromatic 5 (tinycolor b))).
Proof.
  intros H. enter_rule H. f_equal.
  apply normalize_map, monochromatic_constructed.
Qed.

Lemma palette_default b rule :
  isValid (tinycolor b) = true ->
  ~ In rule harmonyRules ->
  generateHarmonyPalette b rule = inr [toHexString (tinycolor b)].
Proof.
  intros H Hrule. unfold generateHarmonyPalette. rewrite H. cbv [negb].
  assert (Hne : forall r, In r harmonyRules -> String.eqb rule r = false).
  { intros r Hr. apply String.eqb_neq. intros ->. contradiction. }
  rewrite !Hne by (simpl; auto 10).
  f_equal. apply (normalize_map [tinycolor b]).
  repeat constructor. apply tinycolor_constructed.
Qed.

Lemma derive_valid b rule :
  isValid (tinycolor b) = true ->
  exists palette, generateHarmonyPalette b rule = inr palette.
Proof.
  intros H. unfold generateHarmonyPalette. rewrite H. cbv [negb]. now eexists.
Qed.

Lemma analogous_palette_length base :
  List.length
    (map (fun color => toHexString (tinycolor color))
       (toHexString base
          :: slice 1 5 (map toHexString (analogous (5 + 1) base)))) = 5%nat.
Proof.
  rewrite length_map. cbn [List.length]. unfold slice.
  change (5 + 1)%nat with 6%nat.
  rewrite length_firstn, length_skipn, length_map, analogous_length. reflexivity.
Qed.

Lemma length_analogous b :
  isValid (tinycolor b) = true ->
  exists palette,
    generateHarmonyPalette b "analogous" = inr palette /\ List.length palette = 5%nat.
Proof.
  intros H. enter_rule H. eexists. split; [reflexivity|].
  apply analogous_palette_length.
Qed.

Lemma length_monochromatic b :
  isValid (tinycolor b) = true ->
  exists palette,
    generateHarmonyPalette b "monochromatic" = inr palette /\ List.length palette = 5%nat.
Proof.
  intros H. rewrite (palette_monochromatic b H). eexists. split; [reflexivity|].
  now rewrite length_map, monochromatic_length.
Qed.

Lemma length_splitcomplement b :
  isValid (tinycolor b) = true ->
  exists palette,
    generateHarmonyPalette b "splitcomplement" = inr palette /\ List.length palette = 5%nat.
Proof.
  intros H. enter_rule H. rewrite slice_all. eexists. split; reflexivity.
Qed.

Lemma length_triad b :
  isValid (tinycolor b) = true ->
  exists palette,
    generateHarmonyPalette b "triad" = inr palette /\ List.length palette = 5%nat.
Proof.
  intros H. enter_rule H.
  unfold triad, polyad. destruct (toHsl (tinycolor b)) as [[h s] l].
  cbn [map seq Nat.sub List.length Nat.ltb Nat.leb andb app at_ nth].
  rewrite slice_all. eexists. split; reflexivity.
Qed.

Lemma length_tetrad b :
  isValid (tinycolor b) = true ->
  exists palette,
    generateHarmonyPalette b "tetrad" = inr palette /\ List.length palette = 5%nat.
Proof.
  intros H. enter_rule H.
  unfold tetrad, polyad. destruct (toHsl (tinycolor b)) as [[h s] l].
  cbn [map seq Nat.sub List.length Nat.ltb Nat.leb andb app at_ nth].
  rewrite slice_all. eexists. split; reflexivity.
Qed.

Lemma palette_length b rule :
  isValid (tinycolor b) = true ->
  In rule harmonyRules ->
  exists palette,
    generateHarmonyPalette b rule = inr palette /\ List.length palette = 5%nat.
Proof.
  intros H Hrule. simpl in Hrule.
  destruct Hrule as [<-|[<-|[<-|[<-|[<-|[<-|[<-|[]]]]]]]].
  - now apply length_analogous.
  - now apply length_monochromatic.
  - now apply length_splitcomplement.
  - now apply length_triad.
  - now apply length_tetrad.
  - enter_rule H. rewrite slice_all. eexists. split; reflexivity.
  - enter_rule H. rewrite slice_all. eexists. split; reflexivity.
Qed.

(** ** The range of the HSL reading *)

Lemma trunc_unit q : 0 <= q -> q < 1 -> Js.trunc q = 0%Z.
Proof.
  intros H0 H1. unfold Js.trunc. js_case; [lra|].
  assert (Ha : (0 <= Qfloor q)%Z).
  { rewrite <- (Qfloor_Z 0). now apply Qfloor_resp_le. }
  assert (Hb : (Qfloor q < 1)%Z).
  { rewrite Zlt_Qlt. eapply Qle_lt_trans; [apply Qfloor_le|exact H1]. }
  lia.
Qed.

Lemma div_range a d lo hi :
  0 < d -> lo * d <= a -> a <= hi * d -> lo <= a / d <= hi.
Proof.
  intros Hd Hlo Hhi. split.
  - apply Qle_shift_div_l; assumption.
  - apply Qle_shift_div_r; assumption.
Qed.

Lemma div_lt a d hi : 0 < d -> a < hi * d -> a / d < hi.
Proof. intros Hd H. now apply Qlt_shift_div_r. Qed.

(** [bound01] on a number lands in the unit interval. *)
Lemma bound01_num_range x m : 1 <= m -> 0 <= bound01 (Num x) m <= 1.
Proof.
  intros Hm. unfold bound01.
  set (n := Js.min m (Js.max 0 x)).
  assert (Hn : 0 <= n <= m).
  { unfold n, Js.min, Js.max. repeat js_case; lra. }
  js_case; [lra|].
  assert (Hlt : n < m).
  { revert H. unfold Js.abs. js_case; lra. }
  unfold Js.rem. rewrite trunc_unit.
  - apply div_range; unfold inject_Z; lra.
  - apply Qle_shift_div_l; lra.
  - apply div_lt; lra.
Qed.

Lemma hueSector_range r g b :
  0 <= r <= 1 -> 0 <= g <= 1 -> 0 <= b <= 1 ->
  Js.max3 r g b - Js.min3 r g b > 0 ->
  0 <= hueSector r g b (Js.max3 r g b) (Js.max3 r g b - Js.min3 r g b) / 6 < 1.
Proof.
  intros Hr Hg Hb.
  set (mx := Js.max3 r g b). set (mn := Js.min3 r g b).
  assert (Hmx : r <= mx /\ g <= mx /\ b <= mx).
  { unfold mx, Js.max3, Js.max. repeat js_case; lra. }
  assert (Hmn : mn <= r /\ mn <= g /\ mn <= b).
  { unfold mn, Js.min3, Js.min. repeat js_case; lra. }
  intros Hd.
  assert (H : 0 <= hueSector r g b mx (mx - mn) /\ hueSector r g b mx (mx - mn) < 6).
  { unfold hueSector.
    destruct (Js_eq_spec mx r) as [E|E]; [|destruct (Js_eq_spec mx g) as [E'|E']].
    - destruct (Js_lt_spec g b).
      + destruct (div_range (g - b) (mx - mn) (-1) 0) as [? ?]; try lra.
        pose proof (div_lt (g - b) (mx - mn) 0). lra.
      + destruct (div_range (g - b) (mx - mn) 0 1) as [? ?]; lra.
    - destruct (div_range (b - r) (mx - mn) (-1) 1) as [? ?]; lra.
    - destruct (div_range (r - g) (mx - mn) (-1) 1) as [? ?]; lra. }
  destruct H as [H0 H6]. split.
  - apply Qle_shift_div_l; lra.
  - apply div_lt; lra.
Qed.

Lemma rgbToHsl_range r g b :
  let '(h, s, l) := rgbToHsl r g b in
  0 <= h /\ h < 1 /\ 0 <= s <= 1 /\ 0 <= l <= 1.
Proof.
  unfold rgbToHsl.
  pose proof (bound01_num_range r 255) as Hr.
  pose proof (bound01_num_range g 255) as Hg.
  pose proof (bound01_num_range b 255) as Hb.
  generalize dependent (bound01 (Num r) 255). intros r'.
  generalize dependent (bound01 (Num g) 255). intros g'.
  generalize dependent (bound01 (Num b) 255). intros b'.
  intros Hb Hg Hr.
  specialize (Hr ltac:(lra)). specialize (Hg ltac:(lra)). specialize (Hb ltac:(lra)).
  pose proof (hueSector_range r' g' b' Hr Hg Hb) as Hh.
  set (mx := Js.max3 r' g' b') in *. set (mn := Js.min3 r' g' b') in *.
  assert (Hmx : r' <= mx /\ g' <= mx /\ b' <= mx /\ mx <= 1).
  { unfold mx, Js.max3, Js.max. repeat js_case; lra. }
  assert (Hmn : mn <= r' /\ mn <= g' /\ mn <= b' /\ 0 <= mn).
  { unfold mn, Js.min3, Js.min. repeat js_case; lra. }
  assert (Hl : 0 <= (mx + mn) / 2 <= 1).
  { apply div_range; lra. }
  destruct (Js_eq_spec mx mn) as [E|E].
  - repeat split; lra.
  - assert (Hd : mx - mn > 0).
    { destruct (Qlt_le_dec mn mx); [lra|]. exfalso. apply E. lra. }
    specialize (Hh Hd).
    repeat split; try lra.
    + destruct (Js_lt_spec (1 # 2) ((mx + mn) / 2)) as [Hhalf|Hhalf].
      * apply Qle_shift_div_l; lra.
      * apply Qle_shift_div_l; lra.
    + destruct (Js_lt_spec (1 # 2) ((mx + mn) / 2)) as [Hhalf|Hhalf].
      * assert (mx + mn < 2) by lra. apply Qle_shift_div_r; lra.
      * apply Qle_shift_div_r; lra.
Qed.

Lemma toHsl_range c :
  let '(h, s, l) := toHsl c in
  0 <= h /\ h < 360 /\ 0 <= s <= 1 /\ 0 <= l <= 1.
Proof.
  unfold toHsl. pose proof (rgbToHsl_range (_r c) (_g c) (_b c)) as H.
  destruct (rgbToHsl (_r c) (_g c) (_b c)) as [[h s] l].
  destruct H as (H0 & H1 & Hs & Hl). repeat split; lra.
Qed.

(** ** The listeners and the picker triple *)

Lemma handleGenerateHarmony_picker st :
  currentHue (fst (handleGenerateHarmony st)) = currentHue st /\
  currentSaturation (fst (handleGenerateHarmony st)) = currentSaturation st /\
  currentLightness (fst (handleGenerateHarmony st)) = currentLightness st.
Proof.
  unfold handleGenerateHarmony.
  destruct (generateHarmonyPalette _ _) as [[msg]|palette]; repeat split; reflexivity.
Qed.

Lemma handleGenerateHarmony_inRange st :
  inRange st -> inRange (fst (handleGenerateHarmony st)).
Proof.
  unfold inRange.
  destruct (handleGenerateHarmony_picker st) as (-> & -> & ->). auto.
Qed.

Lemma updateColorFromPicker_inRange st : inRange st -> inRange (updateColorFromPicker st).
Proof. unfold updateColorFromPicker. apply handleGenerateHarmony_inRange. Qed.

Lemma setDragging_inRange hue sl st : inRange st -> inRange (setDragging hue sl st).
Proof. intros H. exact H. Qed.

Lemma setHueFromAngle_inRange a st :
  fromAtan2 a -> inRange st -> inRange (setHueFromAngle a st).
Proof.
  intros Ha (_ & _ & Hs & Hl). unfold fromAtan2 in Ha. unfold inRange, setHueFromAngle. cbn [currentHue currentSaturation currentLightness setHsl].
  repeat split; try tauto; js_case; lra.
Qed.

Lemma setSLFromPoint_inRange x y st : inRange st -> inRange (setSLFromPoint x y st).
Proof.
  intros (H0 & H1 & _ & _). unfold inRange, setSLFromPoint.
  cbn [currentHue currentSaturation currentLightness setHsl].
  repeat split; try assumption; unfold Js.max, Js.min; repeat js_case; lra.
Qed.

Lemma baseColorInput_input_inRange text st :
  inRange st -> inRange (baseColorInput_input text st).
Proof.
  intros H. unfold baseColorInput_input.
  change (baseColorInput_value (setBaseColorInput text st)) with text.
  destruct (isValid (tinycolor text)); [|exact H].
  pose proof (toHsl_range (tinycolor text)) as R.
  destruct (toHsl (tinycolor text)) as [[h s] l].
  apply updateColorFromPicker_inRange. exact R.
Qed.

Lemma hueWheelCanvas_mousedown_inRange a st :
  fromAtan2 a -> inRange st -> inRange (hueWheelCanvas_mousedown a st).
Proof.
  intros Ha H. unfold hueWheelCanvas_mousedown.
  apply updateColorFromPicker_inRange, setHueFromAngle_inRange; [exact Ha|].
  apply setDragging_inRange, H.
Qed.

Lemma hueWheelCanvas_mousemove_inRange a st :
  fromAtan2 a -> inRange st -> inRange (hueWheelCanvas_mousemove a st).
Proof.
  intros Ha H. unfold hueWheelCanvas_mousemove. destruct (isDraggingHue st); [|exact H].
  apply updateColorFromPicker_inRange, setHueFromAngle_inRange; [exact Ha|exact H].
Qed.

Lemma slPickerCanvas_mousedown_inRange x y st :
  inRange st -> inRange (slPickerCanvas_mousedown x y st).
Proof.
  intros H. unfold slPickerCanvas_mousedown.
  apply updateColorFromPicker_inRange, setSLFromPoint_inRange.
  apply setDragging_inRange, H.
Qed.

Lemma slPickerCanvas_mousemove_inRange x y st :
  inRange st -> inRange (slPickerCanvas_mousemove x y st).
Proof.
  intros H. unfold slPickerCanvas_mousemove. destruct (isDraggingSL st); [|exact H].
  apply updateColorFromPicker_inRange, setSLFromPoint_inRange. exact H.
Qed.

Lemma handle_inRange ev st : admissible ev -> inRange st -> inRange (handle ev st).
Proof.
  intros Hev H. destruct ev; cbn [handle admissible] in *.
  - exact H.
  - apply updateColorFromPicker_inRange, H.
  - apply updateColorFromPicker_inRange. exact H.
  - apply baseColorInput_input_inRange, H.
  - now apply hueWheelCanvas_mousedown_inRange.
  - now apply hueWheelCanvas_mousemove_inRange.
  - now apply slPickerCanvas_mousedown_inRange.
  - now apply slPickerCanvas_mousemove_inRange.
  - apply setDragging_inRange, H.
Qed.

Lemma initialState_inRange baseColor rule : inRange (initialState baseColor rule).
Proof. unfold inRange, initialState. cbn [currentHue currentSaturation currentLightness]. lra. Qed.

Lemma initializeApp_inRange baseColor rule :
  inRange (initializeApp (initialState baseColor rule)).
Proof.
  unfold initializeApp. apply handleGenerateHarmony_inRange.
  change (baseColorInput_value (initialState baseColor rule)) with baseColor.
  destruct (isValid (tinycolor baseColor)); [|apply initialState_inRange].
  pose proof (toHsl_range (tinycolor baseColor)) as R.
  destruct (toHsl (tinycolor baseColor)) as [[h s] l]. exact R.
Qed.

(** ** Random digits *)

Lemma append_assoc (a b c : string) : ((a ++ b) ++ c = a ++ (b ++ c))%string.
Proof. induction a as [|x a IH]; simpl; [reflexivity|now rewrite IH]. Qed.

Lemma hexChars_get i :
  (0 <= i <= 15)%Z ->
  exists c, String.get (Z.to_nat i) hexChars = Some c /\ isHexDigit c = true.
Proof.
  intros Hi.
  pose (P := fun i : Z =>
               (15 <? i)%Z ||
               match String.get (Z.to_nat i) hexChars with
               | Some c => isHexDigit c
               | None => false
               end).
  assert (H : P i = true) by (apply byte_forall; [vm_compute; reflexivity|lia]).
  unfold P in H. clear P.
  apply orb_prop in H as [H|H]; [apply Z.ltb_lt in H; lia|].
  destruct (String.get (Z.to_nat i) hexChars) as [c|]; [|discriminate].
  now exists c.
Qed.

Lemma random_index q : 0 <= q -> q < 1 -> (0 <= Js.floor (q * 16) <= 15)%Z.
Proof.
  intros H0 H1. unfold Js.floor. split.
  - rewrite <- (Qfloor_Z 0). apply Qfloor_resp_le. unfold inject_Z. lra.
  - assert (H : (Qfloor (q * 16) < 16)%Z); [|lia].
    rewrite Zlt_Qlt. eapply Qle_lt_trans; [apply Qfloor_le|]. unfold inject_Z. lra.
Qed.

Lemma randomDigits_shape rand :
  unitInterval rand ->
  forall n pos acc,
  exists t,
    randomDigits n rand pos acc = ((acc ++ t)%string, (pos + n)%nat) /\
    String.length t = n /\
    forallb isHexDigit (list_ascii_of_string t) = true.
Proof.
  intros Hr. induction n as [|n IH]; intros pos acc.
  - exists EmptyString. simpl. repeat split; try reflexivity.
    + f_equal; [|lia]. induction acc as [|x acc IHa]; simpl; [reflexivity|now rewrite <- IHa].
  - destruct (Hr pos) as [H0 H1].
    pose proof (random_index _ H0 H1) as Hi.
    destruct (hexChars_get _ Hi) as (c & Hc & Hd).
    cbn [randomDigits].
    replace (Js.floor (rand pos * 16) <? 0)%Z with false
      by (symmetry; apply Z.ltb_ge; lia).
    rewrite Hc.
    destruct (IH (S pos) (acc ++ String c EmptyString)%string) as (t & E & L & F).
    exists (String c t). rewrite E. repeat split.
    + f_equal; [|lia]. now rewrite append_assoc.
    + simpl. now rewrite L.
    + simpl. now rewrite Hd, F.
Qed.

Lemma getRandomHexColor_shape rand pos :
  unitInterval rand ->
  matchesHexColor (fst (getRandomHexColor rand pos)) = true /\
  snd (getRandomHexColor rand pos) = (pos + 6)%nat.
Proof.
  intros Hr. unfold getRandomHexColor.
  destruct (randomDigits_shape rand Hr 6 pos "#") as (t & E & L & F).
  rewrite E. simpl. now rewrite L, F.
Qed.

Lemma generatePaletteLoop_shape rand :
  unitInterval rand ->
  forall n pos colors,
    Forall (fun c => matchesHexColor c = true) colors ->
    List.length (fst (generatePaletteLoop n rand pos colors)) = (List.length colors + n)%nat /\
    Forall (fun c => matchesHexColor c = true) (fst (generatePaletteLoop n rand pos colors)).
Proof.
  intros Hr. induction n as [|n IH]; intros pos colors Hc.
  - simpl. split; [lia|exact Hc].
  - cbn [generatePaletteLoop].
    destruct (getRandomHexColor_shape rand pos Hr) as [Hm _].
    destruct (getRandomHexColor rand pos) as [c pos'].
    destruct (IH pos' (colors ++ [c])%list) as [L F].
    + apply Forall_app. split; [exact Hc|]. constructor; [exact Hm|constructor].
    + split; [|exact F]. rewrite L, length_app. simpl. lia.
Qed.

(** ** Reading literal strings *)

(** Evaluate the closed parts of [tinycolor] on a literal string and
    discharge the functional-notation matchers by their keywords. *)
Ltac read_literal :=
  unfold tinycolor, stringInputToObject;
  repeat match goal with
    | |- context [toLowerCase ?s] =>
        let v := eval vm_compute in (toLowerCase s) in
        change (toLowerCase s) with v
    end;
  repeat match goal with
    | |- context [lookup ?k names] =>
        let v := eval vm_compute in (lookup k names) in
        change (lookup k names) with v
    end;
  cbv iota;
  repeat match goal with
    | |- context [String.eqb ?a ?b] =>
        let v := eval vm_compute in (String.eqb a b) in
        change (String.eqb a b) with v
    end;
  cbv iota;
  unfold matchers;
  rewrite functionalNotation_keyword by (vm_compute; reflexivity).

Lemma tinycolor_notacolor : tinycolor "notacolor" = construct None.
Proof. read_literal. reflexivity. Qed.

Lemma tinycolor_empty : tinycolor "" = construct None.
Proof. read_literal. reflexivity. Qed.

Lemma tinycolor_short : tinycolor "#12" = construct None.
Proof. read_literal. reflexivity. Qed.

Lemma tinycolor_red :
  tinycolor "red" =
    construct (Some (mkInput (ObjRgb (Num (inject_Z 255)) (Num (inject_Z 0)) (Num (inject_Z 0)))
                       None (Some FormatName))).
Proof. read_literal. reflexivity. Qed.

(** ** What the parser rejects *)

Lemma isValid_construct o :
  isValid (construct o) = match o with Some _ => true | None => false end.
Proof. now destruct o. Qed.

(** The four hex matchers read a string when it is 8, 6, 4 or 3 hex digits
    after an optional [#], and only then. *)
Lemma hexMatchers_hexDigits named s :
  match orElse (hex8 named s) (orElse (hex6 named s) (orElse (hex4 named s) (hex3 named s))) with
  | Some _ => true
  | None => false
  end = hexDigits 8 s || hexDigits 6 s || hexDigits 4 s || hexDigits 3 s.
Proof.
  unfold hex8, hex6, hex4, hex3, hexDigits, parseIntFromHex, isHexDigit.
  destruct (list_ascii_of_string (stripHash s))
    as [|c1 [|c2 [|c3 [|c4 [|c5 [|c6 [|c7 [|c8 [|c9 l]]]]]]]]]; try reflexivity.
  - cbn. destruct (hexVal c1), (hexVal c2), (hexVal c3); reflexivity.
  - cbn. destruct (hexVal c1), (hexVal c2), (hexVal c3), (hexVal c4); reflexivity.
  - cbn. destruct (hexVal c1), (hexVal c2), (hexVal c3), (hexVal c4), (hexVal c5),
      (hexVal c6); reflexivity.
  - cbn. destruct (hexVal c1), (hexVal c2), (hexVal c3), (hexVal c4), (hexVal c5),
      (hexVal c6), (hexVal c7), (hexVal c8); reflexivity.
Qed.

(** Every value of the names table is 6 or 3 hex digits. *)
Lemma names_hex :
  forallb (fun kv => plain (snd kv) && (hexDigits 6 (snd kv) || hexDigits 3 (snd kv))) names
  = true.
Proof. vm_compute. reflexivity. Qed.

Lemma lookup_In key table v : lookup key table = Some v -> In (key, v) table.
Proof.
  induction table as [|[k w] rest IH]; [discriminate|].
  simpl. destruct (String.eqb key k) eqn:E.
  - apply String.eqb_eq in E. intros [= ->]. subst. now left.
  - intros H. right. now apply IH.
Qed.

Lemma matchers_some (named : bool) c :
  match matchers named c with
  | Some _ => true
  | None => false
  end =
  match functionalNotation c with
  | Some _ => true
  | None => false
  end || hexDigits 8 c || hexDigits 6 c || hexDigits 4 c || hexDigits 3 c.
Proof.
  unfold matchers. destruct (functionalNotation c); [reflexivity|].
  cbn [orElse orb]. apply hexMatchers_hexDigits.
Qed.

(** The parser accepts exactly the well-formed strings. *)
Lemma isValid_wellFormed s : isValid (tinycolor s) = wellFormed s.
Proof.
  unfold tinycolor, stringInputToObject, wellFormed. rewrite isValid_construct.
  set (color := toLowerCase (trimRight (trimLeft s))).
  destruct (lookup color names) as [hex|] eqn:L.
  - apply lookup_In in L. pose proof names_hex as H.
    rewrite forallb_forall in H. specialize (H _ L). cbn [snd] in H.
    apply andb_prop in H as [Hp Hd].
    rewrite matchers_some, (functionalNotation_plain hex Hp). cbn [orb].
    apply orb_prop in Hd as [->| ->]; now rewrite ?orb_true_r.
  - destruct (String.eqb color "transparent"); [reflexivity|].
    cbn [orb]. apply matchers_some.
Qed.

Ltac decide_literal :=
  unfold malformed, wellFormed;
  repeat match goal with
    | |- context [toLowerCase ?s] =>
        let v := eval vm_compute in (toLowerCase s) in
        change (toLowerCase s) with v
    end;
  repeat match goal with
    | |- context [lookup ?k names] =>
        let v := eval vm_compute in (lookup k names) in
        change (lookup k names) with v
    end;
  cbv iota;
  try rewrite functionalNotation_keyword by (vm_compute; reflexivity);
  vm_compute; reflexivity.

Lemma malformed_notacolor : malformed "notacolor" = true.
Proof. decide_literal. Qed.

Lemma malformed_empty : malformed "" = true.
Proof. decide_literal. Qed.

Lemma malformed_short : malformed "#12" = true.
Proof. decide_literal. Qed.

Lemma wellFormed_red : malformed "red" = false.
Proof. decide_literal. Qed.

Lemma wellFormed_transparent : malformed "transparent" = false.
Proof. decide_literal. Qed.

Lemma wellFormed_hex4 : malformed "#abcd" = false.
Proof. decide_literal. Qed.

Lemma wellFormed_hex8 : malformed "3498dbff" = false.
Proof. decide_literal. Qed.

(** ** The functional notations of release 1.6 *)

(** A literal is matched at the start of a string only. *)
Lemma backtrack_Lit {R : Type} kw s captures (k : string -> list string -> option R) :
  String.prefix kw s = false -> RegExp.backtrack (RegExp.Lit kw) s captures k = None.
Proof.
  revert s. induction kw as [|c kw IH]; intros s H.
  - destruct s; discriminate H.
  - destruct s as [|c' s]; [reflexivity|].
    cbn [RegExp.Lit RegExp.backtrack]. cbn [String.prefix] in H.
    destruct (Ascii.eqb_spec c c') as [E|E].
    + destruct (ascii_dec c c') as [_|N]; [|contradiction]. now apply IH.
    + reflexivity.
Qed.

Lemma exec_keyword kw rest s :
  contains kw s = false -> RegExp.exec (RegExp.Cat (RegExp.Lit kw) rest) s = None.
Proof.
  induction s as [|c s IH]; intros H.
  - cbn [contains] in H. apply orb_false_iff in H. destruct H as [H _].
    cbn [RegExp.exec RegExp.backtrack]. now rewrite backtrack_Lit.
  - cbn [contains] in H. apply orb_false_iff in H. destruct H as [H H'].
    cbn [RegExp.exec RegExp.backtrack]. rewrite backtrack_Lit by exact H.
    now apply IH.
Qed.

Lemma prefix_append kw more s :
  String.prefix (kw ++ more) s = true -> String.prefix kw s = true.
Proof.
  revert s. induction kw as [|c kw IH]; intros s H.
  - now destruct s.
  - destruct s as [|c' s]; [discriminate H|].
    cbn [append String.prefix] in *.
    destruct (ascii_dec c c'); [now apply IH|discriminate H].
Qed.

Lemma contains_append kw more s :
  contains kw s = false -> contains (kw ++ more) s = false.
Proof.
  induction s as [|c s IH]; cbn [contains]; intros H;
    apply orb_false_iff in H; destruct H as [H H']; apply orb_false_iff; split;
    try (destruct (String.prefix (kw ++ more) _) eqn:E; [|reflexivity];
         apply prefix_append in E; congruence).
  - reflexivity.
  - now apply IH.
Qed.

(** The matchers of release 1.6 match no string without the keywords. *)
Lemma functionalMatchers_keyword : keywordGuarded functionalMatchers.
Proof.
  intros s Hrgb Hhsl Hhsv. unfold functionalMatchers.
  unfold matchers_rgb, matchers_rgba, matchers_hsl, matchers_hsla, matchers_hsv, matchers_hsva.
  rewrite (exec_keyword "rgb" _ s Hrgb).
  rewrite (exec_keyword "rgba" _ s (contains_append "rgb" "a" s Hrgb)).
  rewrite (exec_keyword "hsl" _ s Hhsl).
  rewrite (exec_keyword "hsla" _ s (contains_append "hsl" "a" s Hhsl)).
  rewrite (exec_keyword "hsv" _ s Hhsv).
  rewrite (exec_keyword "hsva" _ s (contains_append "hsv" "a" s Hhsv)).
  reflexivity.
Qed.

(** ** Binary64: rounding to the nearest integer *)

Lemma rne_cases x :
  let f := Qfloor x in
  (x - inject_Z f < 1 # 2 /\ Double.rne x = f) \/
  (x - inject_Z f == 1 # 2 /\ Double.rne x = if Z.even f then f else (f + 1)%Z) \/
  (1 # 2 < x - inject_Z f /\ Double.rne x = (f + 1)%Z).
Proof.
  intros f. unfold Double.rne. fold f.
  destruct (Qcompare (x - inject_Z f) (1 # 2)) eqn:E.
  - right. left. split; [now apply Qeq_alt|reflexivity].
  - left. split; [now apply Qlt_alt|reflexivity].
  - right. right. split; [now apply Qgt_alt|reflexivity].
Qed.

Lemma inject_Z_succ n : inject_Z (n + 1) == inject_Z n + 1.
Proof. now rewrite inject_Z_plus. Qed.

Lemma inject_Z_pred n : inject_Z (n - 1) == inject_Z n - 1.
Proof. unfold Z.sub. rewrite inject_Z_plus. reflexivity. Qed.

Lemma floor_frac x : 0 <= x - inject_Z (Qfloor x) /\ x - inject_Z (Qfloor x) < 1.
Proof.
  pose proof (Qfloor_le x). pose proof (Qlt_floor x) as H0.
  rewrite inject_Z_succ in H0. lra.
Qed.

Lemma rne_floor x : (Qfloor x <= Double.rne x <= Qfloor x + 1)%Z.
Proof.
  destruct (rne_cases x) as [[_ ->]|[[_ ->]|[_ ->]]]; try lia.
  destruct (Z.even _); lia.
Qed.

Lemma rne_close x :
  x - (1 # 2) <= inject_Z (Double.rne x) /\ inject_Z (Double.rne x) <= x + (1 # 2).
Proof.
  pose proof (floor_frac x) as [F0 F1].
  destruct (rne_cases x) as [[H ->]|[[H ->]|[H ->]]].
  - lra.
  - destruct (Z.even _); rewrite ?inject_Z_succ; lra.
  - rewrite inject_Z_succ. lra.
Qed.

Lemma rne_integer n : Double.rne (inject_Z n) = n.
Proof.
  destruct (rne_cases (inject_Z n)) as [[H E]|[[H E]|[H E]]];
    rewrite Qfloor_Z in *; try exact E; exfalso; lra.
Qed.

Lemma rne_comp x y : x == y -> Double.rne x = Double.rne y.
Proof.
  intros E. unfold Double.rne. rewrite (Qfloor_comp _ _ E).
  assert (C : Qcompare (x - inject_Z (Qfloor y)) (1 # 2) =
              Qcompare (y - inject_Z (Qfloor y)) (1 # 2)) by now rewrite E.
  now rewrite C.
Qed.

Lemma rne_monotone x y : x <= y -> (Double.rne x <= Double.rne y)%Z.
Proof.
  intros H. pose proof (Qfloor_resp_le _ _ H) as F.
  pose proof (rne_floor x). pose proof (rne_floor y).
  destruct (Z.eq_dec (Qfloor x) (Qfloor y)) as [E|N]; [|lia].
  destruct (rne_cases x) as [[Hx Ex]|[[Hx Ex]|[Hx Ex]]];
    destruct (rne_cases y) as [[Hy Ey]|[[Hy Ey]|[Hy Ey]]];
    rewrite Ex, Ey; rewrite E in *; try (destruct (Z.even (Qfloor y))); try lia;
    exfalso; lra.
Qed.

Lemma Qfloor_unique x n : inject_Z n <= x -> x < inject_Z n + 1 -> Qfloor x = n.
Proof.
  intros H0 H1. pose proof (Qfloor_le x) as F0. pose proof (Qlt_floor x) as F1.
  rewrite inject_Z_succ in F1.
  assert (A : (n < Qfloor x + 1)%Z) by (rewrite Zlt_Qlt, inject_Z_succ; lra).
  assert (B : (Qfloor x < n + 1)%Z) by (rewrite Zlt_Qlt, inject_Z_succ; lra).
  lia.
Qed.

Lemma rne_opp x : Double.rne (- x) = (- Double.rne x)%Z.
Proof.
  pose proof (floor_frac x) as [F0 F1].
  destruct (Qeq_dec x (inject_Z (Qfloor x))) as [I|N].
  - rewrite (rne_comp x _ I), (rne_comp (- x) (inject_Z (- Qfloor x))).
    + now rewrite !rne_integer.
    + rewrite inject_Z_opp. now rewrite <- I.
  - assert (Ef : Qfloor (- x) = (- Qfloor x - 1)%Z).
    { apply Qfloor_unique.
      - rewrite inject_Z_pred, inject_Z_opp. lra.
      - rewrite inject_Z_pred, inject_Z_opp.
        assert (~ x - inject_Z (Qfloor x) == 0) by (intros C; apply N; lra). lra. }
    assert (Ev : Z.even (- Qfloor x - 1) = negb (Z.even (Qfloor x))).
    { rewrite Z.even_sub, Z.even_opp. now destruct (Z.even (Qfloor x)). }
    destruct (rne_cases x) as [[Hx Ex]|[[Hx Ex]|[Hx Ex]]];
      destruct (rne_cases (- x)) as [[Hy Ey]|[[Hy Ey]|[Hy Ey]]];
      rewrite Ex, Ey; rewrite Ef in *;
      rewrite ?Ev;
      try rewrite inject_Z_pred, inject_Z_opp in Hy;
      try (destruct (Z.even (Qfloor x)); cbn [negb]); try lia; exfalso; lra.
Qed.

(** ** Binary64: powers of two *)

Lemma pow2_pos k : 0 < 2 ^ k.
Proof. now apply Qpower_0_lt. Qed.

Lemma pow2_plus a b : 2 ^ (a + b) == 2 ^ a * 2 ^ b.
Proof. now apply Qpower_plus. Qed.

Lemma pow2_succ a : 2 ^ (a + 1) == 2 * 2 ^ a.
Proof. rewrite pow2_plus. change (2 ^ 1) with 2. ring. Qed.

Lemma pow2_le a b : (a <= b)%Z -> 2 ^ a <= 2 ^ b.
Proof. intros H. now apply Qpower_le_compat_l. Qed.

Lemma pow2_lt a b : (a < b)%Z -> 2 ^ a < 2 ^ b.
Proof. intros H. now apply Qpower_lt_compat_l. Qed.

Lemma pow2_lt_inv a b : 2 ^ a < 2 ^ b -> (a < b)%Z.
Proof. intros H. now apply (Qpower_lt_compat_l_inv 2). Qed.

Lemma pow2_Z n : (0 <= n)%Z -> inject_Z (2 ^ n) == 2 ^ n.
Proof. intros H. now rewrite Zpower_Qpower. Qed.

(** ** Binary64: the binary logarithm *)

Lemma ilog2_spec x :
  0 < x -> 2 ^ Double.ilog2 x <= x /\ x < 2 ^ (Double.ilog2 x + 1).
Proof.
  intros Hx. unfold Double.ilog2.
  set (n := Qnum x). set (d := Qden x).
  assert (Hn : (0 < n)%Z) by (destruct x as [xn xd]; unfold Qlt in Hx; simpl in *; lia).
  pose proof (Z.log2_spec n Hn) as [A0 A1].
  pose proof (Z.log2_spec (Zpos d) (Pos2Z.is_pos d)) as [B0 B1].
  pose proof (Z.log2_nonneg n) as An. pose proof (Z.log2_nonneg (Zpos d)) as Bn.
  set (a := Z.log2 n) in *. set (b := Z.log2 (Z.pos d)) in *.
  assert (E : x * inject_Z (Zpos d) == inject_Z n).
  { unfold n, d. destruct x as [xn xd]. unfold Qeq, Qmult, inject_Z. cbn [Qnum Qden].
    rewrite Pos.mul_1_r. ring. }
  assert (D0 : 0 < inject_Z (Zpos d)) by reflexivity.
  rewrite Zle_Qle, pow2_Z in A0, B0 by assumption.
  rewrite Zlt_Qlt, pow2_Z in A1, B1 by lia.
  unfold Z.succ in *. rewrite pow2_succ in A1, B1.
  assert (K : 2 ^ (a - b) * 2 ^ b == 2 ^ a).
  { rewrite <- pow2_plus. now replace (a - b + b)%Z with a by lia. }
  pose proof (pow2_pos (a - b)) as K0. pose proof (pow2_pos b) as PB0.
  set (X := x) in *. set (D := inject_Z (Zpos d)) in *. set (N := inject_Z n) in *.
  set (k := 2 ^ (a - b)) in *. set (PA := 2 ^ a) in *. set (PB := 2 ^ b) in *.
  assert (Up : X < 2 * k).
  { destruct (Qlt_le_dec X (2 * k)) as [|C]; [assumption|exfalso].
    assert (0 <= (X - 2 * k) * D) by (apply Qmult_le_0_compat; lra).
    assert (0 <= k * (D - PB)) by (apply Qmult_le_0_compat; lra).
    lra. }
  assert (Lo : k < 2 * X).
  { destruct (Qlt_le_dec k (2 * X)) as [|C]; [assumption|exfalso].
    assert (0 <= (k - 2 * X) * D) by (apply Qmult_le_0_compat; lra).
    assert (0 < k * (2 * PB - D)) by (apply Qmult_lt_0_compat; lra).
    lra. }
  destruct (Qle_bool k X) eqn:C.
  - apply Qle_bool_iff in C. rewrite pow2_succ. fold k. lra.
  - assert (C' : X < k).
    { destruct (Qlt_le_dec X k) as [|C']; [assumption|].
      apply Qle_bool_iff in C'. congruence. }
    replace (a - b - 1 + 1)%Z with (a - b)%Z by lia. fold k.
    assert (P : 2 ^ (a - b - 1 + 1) == 2 * 2 ^ (a - b - 1)) by apply pow2_succ.
    replace (a - b - 1 + 1)%Z with (a - b)%Z in P by lia. fold k in P. lra.
Qed.

Lemma ilog2_unique x k : 2 ^ k <= x -> x < 2 ^ (k + 1) -> Double.ilog2 x = k.
Proof.
  intros H0 H1.
  assert (Hx : 0 < x) by (pose proof (pow2_pos k); lra).
  destruct (ilog2_spec x Hx) as [S0 S1].
  assert (A : (Double.ilog2 x < k + 1)%Z) by (apply pow2_lt_inv; lra).
  assert (B : (k < Double.ilog2 x + 1)%Z) by (apply pow2_lt_inv; lra).
  lia.
Qed.

Lemma ilog2_comp x y : 0 < x -> x == y -> Double.ilog2 x = Double.ilog2 y.
Proof.
  intros Hx E. destruct (ilog2_spec x Hx) as [S0 S1].
  symmetry. apply ilog2_unique; now rewrite <- E.
Qed.

Lemma ilog2_monotone x y : 0 < x -> x <= y -> (Double.ilog2 x <= Double.ilog2 y)%Z.
Proof.
  intros Hx H. destruct (ilog2_spec x Hx) as [S0 _].
  destruct (ilog2_spec y) as [_ T1]; [lra|].
  assert (A : (Double.ilog2 x < Double.ilog2 y + 1)%Z) by (apply pow2_lt_inv; lra).
  lia.
Qed.

(** ** Binary64: rounding *)

Lemma ulpExponent_pos x : 0 < x -> Double.ulpExponent x = Z.max (Double.ilog2 x - 52) (-1074).
Proof.
  intros Hx. unfold Double.ulpExponent.
  rewrite (ilog2_comp (Qabs x) x); [reflexivity| |apply Qabs_pos; lra].
  rewrite Qabs_pos; lra.
Qed.

Lemma ulpExponent_opp x : Double.ulpExponent (- x) = Double.ulpExponent x.
Proof.
  unfold Double.ulpExponent.
  destruct (Qeq_dec x 0) as [E|N].
  - destruct x as [[|p|p] d]; try reflexivity; discriminate E.
  - rewrite (ilog2_comp (Qabs (- x)) (Qabs x)); [reflexivity| |apply Qabs_opp].
    rewrite Qabs_opp. destruct (Qlt_le_dec 0 x).
    + rewrite Qabs_pos; lra.
    + rewrite Qabs_neg by lra. assert (~ - x == 0) by (intros C; apply N; lra). lra.
Qed.

Lemma ulpExponent_comp x y : ~ x == 0 -> x == y -> Double.ulpExponent x = Double.ulpExponent y.
Proof.
  intros N E. unfold Double.ulpExponent.
  rewrite (ilog2_comp (Qabs x) (Qabs y)); [reflexivity| |now rewrite E].
  destruct (Qlt_le_dec 0 x).
  - rewrite Qabs_pos; lra.
  - rewrite Qabs_neg by lra. assert (~ - x == 0) by (intros C; apply N; lra). lra.
Qed.

Lemma ulpExponent_monotone x y :
  0 < x -> x <= y -> (Double.ulpExponent x <= Double.ulpExponent y)%Z.
Proof.
  intros Hx H. rewrite !ulpExponent_pos by lra.
  pose proof (ilog2_monotone x y Hx H). lia.
Qed.

Lemma round64_nonzero x :
  ~ x == 0 ->
  Double.round x ==
    inject_Z (Double.rne (x / 2 ^ Double.ulpExponent x)) * 2 ^ Double.ulpExponent x.
Proof.
  intros N. unfold Double.round.
  destruct (Qeq_bool x 0) eqn:E; [|reflexivity].
  apply Qeq_bool_iff in E. contradiction.
Qed.

Lemma round64_zero x : x == 0 -> Double.round x == 0.
Proof.
  intros E. unfold Double.round.
  destruct (Qeq_bool x 0) eqn:C; [reflexivity|].
  apply Qeq_bool_neq in C. contradiction.
Qed.

Lemma round64_comp x y : x == y -> Double.round x == Double.round y.
Proof.
  intros E. destruct (Qeq_dec x 0) as [Z|N].
  - rewrite (round64_zero x Z), (round64_zero y); [reflexivity|now rewrite <- E].
  - rewrite (round64_nonzero x N), (round64_nonzero y) by now rewrite <- E.
    rewrite (ulpExponent_comp x y N E).
    now rewrite (rne_comp (x / 2 ^ Double.ulpExponent y) (y / 2 ^ Double.ulpExponent y))
      by now rewrite E.
Qed.

#[export] Instance round64_proper : Proper (Qeq ==> Qeq) Double.round.
Proof. intros x y E. now apply round64_comp. Qed.

Lemma round64_opp x : Double.round (- x) == - Double.round x.
Proof.
  destruct (Qeq_dec x 0) as [Z|N].
  - rewrite (round64_zero x Z), (round64_zero (- x)); lra.
  - rewrite (round64_nonzero x N), (round64_nonzero (- x)) by (intros C; apply N; lra).
    rewrite ulpExponent_opp.
    rewrite (rne_comp (- x / 2 ^ Double.ulpExponent x) (- (x / 2 ^ Double.ulpExponent x))).
    + rewrite rne_opp, inject_Z_opp. ring.
    + field. pose proof (pow2_pos (Double.ulpExponent x)). lra.
Qed.

(** The significand of a positive number has at most 53 bits, and exactly
    53 above the subnormal range. *)
Lemma significand_range x :
  0 < x ->
  let e := Double.ulpExponent x in
  let m := inject_Z (Double.rne (x / 2 ^ e)) in
  0 <= m /\ m <= 2 ^ 53 /\ ((-1074 < e)%Z -> 2 ^ 52 <= m).
Proof.
  intros Hx e m.
  assert (Ee : e = Z.max (Double.ilog2 x - 52) (-1074)) by now apply ulpExponent_pos.
  destruct (ilog2_spec x Hx) as [S0 S1].
  pose proof (pow2_pos e) as P.
  set (q := x / 2 ^ e).
  assert (Eq : q * 2 ^ e == x) by (unfold q; field; lra).
  assert (I0 : inject_Z 0 = 0) by reflexivity.
  assert (I53 : inject_Z (2 ^ 53) == 2 ^ 53) by reflexivity.
  assert (I52 : inject_Z (2 ^ 52) == 2 ^ 52) by reflexivity.
  assert (L1 : 2 ^ (Double.ilog2 x + 1) <= 2 ^ e * 2 ^ 53)
    by (rewrite <- pow2_plus; apply pow2_le; lia).
  assert (L2 : (-1074 < e)%Z -> 2 ^ e * 2 ^ 52 <= x).
  { intros He. rewrite <- pow2_plus.
    replace (e + 52)%Z with (Double.ilog2 x) by lia. exact S0. }
  set (p := 2 ^ e) in *. set (c53 := 2 ^ 53) in *. set (c52 := 2 ^ 52) in *.
  assert (Q0 : 0 <= q).
  { destruct (Qlt_le_dec q 0) as [C|]; [exfalso|assumption].
    assert (0 < - q * p) by (apply Qmult_lt_0_compat; lra). lra. }
  assert (Q1 : q <= c53).
  { destruct (Qlt_le_dec c53 q) as [C|]; [exfalso|assumption].
    assert (0 < (q - c53) * p) by (apply Qmult_lt_0_compat; lra). lra. }
  unfold m. fold q. repeat split.
  - rewrite <- I0, <- Zle_Qle, <- (rne_integer 0). now apply rne_monotone.
  - rewrite <- I53, <- Zle_Qle, <- (rne_integer (2 ^ 53)). apply rne_monotone. now rewrite I53.
  - intros He. specialize (L2 He). rewrite <- I52, <- Zle_Qle, <- (rne_integer (2 ^ 52)).
    apply rne_monotone. rewrite I52. fold c52.
    destruct (Qlt_le_dec q c52) as [C|]; [exfalso|assumption].
    assert (0 < (c52 - q) * p) by (apply Qmult_lt_0_compat; lra). lra.
Qed.

Lemma round64_pos_monotone x y : 0 < x -> x <= y -> Double.round x <= Double.round y.
Proof.
  intros Hx H.
  rewrite (round64_nonzero x), (round64_nonzero y) by lra.
  pose proof (ulpExponent_monotone x y Hx H) as He.
  destruct (significand_range x Hx) as (_ & X1 & _).
  destruct (significand_range y) as (Y0 & _ & Y2); [lra|].
  set (ex := Double.ulpExponent x) in *. set (ey := Double.ulpExponent y) in *.
  pose proof (pow2_pos ex) as Px. pose proof (pow2_pos ey) as Py.
  destruct (Z.eq_dec ex ey) as [E|N].
  - rewrite <- E in *. apply Qmult_le_compat_r; [|lra].
    rewrite <- Zle_Qle. apply rne_monotone.
    apply Qmult_le_compat_r; [exact H|]. apply Qlt_le_weak, Qinv_lt_0_compat, Px.
  - assert (Lt : (ex < ey)%Z) by lia.
    assert (E1 : (-1074 < ey)%Z) by (unfold ex, Double.ulpExponent in Lt; lia).
    specialize (Y2 E1).
    assert (L : 2 ^ 53 * 2 ^ ex <= 2 ^ 52 * 2 ^ ey)
      by (rewrite <- !pow2_plus; apply pow2_le; lia).
    set (mx := inject_Z (Double.rne (x / 2 ^ ex))) in *.
    set (my := inject_Z (Double.rne (y / 2 ^ ey))) in *.
    set (px := 2 ^ ex) in *. set (py := 2 ^ ey) in *.
    set (c53 := 2 ^ 53) in *. set (c52 := 2 ^ 52) in *.
    assert (0 <= (c53 - mx) * px) by (apply Qmult_le_0_compat; lra).
    assert (0 <= (my - c52) * py) by (apply Qmult_le_0_compat; lra).
    lra.
Qed.

Lemma round64_nonneg x : 0 <= x -> 0 <= Double.round x.
Proof.
  intros H. destruct (Qeq_dec x 0) as [Z|N]; [rewrite round64_zero; lra|].
  assert (Hx : 0 < x) by lra.
  rewrite (round64_nonzero x N).
  destruct (significand_range x Hx) as (M0 & _).
  apply Qmult_le_0_compat; [exact M0|]. apply Qlt_le_weak, pow2_pos.
Qed.

Lemma round64_monotone x y : x <= y -> Double.round x <= Double.round y.
Proof.
  intros H. destruct (Qlt_le_dec 0 x) as [Hx|Hx].
  - now apply round64_pos_monotone.
  - destruct (Qlt_le_dec y 0) as [Hy|Hy].
    + assert (R : Double.round (- y) <= Double.round (- x))
        by (apply round64_pos_monotone; lra).
      rewrite !round64_opp in R. lra.
    + pose proof (round64_nonneg y Hy). pose proof (round64_nonneg (- x)) as R.
      rewrite round64_opp in R. lra.
Qed.

(** Every rounded number is a multiple of 2^-1074. *)
Lemma round64_grid x : exists k, Double.round x == inject_Z k * 2 ^ (-1074).
Proof.
  destruct (Qeq_dec x 0) as [Z|N].
  - exists 0%Z. rewrite round64_zero by assumption. ring.
  - set (e := Double.ulpExponent x).
    exists (Double.rne (x / 2 ^ e) * 2 ^ (e + 1074))%Z.
    rewrite (round64_nonzero x N). fold e.
    assert (He : (0 <= e + 1074)%Z) by (unfold e, Double.ulpExponent; lia).
    rewrite inject_Z_mult, pow2_Z by assumption.
    rewrite <- Qmult_assoc, <- pow2_plus.
    now replace (e + 1074 + -1074)%Z with e by lia.
Qed.

(** The rounding error is at most half a unit in the last place. *)
Lemma round64_error x :
  ~ x == 0 ->
  Qabs (Double.round x - x) <= 2 ^ Double.ulpExponent x * (1 # 2).
Proof.
  intros N. rewrite (round64_nonzero x N).
  set (e := Double.ulpExponent x). pose proof (pow2_pos e) as P.
  set (q := x / 2 ^ e).
  assert (Eq : q * 2 ^ e == x) by (unfold q; field; lra).
  destruct (rne_close q) as [C0 C1].
  apply Qabs_Qle_condition.
  assert (0 <= (inject_Z (Double.rne q) - q + (1 # 2)) * 2 ^ e)
    by (apply Qmult_le_0_compat; lra).
  assert (0 <= (q + (1 # 2) - inject_Z (Double.rne q)) * 2 ^ e)
    by (apply Qmult_le_0_compat; lra).
  split; lra.
Qed.

(** A number between two binary64 values rounds between them. *)
Lemma round64_between lo hi x :
  Double.round lo == lo -> Double.round hi == hi ->
  lo <= x -> x <= hi -> lo <= Double.round x <= hi.
Proof.
  intros Elo Ehi Hlo Hhi. split.
  - rewrite <- Elo. now apply round64_monotone.
  - rewrite <- Ehi. now apply round64_monotone.
Qed.

Ltac exact64 := vm_compute; reflexivity.

Ltac between64 := apply round64_between; [exact64|exact64| |].

Lemma round64_unit x : 0 <= x -> x <= 1 -> 0 <= Double.round x <= 1.
Proof. apply round64_between; exact64. Qed.

(** Two distinct binary64 values differ by 2^-1074 at least, so that their
    difference does not round to zero. *)
Lemma sub64_pos a b :
  (exists k, a == inject_Z k * 2 ^ (-1074)) ->
  (exists k, b == inject_Z k * 2 ^ (-1074)) ->
  b < a -> 0 < Double.sub a b.
Proof.
  intros [ka Ea] [kb Eb] H. unfold Double.sub.
  apply (Qlt_le_trans _ (Double.round (2 ^ (-1074)))); [exact64|].
  apply round64_monotone.
  pose proof (pow2_pos (-1074)) as P.
  set (u := 2 ^ (-1074)) in *.
  assert (E : a - b == inject_Z (ka - kb) * u).
  { unfold Z.sub. rewrite inject_Z_plus, inject_Z_opp, Ea, Eb. ring. }
  assert (K : (0 < ka - kb)%Z).
  { rewrite Zlt_Qlt. change (inject_Z 0) with 0.
    destruct (Qlt_le_dec 0 (inject_Z (ka - kb))) as [|C]; [assumption|exfalso].
    assert (0 <= - inject_Z (ka - kb) * u) by (apply Qmult_le_0_compat; lra).
    lra. }
  assert (K1 : 1 <= inject_Z (ka - kb))
    by (change 1 with (inject_Z 1); rewrite <- Zle_Qle; lia).
  assert (0 <= (inject_Z (ka - kb) - 1) * u) by (apply Qmult_le_0_compat; lra).
  lra.
Qed.

(** ** Binary64: the HSL reading *)

Lemma rem_range x m : 0 <= x -> 0 < m -> 0 <= Js.rem x m /\ Js.rem x m < m.
Proof.
  intros Hx Hm. unfold Js.rem, Js.trunc.
  assert (Q0 : 0 <= x / m) by (apply Qle_shift_div_l; lra).
  assert (E : m * (x / m) == x) by (field; lra).
  pose proof (floor_frac (x / m)) as [F0 F1].
  js_case; [lra|].
  assert (0 <= m * (x / m - inject_Z (Qfloor (x / m)))) by (apply Qmult_le_0_compat; lra).
  assert (0 < m * (1 - (x / m - inject_Z (Qfloor (x / m))))) by (apply Qmult_lt_0_compat; lra).
  split; lra.
Qed.

Lemma bound01_64 n :
  0 <= Double.bound01 n 255 <= 1 /\
  exists k, Double.bound01 n 255 == inject_Z k * 2 ^ (-1074).
Proof.
  unfold Double.bound01.
  set (n' := Js.min 255 (Js.max 0 n)).
  assert (Hn : 0 <= n' <= 255).
  { unfold n', Js.min, Js.max. repeat js_case; lra. }
  js_case.
  - split; [lra|]. exists (2 ^ 1074)%Z. exact64.
  - split; [|apply round64_grid].
    destruct (rem_range n' 255) as [R0 R1]; [lra..|].
    apply round64_unit.
    + apply Qle_shift_div_l; lra.
    + apply Qle_shift_div_r; lra.
Qed.

Lemma Js_max3_cases r g b :
  let M := Js.max3 r g b in
  r <= M /\ g <= M /\ b <= M /\ (M = r \/ M = g \/ M = b).
Proof.
  unfold Js.max3.
  destruct (Js_max_spec r g) as [[? ->]|[? ->]];
    [destruct (Js_max_spec g b) as [[? ->]|[? ->]]
    |destruct (Js_max_spec r b) as [[? ->]|[? ->]]];
    repeat split; auto; lra.
Qed.

Lemma Js_min3_cases r g b :
  let m := Js.min3 r g b in
  m <= r /\ m <= g /\ m <= b /\ (m = r \/ m = g \/ m = b).
Proof.
  unfold Js.min3.
  destruct (Js_min_spec r g) as [[? ->]|[? ->]];
    [destruct (Js_min_spec r b) as [[? ->]|[? ->]]
    |destruct (Js_min_spec g b) as [[? ->]|[? ->]]];
    repeat split; auto; lra.
Qed.

(** A quotient of a rounded difference by the rounded spread. *)
Lemma quotient64 x y M m :
  m <= x <= M -> m <= y <= M -> 0 < Double.sub M m ->
  let q := Double.div (Double.sub x y) (Double.sub M m) in
  -(1) <= q <= 1 /\ (x <= y -> q <= 0) /\ (y <= x -> 0 <= q).
Proof.
  intros Hx Hy Hd q. unfold q, Double.div, Double.sub in *.
  set (d := Double.round (M - m)) in *.
  assert (Hi : Double.round (x - y) <= d) by (apply round64_monotone; lra).
  assert (Lo : - d <= Double.round (x - y)).
  { unfold d. rewrite <- round64_opp. apply round64_monotone. lra. }
  assert (Z0 : Double.round 0 == 0) by exact64.
  split; [|split].
  - between64.
    + apply Qle_shift_div_l; lra.
    + apply Qle_shift_div_r; lra.
  - intros H. rewrite <- Z0. apply round64_monotone.
    apply Qle_shift_div_r; [exact Hd|].
    assert (Double.round (x - y) <= Double.round 0) by (apply round64_monotone; lra). lra.
  - intros H. rewrite <- Z0 at 1. apply round64_monotone.
    apply Qle_shift_div_l; [exact Hd|].
    assert (Double.round 0 <= Double.round (x - y)) by (apply round64_monotone; lra). lra.
Qed.

(** On binary64 the three components of [rgbToHsl] lie in [0, 1], the
    ends included, whatever the channels are; and where the function
    divides, the divisor is positive. *)
Lemma rgbToHsl64_range r g b :
  let '(h, s, l) := Double.rgbToHsl r g b in
  0 <= h <= 1 /\ 0 <= s <= 1 /\ 0 <= l <= 1.
Proof.
  unfold Double.rgbToHsl.
  destruct (bound01_64 r) as [Hr Gr]. destruct (bound01_64 g) as [Hg Gg].
  destruct (bound01_64 b) as [Hb Gb].
  set (r' := Double.bound01 r 255) in *. set (g' := Double.bound01 g 255) in *.
  set (b' := Double.bound01 b 255) in *.
  destruct (Js_max3_cases r' g' b') as (Mr & Mg & Mb & HM).
  destruct (Js_min3_cases r' g' b') as (mr & mg & mb & Hm).
  set (M := Js.max3 r' g' b') in *. set (m := Js.min3 r' g' b') in *.
  assert (GM : exists k, M == inject_Z k * 2 ^ (-1074))
    by (destruct HM as [-> | [-> | ->]]; assumption).
  assert (Gm : exists k, m == inject_Z k * 2 ^ (-1074))
    by (destruct Hm as [-> | [-> | ->]]; assumption).
  assert (M1 : M <= 1) by (destruct HM as [E|[E|E]]; rewrite E; lra).
  assert (m0 : 0 <= m) by (destruct Hm as [E|[E|E]]; rewrite E; lra).
  assert (Hl : 0 <= Double.div (Double.add M m) 2 <= 1).
  { unfold Double.div, Double.add.
    assert (0 <= Double.round (M + m) <= 2) by (between64; lra).
    apply round64_unit.
    - apply Qle_shift_div_l; lra.
    - apply Qle_shift_div_r; lra. }
  destruct (Js_eq_spec M m) as [E|N]; [repeat split; try lra; apply Hl|].
  assert (Hd : 0 < Double.sub M m) by (apply sub64_pos; try assumption; lra).
  assert (D1 : 0 <= Double.sub M m <= 1) by (unfold Double.sub; between64; lra).
  split; [|split; [|exact Hl]].
  - (* the hue *)
    assert (H6 : forall h6, 0 <= h6 <= 6 -> 0 <= Double.div h6 6 <= 1).
    { intros h6 [? ?]. unfold Double.div. apply round64_unit.
      - apply Qle_shift_div_l; lra.
      - apply Qle_shift_div_r; lra. }
    apply H6.
    destruct (Js_eq_spec M r') as [_|_]; [|destruct (Js_eq_spec M g') as [_|_]].
    + destruct (quotient64 g' b' M m) as (Q & Qn & Qp); try lra; try assumption.
      unfold Double.add. destruct (Js_lt_spec g' b').
      * specialize (Qn ltac:(lra)).
        assert (5 <= Double.round (Double.div (Double.sub g' b') (Double.sub M m) + 6) <= 6)
          by (between64; lra).
        lra.
      * specialize (Qp ltac:(lra)).
        assert (0 <= Double.round (Double.div (Double.sub g' b') (Double.sub M m) + 0) <= 1)
          by (between64; lra).
        lra.
    + destruct (quotient64 b' r' M m) as (Q & _); try lra; try assumption.
      unfold Double.add.
      assert (1 <= Double.round (Double.div (Double.sub b' r') (Double.sub M m) + 2) <= 3)
        by (between64; lra).
      lra.
    + destruct (quotient64 r' g' M m) as (Q & _); try lra; try assumption.
      unfold Double.add.
      assert (3 <= Double.round (Double.div (Double.sub r' g') (Double.sub M m) + 4) <= 5)
        by (between64; lra).
      lra.
  - (* the saturation *)
    assert (S : forall den, Double.sub M m <= den -> 0 <= Double.div (Double.sub M m) den <= 1).
    { intros den Hden. unfold Double.div. apply round64_unit.
      - apply Qle_shift_div_l; lra.
      - apply Qle_shift_div_r; lra. }
    destruct (Js_lt_spec (1 # 2) (Double.div (Double.add M m) 2)); apply S;
      unfold Double.sub, Double.add; apply round64_monotone.
    + assert (1 <= Double.round (2 - M)).
      { assert (E1 : Double.round 1 == 1) by exact64. rewrite <- E1 at 1.
        apply round64_monotone. lra. }
      lra.
    + lra.
Qed.

Lemma toHsl64_range c :
  let '(h, s, l) := Double.toHsl c in
  0 <= h <= 360 /\ 0 <= s <= 1 /\ 0 <= l <= 1.
Proof.
  unfold Double.toHsl. pose proof (rgbToHsl64_range (_r c) (_g c) (_b c)) as H.
  destruct (Double.rgbToHsl (_r c) (_g c) (_b c)) as [[h s] l].
  destruct H as (Hh & Hs & Hl). split; [|split; assumption].
  unfold Double.mul. between64.
  - assert (0 <= h * 360) by (apply Qmult_le_0_compat; lra). lra.
  - lra.
Qed.

(** ** Binary64: the picker stays in range *)

Lemma round64_binade x k :
  2 ^ k <= x -> x < 2 ^ (k + 1) -> (-1074 <= k - 52)%Z ->
  Double.round x == inject_Z (Double.rne (x / 2 ^ (k - 52))) * 2 ^ (k - 52).
Proof.
  intros H0 H1 Hk. pose proof (pow2_pos k) as P.
  assert (Hx : 0 < x) by lra.
  rewrite round64_nonzero by lra.
  rewrite (ulpExponent_pos x Hx), (ilog2_unique x k H0 H1).
  now replace (Z.max (k - 52) (-1074)) with (k - 52)%Z by lia.
Qed.

(** The sum [angleDeg + 360] of a negative angle: it rounds to 360 when
    the angle is no further from zero than 2^-45, and stays a unit in the
    last place below 360 otherwise. *)
Lemma round64_below_360 x :
  x < 360 ->
  (360 - 2 ^ (-45) <= x -> Double.round x == 360) /\
  (x < 360 - 2 ^ (-45) -> Double.round x <= 360 - 2 ^ (-44)).
Proof.
  intros Hx.
  assert (E45 : 2 ^ (-45) == 1 # 35184372088832) by exact64.
  assert (E44 : 2 ^ (-44) == 1 # 17592186044416) by exact64.
  destruct (Qlt_le_dec x 256) as [Lo|Hi].
  - set (u := 2 ^ (-45)) in *. set (v := 2 ^ (-44)) in *.
    split; [intros C; exfalso; lra|intros _].
    assert (R : Double.round x <= Double.round 256) by (apply round64_monotone; lra).
    assert (E : Double.round 256 == 256) by exact64. lra.
  - assert (B0 : 2 ^ 8 <= x) by (change (2 ^ 8) with 256; exact Hi).
    assert (B1 : x < 2 ^ (8 + 1)) by (change (2 ^ (8 + 1)) with 512; lra).
    rewrite (round64_binade x 8 B0 B1) by lia.
    change (8 - 52)%Z with (-44)%Z.
    set (q := x / 2 ^ (-44)).
    assert (Eq : q == x * 17592186044416) by (unfold q; rewrite E44; field).
    set (u := 2 ^ (-45)) in *. set (v := 2 ^ (-44)) in *.
    pose proof (rne_close q) as [C0 C1].
    split; intros H.
    + assert (F : Qfloor q = 6333186975989759%Z).
      { apply Qfloor_unique; unfold inject_Z; lra. }
      destruct (rne_cases q) as [[A ->]|[[A ->]|[A ->]]]; rewrite F in *.
      * exfalso. unfold inject_Z in A. lra.
      * cbn [Z.even]. unfold inject_Z. cbn [Z.add Pos.add Pos.succ]. lra.
      * unfold inject_Z. cbn [Z.add Pos.add Pos.succ]. lra.
    + assert (L : (Double.rne q < 6333186975989760)%Z)
        by (rewrite Zlt_Qlt; unfold inject_Z at 2; lra).
      assert (L' : (Double.rne q <= 6333186975989759)%Z) by lia.
      rewrite Zle_Qle in L'. unfold inject_Z at 2 in L'.
      assert (0 <= (6333186975989759 - inject_Z (Double.rne q)) * v)
        by (apply Qmult_le_0_compat; lra).
      lra.
Qed.

Lemma setHueFromAngle64_hue a st :
  Double.fromAtan2 a ->
  0 <= Double.currentHue (Double.setHueFromAngle a st) <= 360.
Proof.
  intros [Hlo Hhi]. unfold Double.setHueFromAngle, Double.add.
  cbn [Double.currentHue Double.setHsl].
  js_case; [|lra]. between64; lra.
Qed.

Lemma clamp64_unit q : 0 <= Js.max 0 (Js.min 1 q) <= 1.
Proof. unfold Js.max, Js.min. repeat js_case; lra. Qed.

Lemma baseColorInput_input64_inRange color st :
  Double.inRange st -> Double.inRange (Double.baseColorInput_input color st).
Proof.
  intros H. unfold Double.baseColorInput_input.
  destruct (isValid color); [|exact H].
  pose proof (toHsl64_range color) as R.
  destruct (Double.toHsl color) as [[h s] l]. exact R.
Qed.

Lemma setHueFromAngle64_inRange a st :
  Double.fromAtan2 a -> Double.inRange st -> Double.inRange (Double.setHueFromAngle a st).
Proof.
  intros Ha (_ & Hs & Hl). split; [now apply setHueFromAngle64_hue|].
  split; assumption.
Qed.

Lemma setSLFromPoint64_inRange x y st :
  Double.inRange st -> Double.inRange (Double.setSLFromPoint x y st).
Proof.
  intros (Hh & _ & _). unfold Double.setSLFromPoint, Double.inRange.
  cbn [Double.currentHue Double.currentSaturation Double.currentLightness Double.setHsl].
  split; [exact Hh|]. split; [apply clamp64_unit|].
  pose proof (clamp64_unit (Double.div y slPickerCanvas_height)).
  unfold Double.sub. apply round64_unit; lra.
Qed.

Lemma handle64_inRange ev st :
  Double.admissible ev -> Double.inRange st -> Double.inRange (Double.handle ev st).
Proof.
  intros Hev H. destruct ev as [color|a|a|x y|x y| | | | |]; cbn [Double.handle]; try exact H.
  - now apply baseColorInput_input64_inRange.
  - unfold Double.hueWheelCanvas_mousedown. now apply setHueFromAngle64_inRange.
  - unfold Double.hueWheelCanvas_mousemove.
    destruct (Double.isDraggingHue st); [now apply setHueFromAngle64_inRange|exact H].
  - unfold Double.slPickerCanvas_mousedown. now apply setSLFromPoint64_inRange.
  - unfold Double.slPickerCanvas_mousemove.
    destruct (Double.isDraggingSL st); [now apply setSLFromPoint64_inRange|exact H].
Qed.

Lemma initialPicker_inRange : Double.inRange Double.initialPicker.
Proof. repeat split; vm_compute; discriminate. Qed.

Lemma reachable64_inRange st : Double.reachable st -> Double.inRange st.
Proof.
  induction 1 as [initialColor|st ev _ IH Hev].
  - unfold Double.initializeApp. destruct (isValid initialColor).
    + pose proof (toHsl64_range initialColor) as R.
      destruct (Double.toHsl initialColor) as [[h s] l]. exact R.
    + apply initialPicker_inRange.
  - now apply handle64_inRange.
Qed.

(** [Math.atan2] returns an angle between [-Math.PI] and [Math.PI]; in
    degrees it lies between -180 and 180. *)
Lemma atan2_degrees angleRad :
  - Double.Math_PI <= angleRad <= Double.Math_PI ->
  Double.fromAtan2 (Double.div (Double.mul angleRad 180) Double.Math_PI).
Proof.
  intros [Hlo Hhi]. unfold Double.fromAtan2, Double.div, Double.mul.
  assert (Pi : 0 < Double.Math_PI) by reflexivity.
  assert (Up : Double.round (Double.round (angleRad * 180) / Double.Math_PI) <=
               Double.round (Double.round (Double.Math_PI * 180) / Double.Math_PI)).
  { apply round64_monotone, Qmult_le_compat_r;
      [apply round64_monotone; lra|apply Qlt_le_weak, Qinv_lt_0_compat, Pi]. }
  assert (Dn : Double.round (Double.round (- Double.Math_PI * 180) / Double.Math_PI) <=
               Double.round (Double.round (angleRad * 180) / Double.Math_PI)).
  { apply round64_monotone, Qmult_le_compat_r;
      [apply round64_monotone; lra|apply Qlt_le_weak, Qinv_lt_0_compat, Pi]. }
  assert (E1 : Double.round (Double.round (Double.Math_PI * 180) / Double.Math_PI) == 180)
    by exact64.
  assert (E2 : Double.round (Double.round (- Double.Math_PI * 180) / Double.Math_PI) == -(180))
    by exact64.
  lra.
Qed.

(** ** Binary64: the marker of the pad *)

(** The rounding error of a number no larger than [B] in size is at most
    [B * 2^-53]. *)
Lemma round64_error_bound t B :
  Qabs t <= B -> 1 <= B ->
  - (B * 2 ^ (-53)) <= Double.round t - t <= B * 2 ^ (-53).
Proof.
  intros Ht HB.
  assert (E53 : 2 ^ (-53) == 1 # 9007199254740992) by exact64.
  destruct (Qeq_dec t 0) as [Z|N].
  - rewrite (round64_zero t Z), Z, E53. split; lra.
  - pose proof (round64_error t N) as E. apply Qabs_Qle_condition in E.
    assert (P : 0 < Qabs t).
    { destruct (Qlt_le_dec 0 t); [rewrite Qabs_pos; lra|].
      rewrite Qabs_neg by lra. assert (~ - t == 0) by (intros C; apply N; lra). lra. }
    destruct (ilog2_spec (Qabs t) P) as [S0 _].
    assert (L : 2 ^ Double.ulpExponent t * (1 # 2) <= B * 2 ^ (-53)).
    { unfold Double.ulpExponent.
      destruct (Z.max_spec (Double.ilog2 (Qabs t) - 52) (-1074)) as [[_ ->]|[_ ->]].
      - assert (C : 2 ^ (-1074) * (1 # 2) <= 2 ^ (-53)) by (vm_compute; discriminate).
        set (u := 2 ^ (-1074)) in *. set (v := 2 ^ (-53)) in *.
        assert (0 <= (B - 1) * v) by (apply Qmult_le_0_compat; lra). lra.
      - unfold Z.sub. rewrite pow2_plus.
        assert (C : 2 ^ (- (52)) * (1 # 2) == 2 ^ (-53)) by exact64.
        set (p := 2 ^ Double.ilog2 (Qabs t)) in *.
        set (u := 2 ^ (- (52))) in *. set (v := 2 ^ (-53)) in *.
        assert (0 <= (B - p) * v) by (apply Qmult_le_0_compat; lra).
        assert (p * (u * (1 # 2)) == p * v) by now rewrite C.
        lra. }
    set (e := 2 ^ Double.ulpExponent t * (1 # 2)) in *.
    set (v := B * 2 ^ (-53)) in *. split; lra.
Qed.

Lemma round64_error_unit t :
  0 <= t -> t <= 1 -> - 2 ^ (-53) <= Double.round t - t <= 2 ^ (-53).
Proof.
  intros H0 H1. destruct (round64_error_bound t 1) as [A B]; [rewrite Qabs_pos; lra|lra|].
  set (v := 2 ^ (-53)) in *. split; lra.
Qed.

(** The clamp of lines 530-531 on a number that is already in [0, 1]. *)
Lemma clamp64_id q : 0 <= q -> q <= 1 -> Js.max 0 (Js.min 1 q) == q.
Proof. intros H0 H1. unfold Js.max, Js.min. repeat js_case; lra. Qed.

Lemma clamp64_low q : q <= 0 -> Js.max 0 (Js.min 1 q) == 0.
Proof. intros H. unfold Js.max, Js.min. repeat js_case; lra. Qed.

Lemma clamp64_high q : 1 <= q -> Js.max 0 (Js.min 1 q) == 1.
Proof. intros H. unfold Js.max, Js.min. repeat js_case; lra. Qed.

(** A ratio [x / w] rounded, and multiplied back by [w]. *)
Lemma ratio64 x w :
  1 <= w -> 0 <= x <= w ->
  let s := Double.div x w in
  0 <= s <= 1 /\ - (w * 2 ^ (-53)) <= s * w - x <= w * 2 ^ (-53).
Proof.
  intros Hw [H0 H1] s. unfold s, Double.div.
  assert (T0 : 0 <= x / w) by (apply Qle_shift_div_l; lra).
  assert (T1 : x / w <= 1) by (apply Qle_shift_div_r; lra).
  assert (E : x / w * w == x) by (field; lra).
  destruct (round64_error_unit (x / w) T0 T1) as [A B].
  split; [now apply round64_unit|].
  set (v := 2 ^ (-53)) in *. set (t := x / w) in *.
  assert (0 <= (Double.round t - t + v) * w) by (apply Qmult_le_0_compat; lra).
  assert (0 <= (v - (Double.round t - t)) * w) by (apply Qmult_le_0_compat; lra).
  split; lra.
Qed.

(** The abscissa of the marker after a press at [x]. *)
Lemma marker64_x x w :
  1 <= w -> Double.round w == w ->
  let mx := Double.mul (Js.max 0 (Js.min 1 (Double.div x w))) w in
  (0 <= x <= w -> - (w * 2 ^ (-52)) <= mx - x <= w * 2 ^ (-52)) /\
  (x <= 0 -> mx == 0) /\
  (w <= x -> mx == w).
Proof.
  intros Hw Rw mx. unfold mx, Double.mul.
  assert (Z0 : Double.round 0 == 0) by exact64.
  assert (Z1 : Double.round 1 == 1) by exact64.
  split; [|split].
  - intros Hx. destruct (ratio64 x w Hw Hx) as [[S0 S1] [A B]].
    rewrite (round64_comp _ (Double.div x w * w))
      by (rewrite clamp64_id by assumption; reflexivity).
    set (s := Double.div x w) in *.
    assert (P0 : 0 <= s * w) by (apply Qmult_le_0_compat; lra).
    assert (P1 : 0 <= (1 - s) * w) by (apply Qmult_le_0_compat; lra).
    destruct (round64_error_bound (s * w) w) as [C D]; [rewrite Qabs_pos; lra|lra|].
    assert (E : 2 ^ (-52) == 2 * 2 ^ (-53)) by exact64.
    rewrite E. set (v := 2 ^ (-53)) in *. split; lra.
  - intros Hx.
    assert (L : Double.div x w <= 0).
    { unfold Double.div. rewrite <- Z0. apply round64_monotone.
      apply Qle_shift_div_r; lra. }
    rewrite (round64_comp _ 0) by (rewrite clamp64_low by assumption; ring).
    exact Z0.
  - intros Hx.
    assert (L : 1 <= Double.div x w).
    { unfold Double.div. rewrite <- Z1 at 1. apply round64_monotone.
      apply Qle_shift_div_l; lra. }
    rewrite (round64_comp _ w) by (rewrite clamp64_high by assumption; ring).
    exact Rw.
Qed.

(** The ordinate of the marker after a press at [y]: the lightness is
    [1 - y / h], and the marker is drawn at [(1 - lightness) * h]. *)
Lemma marker64_y y h :
  1 <= h -> Double.round h == h ->
  let l := Double.sub 1 (Js.max 0 (Js.min 1 (Double.div y h))) in
  let my := Double.mul (Double.sub 1 l) h in
  (0 <= y <= h -> - (h * 2 ^ (-51)) <= my - y <= h * 2 ^ (-51)) /\
  (y <= 0 -> my == 0) /\
  (h <= y -> my == h).
Proof.
  intros Hh Rh l my. unfold my, l, Double.mul, Double.sub.
  assert (Z0 : Double.round 0 == 0) by exact64.
  assert (Z1 : Double.round 1 == 1) by exact64.
  split; [|split].
  - intros Hy. destruct (ratio64 y h Hh Hy) as [[T0 T1] [A B]].
    set (t := Double.div y h) in *.
    set (c := Js.max 0 (Js.min 1 t)).
    assert (Ec : c == t) by now apply clamp64_id.
    assert (L : 0 <= Double.round (1 - c) <= 1) by (apply round64_unit; lra).
    destruct (round64_error_unit (1 - c)) as [L0 L1]; [lra..|].
    set (lv := Double.round (1 - c)) in *.
    assert (U : 0 <= Double.round (1 - lv) <= 1) by (apply round64_unit; lra).
    destruct (round64_error_unit (1 - lv)) as [U0 U1]; [lra..|].
    set (u := Double.round (1 - lv)) in *.
    assert (P0 : 0 <= u * h) by (apply Qmult_le_0_compat; lra).
    assert (P1 : 0 <= (1 - u) * h) by (apply Qmult_le_0_compat; lra).
    destruct (round64_error_bound (u * h) h) as [C D]; [rewrite Qabs_pos; lra|lra|].
    assert (E : 2 ^ (-51) == 4 * 2 ^ (-53)) by exact64.
    rewrite E. set (v := 2 ^ (-53)) in *.
    assert (0 <= (u - t + 2 * v) * h) by (apply Qmult_le_0_compat; lra).
    assert (0 <= (t - u + 2 * v) * h) by (apply Qmult_le_0_compat; lra).
    split; lra.
  - intros Hy.
    assert (L : Double.div y h <= 0).
    { unfold Double.div. rewrite <- Z0. apply round64_monotone.
      apply Qle_shift_div_r; lra. }
    assert (Ec : Js.max 0 (Js.min 1 (Double.div y h)) == 0) by now apply clamp64_low.
    set (c := Js.max 0 (Js.min 1 (Double.div y h))) in *.
    assert (E1 : Double.round (1 - c) == 1)
      by (rewrite (round64_comp _ 1); [exact Z1|rewrite Ec; ring]).
    assert (E2 : Double.round (1 - Double.round (1 - c)) == 0)
      by (rewrite (round64_comp _ 0); [exact Z0|rewrite E1; ring]).
    rewrite (round64_comp _ 0); [exact Z0|rewrite E2; ring].
  - intros Hy.
    assert (L : 1 <= Double.div y h).
    { unfold Double.div. rewrite <- Z1 at 1. apply round64_monotone.
      apply Qle_shift_div_l; lra. }
    assert (Ec : Js.max 0 (Js.min 1 (Double.div y h)) == 1) by now apply clamp64_high.
    set (c := Js.max 0 (Js.min 1 (Double.div y h))) in *.
    assert (E1 : Double.round (1 - c) == 0)
      by (rewrite (round64_comp _ 0); [exact Z0|rewrite Ec; ring]).
    assert (E2 : Double.round (1 - Double.round (1 - c)) == 1)
      by (rewrite (round64_comp _ 1); [exact Z1|rewrite E1; ring]).
    rewrite (round64_comp _ h); [exact Rh|rewrite E2; ring].
Qed.

(** ** Palette size *)

(** C1: for every valid hex colour string and each of the seven harmony
    rules the derived palette has exactly 5 elements; for any other rule it
    is the single normalized base colour. *)
Theorem palette_size (h rule : string) :
  validHex h = true ->
  exists palette,
    generateHarmonyPalette h rule = inr palette /\
    (In rule harmonyRules -> List.length palette = 5%nat) /\
    (~ In rule harmonyRules -> palette = [toHexString (tinycolor h)]).
Proof.
  intros Hh. pose proof (validHex_isValid h Hh) as Hv.
  destruct (in_dec string_dec rule harmonyRules) as [Hin|Hout].
  - destruct (palette_length h rule Hv Hin) as (palette & E & L).
    exists palette. repeat split; auto. contradiction.
  - exists [toHexString (tinycolor h)]. repeat split.
    + now apply palette_default.
    + contradiction.
Qed.

(** ** The [complement] rule *)

(** C2 (amended): for every valid base colour the [complement] rule returns
    the base, the base lightened by 20%, its complement, the hex-normalized
    complement lightened by 20%, and the base hue-spun by 30 degrees and
    then desaturated by 10%, each as a normalized hex string. *)
Theorem complement_palette (h : string) :
  validHex h = true ->
  let base := tinycolor h in
  generateHarmonyPalette h "complement" =
    inr [toHexString base;
         toHexString (lighten 20 base);
         toHexString (complement base);
         toHexString (lighten 20 (tinycolor (toHexString (complement base))));
         toHexString (desaturate 10 (spin 30 base))].
Proof. intros Hh base. apply palette_complement, validHex_hexRead, Hh. Qed.

(** ** The [shades] rule *)

(** C5: for every valid base colour the [shades] rule returns the base
    darkened by 30% and by 15%, the base, and the base lightened by 15% and
    by 30%; the element at index 2 is the normalized hex of the base. *)
Theorem shades_palette (h : string) :
  validHex h = true ->
  let base := tinycolor h in
  exists palette,
    generateHarmonyPalette h "shades" = inr palette /\
    palette = [toHexString (darken 30 base);
               toHexString (darken 15 base);
               toHexString base;
               toHexString (lighten 15 base);
               toHexString (lighten 30 base)] /\
    nth_error palette 2 = Some (toHexString (tinycolor h)).
Proof.
  intros Hh base. eexists. split; [|split; [reflexivity|reflexivity]].
  apply palette_shades, validHex_hexRead, Hh.
Qed.

(** ** The [monochromatic] rule *)

(** C6 (amended): for every valid base colour, every element of the
    [monochromatic] palette is the hex string of the colour built from the
    HSV hue and saturation of the base, with the value stepping from the
    base's by 1/5 modulo 1. *)
Theorem monochromatic_palette (h : string) :
  validHex h = true ->
  let '(hue, sat, v0) := toHsv (tinycolor h) in
  let v1 := Js.rem (v0 + (1 # 5)) 1 in
  let v2 := Js.rem (v1 + (1 # 5)) 1 in
  let v3 := Js.rem (v2 + (1 # 5)) 1 in
  let v4 := Js.rem (v3 + (1 # 5)) 1 in
  generateHarmonyPalette h "monochromatic" =
    inr (map (fun v => toHexString (fromHsv hue sat v)) [v0; v1; v2; v3; v4]).
Proof.
  intros Hh. rewrite (palette_monochromatic h (validHex_isValid h Hh)).
  unfold monochromatic. destruct (toHsv (tinycolor h)) as [[hue sat] v0].
  reflexivity.
Qed.

(** ** The hue wheel *)

(** C3 (amended): on binary64, for an angle in the range of [atan2] (-180
    to 180 degrees) the wheel update stores the angle itself when it is not
    negative and the number nearest to the angle plus 360 when it is
    negative, and leaves saturation and lightness unchanged.  The hue lies
    in [0, 360], the end 360 included: the sum rounds to 360 when the
    negative angle is no further from zero than 2^-45, and the hue is below
    360 otherwise.  In particular -10 yields 350. *)
Theorem wheel_angle (a : Q) (st : Double.picker) :
  Double.fromAtan2 a ->
  let st' := Double.hueWheelCanvas_mousedown a st in
  0 <= Double.currentHue st' <= 360 /\
  (0 <= a -> Double.currentHue st' == a) /\
  (a < 0 -> Double.currentHue st' == Double.round (a + 360)) /\
  (- 2 ^ (-45) <= a < 0 -> Double.currentHue st' == 360) /\
  (~ - 2 ^ (-45) <= a < 0 -> Double.currentHue st' < 360) /\
  Double.currentSaturation st' = Double.currentSaturation st /\
  Double.currentLightness st' = Double.currentLightness st /\
  (a == -(10) -> Double.currentHue st' == 350).
Proof.
  intros Ha st'. pose proof Ha as [Hlo Hhi].
  pose proof (setHueFromAngle64_hue a (Double.setDragging true (Double.isDraggingSL st) st) Ha)
    as Hr.
  unfold st', Double.hueWheelCanvas_mousedown in *.
  unfold Double.setHueFromAngle, Double.add in *.
  cbn [Double.currentHue Double.currentSaturation Double.currentLightness
         Double.setHsl Double.setDragging] in *.
  destruct (Js_lt_spec a 0) as [Neg|Pos].
  - destruct (round64_below_360 (a + 360)) as [Top Below]; [lra|].
    pose proof (pow2_pos (-45)) as P45.
    assert (E44 : 2 ^ (-44) == 1 # 17592186044416) by (vm_compute; reflexivity).
    set (u := 2 ^ (-45)) in *. set (v := 2 ^ (-44)) in *.
    split; [exact Hr|]. split; [intros; lra|]. split; [reflexivity|].
    split; [intros [? _]; apply Top; lra|].
    split; [|split; [reflexivity|split; [reflexivity|]]].
    + intros N. assert (a + 360 < 360 - u).
      { destruct (Qlt_le_dec (a + 360) (360 - u)); [assumption|].
        exfalso. apply N. split; lra. }
      specialize (Below ltac:(assumption)). lra.
    + intros E. rewrite E. vm_compute. reflexivity.
  - split; [exact Hr|]. split; [reflexivity|]. split; [intros; lra|].
    split; [intros [_ ?]; lra|]. split; [intros _; lra|].
    split; [reflexivity|]. split; [reflexivity|]. intros E. lra.
Qed.

(** ** Rejected input *)

(** C4 (amended): the parser rejects exactly the malformed strings: those
    that, once trimmed and put in lower case, are not a colour name of the
    library's table, not ["transparent"], not captured by a functional
    notation, and not 8, 6, 4 or 3 hex digits after an optional [#].  For
    every malformed string, such as ["notacolor"], [""] and ["#12"], the
    derivation fails with [InvalidBaseColor], and the text listener
    displays no palette and leaves the picker triple unchanged.  Every
    other string derives a palette: ["red"], ["transparent"], ["#abcd"]
    and ["3498dbff"] are not malformed. *)
Theorem rejected_base_color (s rule : string) (st : state) :
  isValid (tinycolor s) = negb (malformed s) /\
  (malformed s = true ->
   generateHarmonyPalette s rule = inl (InvalidBaseColor invalidBaseColorAlert) /\
   paletteDisplay (baseColorInput_input s st) = paletteDisplay st /\
   samePicker st (baseColorInput_input s st)) /\
  (malformed s = false -> exists palette, generateHarmonyPalette s rule = inr palette) /\
  malformed "notacolor" = true /\ malformed "" = true /\ malformed "#12" = true /\
  malformed "red" = false /\ malformed "transparent" = false /\
  malformed "#abcd" = false /\ malformed "3498dbff" = false.
Proof.
  assert (V : isValid (tinycolor s) = negb (malformed s)).
  { unfold malformed. rewrite negb_involutive. apply isValid_wellFormed. }
  split; [exact V|]. split; [|split].
  - intros M. rewrite M in V. cbn [negb] in V.
    assert (Hin : baseColorInput_input s st = setBaseColorInput s st).
    { unfold baseColorInput_input. cbn [baseColorInput_value setBaseColorInput].
      now rewrite V. }
    rewrite Hin.
    split; [unfold generateHarmonyPalette; now rewrite V|].
    split; [reflexivity|]. repeat split; reflexivity.
  - intros M. rewrite M in V. now apply derive_valid.
  - rewrite malformed_notacolor, malformed_empty, malformed_short, wellFormed_red,
      wellFormed_transparent, wellFormed_hex4, wellFormed_hex8.
    repeat split; reflexivity.
Qed.

(** ** The random palette *)

(** C7: for every outcome of the random source the random palette has
    exactly 5 strings, each matching [^#[0-9A-Fa-f]{6}$]. *)
Theorem random_palette (rand : nat -> Q) (pos : nat) :
  unitInterval rand ->
  List.length (fst (generatePalette rand pos)) = 5%nat /\
  Forall (fun c => matchesHexColor c = true) (fst (generatePalette rand pos)).
Proof.
  intros Hr. unfold generatePalette.
  destruct (generatePaletteLoop_shape rand Hr NUM_COLORS_PER_PALETTE pos [])
    as [L F]; [constructor|].
  split; [exact L|exact F].
Qed.

(** ** The picker triple stays in range *)

(** C8 (amended): on binary64, in every state the script reaches, and
    after every listener run from it, the picker triple satisfies hue in
    [0, 360], the end 360 included, saturation in [0, 1] and lightness in
    [0, 1], wherever the pointer is (the canvas having a positive width and
    height) and whatever colour is typed.  The end 360 is reached: a press
    on the wheel at a negative angle no further from zero than 2^-45 stores
    the hue 360. *)
Theorem picker_in_range (st : Double.picker) :
  0 < slPickerCanvas_width -> 0 < slPickerCanvas_height ->
  Double.reachable st ->
  Double.inRange st /\
  (forall ev, Double.admissible ev -> Double.inRange (Double.handle ev st)) /\
  (forall a, - 2 ^ (-45) <= a < 0 ->
     Double.admissible (Double.HueMouseDown a) /\
     Double.currentHue (Double.handle (Double.HueMouseDown a) st) == 360).
Proof.
  intros _ _ H. pose proof (reachable64_inRange st H) as R.
  split; [exact R|]. split; [intros ev Hev; now apply handle64_inRange|].
  intros a [Lo Neg].
  assert (E45 : 2 ^ (-45) == 1 # 35184372088832) by (vm_compute; reflexivity).
  split.
  - cbn [Double.admissible]. unfold Double.fromAtan2.
    set (u := 2 ^ (-45)) in *. split; lra.
  - cbn [Double.handle]. unfold Double.hueWheelCanvas_mousedown, Double.setHueFromAngle.
    cbn [Double.currentHue Double.setHsl].
    destruct (Js_lt_spec a 0) as [_|Pos]; [|lra].
    unfold Double.add.
    destruct (round64_below_360 (a + 360)) as [Top _]; [lra|].
    apply Top. set (u := 2 ^ (-45)) in *. lra.
Qed.

(** ** Generating from the picker *)

(** C9: for every picker state, [handleGenerateHarmony] first overwrites
    the hex text field with the hex string of the current triple, and the
    derivation on it never fails: a palette is returned and displayed, and
    no alert is raised. *)
Theorem generate_never_invalid (st : state) :
  let hex :=
    toHexString
      (fromHsl (currentHue st) (currentSaturation st) (currentLightness st) None) in
  exists palette,
    snd (handleGenerateHarmony st) = inr palette /\
    generateHarmonyPalette hex (harmonyRuleSelect_value st) = inr palette /\
    baseColorInput_value (fst (handleGenerateHarmony st)) = hex /\
    alerts (fst (handleGenerateHarmony st)) = alerts st.
Proof.
  intros hex.
  assert (Hv : isValid (tinycolor hex) = true) by apply isValid_toHexString.
  destruct (derive_valid hex (harmonyRuleSelect_value st) Hv) as [palette E].
  exists palette. unfold handleGenerateHarmony.
  cbn [baseColorInput_value harmonyRuleSelect_value setBaseColorInput].
  fold hex. rewrite E. repeat split; reflexivity.
Qed.

(** ** Colour names *)

(** C10: ["red"] is not a hex string, yet the parser accepts it: the
    derivation returns a palette for every rule, and the text listener
    adopts the HSL triple (0, 1, 1/2) of the named colour. *)
Theorem css_name_accepted (rule : string) (st : state) :
  validHex "red" = false /\
  isValid (tinycolor "red") = true /\
  (exists palette, generateHarmonyPalette "red" rule = inr palette) /\
  currentHue (baseColorInput_input "red" st) == 0 /\
  currentSaturation (baseColorInput_input "red" st) == 1 /\
  currentLightness (baseColorInput_input "red" st) == 1 # 2.
Proof.
  assert (Hv : isValid (tinycolor "red") = true) by now rewrite tinycolor_red.
  split; [reflexivity|]. split; [exact Hv|]. split; [now apply derive_valid|].
  unfold baseColorInput_input. cbn [baseColorInput_value setBaseColorInput].
  rewrite Hv, tinycolor_red.
  match goal with
  | |- context [toHsl ?c] =>
      let v := eval vm_compute in (toHsl c) in
      replace (toHsl c) with v by (vm_compute; reflexivity)
  end.
  unfold updateColorFromPicker.
  match goal with
  | |- context [handleGenerateHarmony ?x] =>
      destruct (handleGenerateHarmony_picker x) as (-> & -> & ->)
  end.
  cbn [currentHue currentSaturation currentLightness setHsl].
  repeat split; reflexivity.
Qed.

(** * Further properties of the script *)

(** ** Normalized hex strings *)

Lemma toLowerCase_app a b : toLowerCase (a ++ b) = toLowerCase a ++ toLowerCase b.
Proof. induction a as [|c a IH]; simpl; [reflexivity|now rewrite IH]. Qed.

Lemma hexByte_lower n :
  (0 <= n <= 255)%Z -> toLowerCase (pad2 (toString16 n)) = pad2 (toString16 n).
Proof.
  intros Hn. apply String.eqb_eq.
  apply (byte_forall
           (fun n => String.eqb (toLowerCase (pad2 (toString16 n))) (pad2 (toString16 n))));
    [vm_compute; reflexivity|exact Hn].
Qed.

Lemma toHexString_normalizedHex o : normalizedHex (toHexString (construct o)) = true.
Proof.
  unfold normalizedHex. apply andb_true_intro. split.
  - destruct (toHexString_shape o) as (r1 & r2 & g1 & g2 & b1 & b2 & E & _ & _ & _ & H).
    rewrite E. simpl in H. simpl. exact H.
  - apply String.eqb_eq. destruct (construct_bytes o) as (Hr & Hg & Hb).
    unfold toHexString, rgbToHex. cbn [toLowerCase].
    rewrite !toLowerCase_app, !hexByte_lower by assumption. reflexivity.
Qed.

(** What the closing [map] of [generateHarmonyPalette] leaves at each
    position. *)
Lemma normalized_element color :
  normalizedHex (toHexString (tinycolor color)) = true /\
  isValid (tinycolor (toHexString (tinycolor color))) = true /\
  toHexString (tinycolor (toHexString (tinycolor color))) = toHexString (tinycolor color).
Proof.
  destruct (tinycolor_constructed color) as [o ->].
  split; [apply toHexString_normalizedHex|].
  split; [apply isValid_toHexString|apply normalize_construct].
Qed.

Lemma generateHarmonyPalette_valid b rule palette :
  generateHarmonyPalette b rule = inr palette -> isValid (tinycolor b) = true.
Proof.
  intros H. destruct (isValid (tinycolor b)) eqn:Hv; [reflexivity|].
  unfold generateHarmonyPalette in H. rewrite Hv in H. discriminate H.
Qed.

Lemma derive_normalized b rule :
  isValid (tinycolor b) = true ->
  exists colors,
    generateHarmonyPalette b rule =
      inr (map (fun color => toHexString (tinycolor color)) colors).
Proof.
  intros H. unfold generateHarmonyPalette. rewrite H. cbv [negb]. now eexists.
Qed.

Lemma generateHarmonyPalette_normalized b rule palette :
  generateHarmonyPalette b rule = inr palette ->
  exists colors, palette = map (fun color => toHexString (tinycolor color)) colors.
Proof.
  intros H. pose proof (generateHarmonyPalette_valid _ _ _ H) as Hv.
  destruct (derive_normalized b rule Hv) as [colors E].
  exists colors. congruence.
Qed.

Lemma generateHarmonyPalette_length b rule palette :
  generateHarmonyPalette b rule = inr palette ->
  (1 <= List.length palette <= 5)%nat.
Proof.
  intros H. pose proof (generateHarmonyPalette_valid _ _ _ H) as Hv.
  destruct (in_dec string_dec rule harmonyRules) as [Hin|Hout].
  - destruct (palette_length b rule Hv Hin) as (p & E & L).
    rewrite E in H. injection H as <-. lia.
  - rewrite (palette_default b rule Hv Hout) in H. injection H as <-.
    cbn [List.length]. lia.
Qed.

Lemma swatches_normalized colors :
  map toHexString
    (filter isValid
       (map tinycolor (map (fun color => toHexString (tinycolor color)) colors))) =
  map (fun color => toHexString (tinycolor color)) colors.
Proof.
  induction colors as [|c colors IH]; [reflexivity|].
  destruct (normalized_element c) as (_ & Hv & E).
  cbn [map filter]. rewrite Hv. cbn [map]. now rewrite E, IH.
Qed.

Lemma displayPalette_palette b rule palette title :
  generateHarmonyPalette b rule = inr palette ->
  displayPalette palette title = Swatches title palette.
Proof.
  intros H. pose proof (generateHarmonyPalette_length _ _ _ H) as L.
  destruct (generateHarmonyPalette_normalized _ _ _ H) as [colors ->].
  unfold displayPalette. rewrite swatches_normalized.
  destruct colors; [cbn [map List.length] in L; lia|reflexivity].
Qed.

(** ** What [handleGenerateHarmony] leaves behind *)

Lemma pickerHex_valid st : isValid (tinycolor (pickerHex st)) = true.
Proof. apply isValid_toHexString. Qed.

Lemma handleGenerateHarmony_run st :
  exists palette,
    generateHarmonyPalette (pickerHex st) (harmonyRuleSelect_value st) = inr palette /\
    handleGenerateHarmony st =
      (setDisplay
         (Swatches (ruleText (harmonyRuleSelect_value st) ++ " Harmony") palette)
         (setBaseColorInput (pickerHex st) st),
       inr palette).
Proof.
  destruct (derive_valid _ (harmonyRuleSelect_value st) (pickerHex_valid st)) as [palette E].
  exists palette. split; [exact E|].
  rewrite <- (displayPalette_palette _ _ _ (ruleText (harmonyRuleSelect_value st) ++ " Harmony") E).
  unfold pickerHex in E. unfold handleGenerateHarmony, pickerHex.
  cbn [baseColorInput_value harmonyRuleSelect_value setBaseColorInput].
  rewrite E. reflexivity.
Qed.

Lemma updateColorFromPicker_run st :
  exists palette,
    generateHarmonyPalette (pickerHex st) (harmonyRuleSelect_value st) = inr palette /\
    updateColorFromPicker st =
      setDisplay
        (Swatches (ruleText (harmonyRuleSelect_value st) ++ " Harmony") palette)
        (setBaseColorInput (pickerHex st) st).
Proof.
  destruct (handleGenerateHarmony_run st) as (palette & E & R).
  exists palette. split; [exact E|]. unfold updateColorFromPicker. now rewrite R.
Qed.

Lemma pickerHex_setDisplay d st : pickerHex (setDisplay d st) = pickerHex st.
Proof. reflexivity. Qed.

Lemma pickerHex_setBaseColorInput v st : pickerHex (setBaseColorInput v st) = pickerHex st.
Proof. reflexivity. Qed.

Lemma pickerHex_setDragging hue sl st : pickerHex (setDragging hue sl st) = pickerHex st.
Proof. reflexivity. Qed.

(** X1: [handleGenerateHarmony] shows exactly the palette it returns: one
    swatch per returned colour, labelled with that colour, under the title
    made of the selected option's text and [" Harmony"]; between 1 and 5
    swatches, never the fallback message. *)
Theorem harmony_palette_displayed (st : state) :
  exists palette,
    snd (handleGenerateHarmony st) = inr palette /\
    generateHarmonyPalette (pickerHex st) (harmonyRuleSelect_value st) = inr palette /\
    paletteDisplay (fst (handleGenerateHarmony st)) =
      Some (Swatches (ruleText (harmonyRuleSelect_value st) ++ " Harmony") palette) /\
    (1 <= List.length palette <= 5)%nat.
Proof.
  destruct (handleGenerateHarmony_run st) as (palette & E & R).
  exists palette. rewrite R. cbn [fst snd paletteDisplay setDisplay].
  repeat split; try reflexivity; try exact E;
    apply (generateHarmonyPalette_length _ _ _ E).
Qed.

(** X2: running [updateColorFromPicker] a second time changes nothing: the
    Generate button is idempotent. *)
Theorem generate_idempotent (st : state) :
  updateColorFromPicker (updateColorFromPicker st) = updateColorFromPicker st.
Proof.
  destruct (updateColorFromPicker_run st) as (palette & E & R).
  rewrite R.
  match goal with
  | |- updateColorFromPicker ?x = _ =>
      destruct (updateColorFromPicker_run x) as (palette' & E' & R')
  end.
  rewrite R'. rewrite pickerHex_setDisplay, pickerHex_setBaseColorInput in *.
  cbn [harmonyRuleSelect_value setDisplay setBaseColorInput] in *.
  rewrite E in E'. injection E' as <-. reflexivity.
Qed.

(** ** Invariants of the running page *)

Lemma updateColorFromPicker_alerts st : alerts (updateColorFromPicker st) = alerts st.
Proof. destruct (updateColorFromPicker_run st) as (palette & _ & ->). reflexivity. Qed.

Lemma handle_alerts ev st : alerts (handle ev st) = alerts st.
Proof.
  destruct ev; cbn [handle].
  - reflexivity.
  - apply updateColorFromPicker_alerts.
  - now rewrite updateColorFromPicker_alerts.
  - unfold baseColorInput_input.
    change (baseColorInput_value (setBaseColorInput text st)) with text.
    destruct (isValid (tinycolor text)); [|reflexivity].
    destruct (toHsl (tinycolor text)) as [[h s] l].
    now rewrite updateColorFromPicker_alerts.
  - unfold hueWheelCanvas_mousedown. now rewrite updateColorFromPicker_alerts.
  - unfold hueWheelCanvas_mousemove. destruct (isDraggingHue st); [|reflexivity].
    now rewrite updateColorFromPicker_alerts.
  - unfold slPickerCanvas_mousedown. now rewrite updateColorFromPicker_alerts.
  - unfold slPickerCanvas_mousemove. destruct (isDraggingSL st); [|reflexivity].
    now rewrite updateColorFromPicker_alerts.
  - reflexivity.
Qed.

Lemma initializeApp_run baseColor rule :
  exists st0,
    initializeApp (initialState baseColor rule) = updateColorFromPicker st0 /\
    alerts st0 = [] /\ harmonyRuleSelect_value st0 = rule /\
    (isValid (tinycolor baseColor) = false -> st0 = initialState baseColor rule).
Proof.
  unfold initializeApp.
  change (baseColorInput_value (initialState baseColor rule)) with baseColor.
  destruct (isValid (tinycolor baseColor)).
  - destruct (toHsl (tinycolor baseColor)) as [[h s] l].
    exists (setHsl h s l (initialState baseColor rule)).
    unfold updateColorFromPicker. repeat split. discriminate.
  - exists (initialState baseColor rule).
    unfold updateColorFromPicker. repeat split.
Qed.

(** X3: the invalid-colour alert of [generateHarmonyPalette] is never
    raised by the running page: in every state the script reaches, no
    alert has been shown. *)
Theorem alert_never_raised (baseColor rule : string) (st : state) :
  reachable baseColor rule st -> alerts st = [].
Proof.
  induction 1 as [|st ev _ IH _].
  - destruct (initializeApp_run baseColor rule) as (st0 & -> & H0 & _).
    now rewrite updateColorFromPicker_alerts.
  - now rewrite handle_alerts.
Qed.

Lemma palette_normalizedHex b rule palette :
  generateHarmonyPalette b rule = inr palette ->
  Forall (fun c => normalizedHex c = true) palette.
Proof.
  intros H. destruct (generateHarmonyPalette_normalized _ _ _ H) as [colors ->].
  apply Forall_forall. intros c Hc. apply in_map_iff in Hc as (color & <- & _).
  apply normalized_element.
Qed.

Lemma updateColorFromPicker_showsPalette st : showsPalette (updateColorFromPicker st).
Proof.
  destruct (updateColorFromPicker_run st) as (palette & E & ->).
  eexists _, palette. split; [reflexivity|]. split.
  - apply (generateHarmonyPalette_length _ _ _ E).
  - apply (palette_normalizedHex _ _ _ E).
Qed.

(** ** Random colours, digit by digit *)

Lemma hexChars_nth i :
  (0 <= i <= 15)%Z ->
  String.get (Z.to_nat i) hexChars =
    Some (nth (Z.to_nat i) (list_ascii_of_string hexChars) "0"%char) /\
  isUpperHexDigit (nth (Z.to_nat i) (list_ascii_of_string hexChars) "0"%char) = true.
Proof.
  intros Hi.
  pose (P := fun i : Z =>
               (15 <? i)%Z ||
               match String.get (Z.to_nat i) hexChars with
               | Some c =>
                   Ascii.eqb c (nth (Z.to_nat i) (list_ascii_of_string hexChars) "0"%char)
                   && isUpperHexDigit c
               | None => false
               end).
  assert (H : P i = true) by (apply byte_forall; [vm_compute; reflexivity|lia]).
  unfold P in H. clear P.
  apply orb_prop in H as [H|H]; [apply Z.ltb_lt in H; lia|].
  destruct (String.get (Z.to_nat i) hexChars) as [c|]; [|discriminate].
  apply andb_prop in H as [H U]. apply Ascii.eqb_eq in H. subst c. auto.
Qed.

Lemma hexDigitAt_upper q : 0 <= q -> q < 1 -> isUpperHexDigit (hexDigitAt q) = true.
Proof. intros H0 H1. apply hexChars_nth, random_index; assumption. Qed.

Lemma string_of_list_ascii_app a b :
  string_of_list_ascii (a ++ b) = string_of_list_ascii a ++ string_of_list_ascii b.
Proof. induction a as [|c a IH]; simpl; [reflexivity|now rewrite IH]. Qed.

Lemma append_empty a : a ++ "" = a.
Proof. induction a as [|c a IH]; simpl; [reflexivity|now rewrite IH]. Qed.

Lemma randomDigits_drawn rand :
  unitInterval rand ->
  forall n pos acc,
    randomDigits n rand pos acc =
      (acc ++ string_of_list_ascii (map (fun k => hexDigitAt (rand k)) (seq pos n)),
       (pos + n)%nat).
Proof.
  intros Hr. induction n as [|n IH]; intros pos acc.
  - cbn [randomDigits seq map string_of_list_ascii]. rewrite append_empty. f_equal. lia.
  - destruct (Hr pos) as [H0 H1].
    pose proof (random_index _ H0 H1) as Hi.
    destruct (hexChars_nth _ Hi) as [Hc _].
    cbn [randomDigits].
    replace (Js.floor (rand pos * 16) <? 0)%Z with false
      by (symmetry; apply Z.ltb_ge; lia).
    rewrite Hc, IH. cbn [seq map string_of_list_ascii].
    rewrite append_assoc. f_equal. lia.
Qed.

Lemma getRandomHexColor_drawn rand pos :
  unitInterval rand ->
  getRandomHexColor rand pos = (drawnColor rand pos, (pos + 6)%nat).
Proof.
  intros Hr. unfold getRandomHexColor. now rewrite randomDigits_drawn.
Qed.

Lemma generatePalette_drawn rand pos :
  unitInterval rand ->
  generatePalette rand pos =
    ([drawnColor rand pos; drawnColor rand (pos + 6); drawnColor rand (pos + 12);
      drawnColor rand (pos + 18); drawnColor rand (pos + 24)],
     (pos + 30)%nat).
Proof.
  intros Hr. unfold generatePalette.
  change NUM_COLORS_PER_PALETTE with 5%nat. cbn [generatePaletteLoop].
  repeat (rewrite (getRandomHexColor_drawn rand _ Hr); cbn [app]).
  rewrite <- !Nat.add_assoc. reflexivity.
Qed.

Lemma isUpperHexDigit_isHexDigit c : isUpperHexDigit c = true -> isHexDigit c = true.
Proof.
  revert c.
  assert (H : forall c, (negb (isUpperHexDigit c) || isHexDigit c) = true)
    by (apply forall_ascii; vm_compute; reflexivity).
  intros c Hc. specialize (H c). rewrite Hc in H. exact H.
Qed.

Lemma drawnColor_upper rand pos :
  unitInterval rand -> matchesUpperHexColor (drawnColor rand pos) = true.
Proof.
  intros Hr. unfold drawnColor, matchesUpperHexColor.
  cbn [seq map string_of_list_ascii String.length list_ascii_of_string Nat.eqb andb forallb].
  rewrite !hexDigitAt_upper by apply Hr. reflexivity.
Qed.

Lemma matchesUpperHexColor_matchesHexColor s :
  matchesUpperHexColor s = true -> matchesHexColor s = true.
Proof.
  unfold matchesUpperHexColor, matchesHexColor.
  destruct s as [|c digits]; [discriminate|].
  destruct (Ascii.eqb_spec c "#") as [->|Hc].
  - intros H. apply andb_prop in H as [L F]. rewrite L. cbn [andb].
    rewrite forallb_forall in *. intros x Hx. apply isUpperHexDigit_isHexDigit, F, Hx.
  - destruct c as [[] [] [] [] [] [] [] []]; try discriminate. now contradiction Hc.
Qed.

(** ** Reading a six-digit hex string *)

(** Two hex digits print back in lower case. *)
Lemma hexPair_print a b n :
  parseIntFromHex a b = Some n ->
  pad2 (toString16 n) = String (lowerChar a) (String (lowerChar b) EmptyString).
Proof.
  pose (P := fun a b =>
               match parseIntFromHex a b with
               | Some n =>
                   String.eqb (pad2 (toString16 n))
                     (String (lowerChar a) (String (lowerChar b) EmptyString))
               | None => true
               end).
  assert (H : forall a, forallb (P a) allAscii = true)
    by (apply forall_ascii; vm_compute; reflexivity).
  intros E. pose proof (forall_ascii (P a) (H a) b) as Hab.
  unfold P in Hab. rewrite E in Hab. now apply String.eqb_eq.
Qed.

Lemma isHexDigit_hexVal c : isHexDigit c = true -> exists v, hexVal c = Some v.
Proof. unfold isHexDigit. destruct (hexVal c) as [v|]; [now exists v|discriminate]. Qed.

Lemma isHexDigit_pair a b :
  isHexDigit a = true -> isHexDigit b = true ->
  exists n, parseIntFromHex a b = Some n /\ (0 <= n <= 255)%Z.
Proof.
  intros Ha Hb. destruct (isHexDigit_hexVal a Ha) as [x Ex].
  destruct (isHexDigit_hexVal b Hb) as [y Ey].
  assert (E : parseIntFromHex a b = Some (16 * x + y)%Z)
    by (unfold parseIntFromHex; now rewrite Ex, Ey).
  eexists. split; [exact E|]. now apply (parseIntFromHex_byte a b).
Qed.

(** The parser on [#] and six hex digits, and the hex string of the
    result: the input in lower case. *)
Lemma tinycolor_hex6 r1 r2 g1 g2 b1 b2 :
  forallb isHexDigit [r1; r2; g1; g2; b1; b2] = true ->
  let s := String "#" (String r1 (String r2 (String g1 (String g2 (String b1 (String b2 EmptyString)))))) in
  hexRead (tinycolor s) /\ toHexString (tinycolor s) = toLowerCase s.
Proof.
  intros H s. cbn [forallb] in H.
  repeat (apply andb_prop in H as [?Hd H]).
  destruct (isHexDigit_pair r1 r2) as (r & Er & Hr); try assumption.
  destruct (isHexDigit_pair g1 g2) as (g & Eg & Hg); try assumption.
  destruct (isHexDigit_pair b1 b2) as (b & Eb & Hb); try assumption.
  assert (E : tinycolor s = construct (Some (hexBytes r g b))).
  { unfold tinycolor, s. rewrite stringInputToObject_plain.
    - unfold hex8, hex6. simpl. now rewrite Er, Eg, Eb.
    - unfold plain. simpl. now rewrite !isHexDigit_plainChar. }
  rewrite E. split; [now exists r, g, b|].
  unfold toHexString, rgbToHex, hexBytes.
  rewrite construct_rgb_r, construct_rgb_g, construct_rgb_b, !byte_channel by assumption.
  rewrite (hexPair_print _ _ _ Er), (hexPair_print _ _ _ Eg), (hexPair_print _ _ _ Eb).
  reflexivity.
Qed.

Lemma matchesHexColor_digits s :
  matchesHexColor s = true ->
  exists r1 r2 g1 g2 b1 b2,
    s = String "#" (String r1 (String r2 (String g1 (String g2 (String b1 (String b2 EmptyString)))))) /\
    forallb isHexDigit [r1; r2; g1; g2; b1; b2] = true.
Proof.
  unfold matchesHexColor. destruct s as [|c digits]; [discriminate|].
  destruct (Ascii.eqb_spec c "#") as [->|Hc].
  - intros H. apply andb_prop in H as [L F].
    destruct digits as [|r1 [|r2 [|g1 [|g2 [|b1 [|b2 [|? ?]]]]]]]; try discriminate.
    now exists r1, r2, g1, g2, b1, b2.
  - destruct c as [[] [] [] [] [] [] [] []]; try discriminate. now contradiction Hc.
Qed.

Lemma matchesHexColor_read s :
  matchesHexColor s = true ->
  hexRead (tinycolor s) /\ toHexString (tinycolor s) = toLowerCase s.
Proof.
  intros H. destruct (matchesHexColor_digits s H) as (r1 & r2 & g1 & g2 & b1 & b2 & -> & F).
  now apply tinycolor_hex6.
Qed.

Lemma swatches_hex colors :
  Forall (fun c => matchesHexColor c = true) colors ->
  map toHexString (filter isValid (map tinycolor colors)) = map toLowerCase colors.
Proof.
  induction 1 as [|c colors Hc _ IH]; [reflexivity|].
  destruct (matchesHexColor_read c Hc) as [Hr E].
  cbn [map filter]. rewrite (hexRead_isValid _ Hr). cbn [map]. now rewrite E, IH.
Qed.

(** X4: the random palette button shows five swatches under the title
    ["Random Palette"]: the generated colours, which are written with the
    upper-case digits of [hexChars], each shown in lower case; the picker,
    the two form fields and the dragging flags are left as they were. *)
Theorem random_palette_displayed (rand : nat -> Q) (st : state) :
  unitInterval rand ->
  let colors := fst (generatePalette rand 0) in
  List.length colors = 5%nat /\
  Forall (fun c => matchesUpperHexColor c = true) colors /\
  randomPaletteBtn_click rand st =
    setDisplay (Swatches "Random Palette" (map toLowerCase colors)) st.
Proof.
  intros Hr colors. unfold randomPaletteBtn_click. fold colors.
  assert (U : Forall (fun c => matchesUpperHexColor c = true) colors).
  { unfold colors. rewrite (generatePalette_drawn rand 0 Hr). cbn [fst].
    repeat constructor; apply drawnColor_upper, Hr. }
  assert (L : List.length colors = 5%nat)
    by (unfold colors; now rewrite (generatePalette_drawn rand 0 Hr)).
  split; [exact L|]. split; [exact U|].
  unfold displayPalette. rewrite swatches_hex.
  - destruct colors; [discriminate L|reflexivity].
  - eapply Forall_impl; [|exact U]. apply matchesUpperHexColor_matchesHexColor.
Qed.

Lemma randomPaletteBtn_click_showsPalette rand st :
  unitInterval rand -> showsPalette (randomPaletteBtn_click rand st).
Proof.
  intros Hr. unfold randomPaletteBtn_click.
  rewrite (generatePalette_drawn rand 0 Hr). cbn [fst].
  assert (U : Forall (fun c => matchesHexColor c = true)
                [drawnColor rand 0; drawnColor rand (0 + 6); drawnColor rand (0 + 12);
                 drawnColor rand (0 + 18); drawnColor rand (0 + 24)])
    by (repeat constructor; apply matchesUpperHexColor_matchesHexColor, drawnColor_upper, Hr).
  unfold displayPalette. rewrite (swatches_hex _ U).
  eexists _, _. split; [reflexivity|]. split; [cbn [map List.length]; lia|].
  apply Forall_forall. intros c Hc. apply in_map_iff in Hc as (x & <- & Hx).
  rewrite Forall_forall in U. destruct (matchesHexColor_read x (U x Hx)) as [Hr' <-].
  destruct (hexRead_constructed _ Hr') as [o ->]. apply toHexString_normalizedHex.
Qed.

Lemma handle_showsPalette ev st :
  admissible ev -> showsPalette st -> showsPalette (handle ev st).
Proof.
  intros Hev H. destruct ev; cbn [handle admissible] in *.
  - now apply randomPaletteBtn_click_showsPalette.
  - apply updateColorFromPicker_showsPalette.
  - apply updateColorFromPicker_showsPalette.
  - unfold baseColorInput_input.
    change (baseColorInput_value (setBaseColorInput text st)) with text.
    destruct (isValid (tinycolor text)); [|exact H].
    destruct (toHsl (tinycolor text)) as [[h s] l].
    apply updateColorFromPicker_showsPalette.
  - unfold hueWheelCanvas_mousedown. apply updateColorFromPicker_showsPalette.
  - unfold hueWheelCanvas_mousemove. destruct (isDraggingHue st); [|exact H].
    apply updateColorFromPicker_showsPalette.
  - unfold slPickerCanvas_mousedown. apply updateColorFromPicker_showsPalette.
  - unfold slPickerCanvas_mousemove. destruct (isDraggingSL st); [|exact H].
    apply updateColorFromPicker_showsPalette.
  - exact H.
Qed.

(** ** The swatches and their labels *)

Lemma changeAt_map {A B} (g : A -> B) (f : A -> A) n l :
  (forall x, g (f x) = g x) -> map g (changeAt n f l) = map g l.
Proof.
  intros H. revert n. induction l as [|x r IH]; intros [|n]; cbn [changeAt map];
    try reflexivity.
  - now rewrite H.
  - now rewrite IH.
Qed.

Lemma changeAt_Forall {A} (P : A -> Prop) (f : A -> A) n l :
  Forall P l -> (forall x, nth_error l n = Some x -> P (f x)) -> Forall P (changeAt n f l).
Proof.
  intros H. revert n. induction H as [|x r Hx Hr IH]; intros [|n] Hf; cbn [changeAt].
  - constructor.
  - constructor.
  - constructor; [now apply Hf|exact Hr].
  - constructor; [exact Hx|]. apply IH. intros y Hy. now apply Hf.
Qed.

(** The colour of the swatch a closure refers to, read in the table of the
    colours of all the swatches. *)
Lemma swatchAt_color el doc :
  option_map backgroundColor (swatchAt el doc) =
    match nth_error (map (map backgroundColor) (containers doc)) (fst el) with
    | Some row => nth_error row (snd el)
    | None => None
    end.
Proof.
  unfold swatchAt. rewrite nth_error_map.
  destruct (nth_error (containers doc) (fst el)) as [c|]; cbn [option_map]; [|reflexivity].
  now rewrite nth_error_map.
Qed.

Lemma colors_changeSwatch el f doc :
  (forall sw, backgroundColor (f sw) = backgroundColor sw) ->
  map (map backgroundColor) (containers (changeSwatch el f doc)) =
  map (map backgroundColor) (containers doc).
Proof.
  intros H. unfold changeSwatch. cbn [containers].
  apply changeAt_map. intros c. now apply changeAt_map.
Qed.

(** A task keeps restoring a legible text when swatches are relabelled and
    containers are added. *)
Lemma restores_colors doc doc' t :
  (forall el c,
      option_map backgroundColor (swatchAt el doc) = Some c ->
      option_map backgroundColor (swatchAt el doc') = Some c) ->
  restores doc t -> restores doc' t.
Proof.
  intros H. destruct t as [el|el originalText]; [trivial|].
  intros [E|E]; [now left|right]. now apply H.
Qed.

Lemma swatchAt_more el doc c sts ps cb :
  forall clr,
    option_map backgroundColor (swatchAt el doc) = Some clr ->
    option_map backgroundColor
      (swatchAt el (mkDocument sts (containers doc ++ [c]) ps cb)) = Some clr.
Proof.
  intros clr. rewrite !swatchAt_color. cbn [containers]. rewrite map_app.
  destruct (nth_error (map (map backgroundColor) (containers doc)) (fst el)) as [row|] eqn:E;
    [|discriminate].
  rewrite nth_error_app1; [now rewrite E|].
  apply nth_error_Some. now rewrite E.
Qed.

Lemma palette_swatches b rule palette :
  generateHarmonyPalette b rule = inr palette ->
  map toHexString (filter isValid (map tinycolor palette)) = palette.
Proof.
  intros H. destruct (generateHarmonyPalette_normalized _ _ _ H) as [colors ->].
  apply swatches_normalized.
Qed.

Lemma updateColorFromPicker_swatches_run st doc :
  exists palette,
    generateHarmonyPalette (pickerHex st) (harmonyRuleSelect_value st) = inr palette /\
    updateColorFromPicker_swatches st doc =
      mkDocument (updateColorFromPicker st) (containers doc ++ [map newSwatch palette])
        (pending doc) (clipboard doc).
Proof.
  destruct (handleGenerateHarmony_run st) as (palette & E & R).
  exists palette. split; [exact E|].
  unfold updateColorFromPicker_swatches, updateColorFromPicker. rewrite R. cbn [fst].
  unfold displayPalette_swatches, setVariables. cbn [variables containers pending clipboard].
  now rewrite (palette_swatches _ _ _ E).
Qed.

Lemma displayPalette_nonempty colors title :
  colors <> [] ->
  displayPalette colors title =
    Swatches title (map toHexString (filter isValid (map tinycolor colors))).
Proof. intros H. destruct colors; [contradiction|reflexivity]. Qed.

Lemma map_newSwatch hexes : map backgroundColor (map newSwatch hexes) = hexes.
Proof. rewrite map_map. cbn [newSwatch backgroundColor]. apply map_id. Qed.

(** Adding the container of the palette just displayed keeps the document
    in order. *)
Lemma rebuilt_inOrder doc st title hexes :
  inOrder doc ->
  showsPalette st ->
  paletteDisplay st = Some (Swatches title hexes) ->
  inOrder (mkDocument st (containers doc ++ [map newSwatch hexes]) (pending doc)
             (clipboard doc)).
Proof.
  intros (_ & _ & L & T) S E. split; [exact S|]. split; [|split].
  - exists title, hexes, (map (map backgroundColor) (containers doc)).
    split; [exact E|]. cbn [containers variables]. rewrite map_app. cbn [map].
    now rewrite map_newSwatch.
  - cbn [containers]. apply Forall_app. split; [exact L|]. constructor; [|constructor].
    destruct S as (title' & hexes' & E' & _ & N). rewrite E in E'. injection E' as _ <-.
    apply Forall_forall. intros sw Hsw. apply in_map_iff in Hsw as (hex & <- & Hhex).
    rewrite Forall_forall in N. split; [now apply N|now left].
  - cbn [pending]. apply Forall_forall. intros t Ht. rewrite Forall_forall in T.
    apply (restores_colors doc); [|now apply T].
    intros el c. apply swatchAt_more.
Qed.

Lemma setVariables_inOrder doc st :
  inOrder doc -> showsPalette st -> paletteDisplay st = paletteDisplay (variables doc) ->
  inOrder (setVariables st doc).
Proof.
  intros (_ & (title & hexes & earlier & E & C) & L & T) S D.
  split; [exact S|]. split; [|split].
  - exists title, hexes, earlier. cbn [setVariables variables containers]. now rewrite D.
  - exact L.
  - exact T.
Qed.

Lemma updateColorFromPicker_swatches_inOrder st doc :
  inOrder doc -> inOrder (updateColorFromPicker_swatches st doc).
Proof.
  intros H. destruct (updateColorFromPicker_swatches_run st doc) as (palette & E & ->).
  destruct (updateColorFromPicker_run st) as (palette' & E' & R).
  rewrite E in E'. injection E' as <-.
  apply (rebuilt_inOrder doc _ (ruleText (harmonyRuleSelect_value st) ++ " Harmony") palette H).
  - apply updateColorFromPicker_showsPalette.
  - now rewrite R.
Qed.

Lemma listen_inOrder ev doc : admissible ev -> inOrder doc -> inOrder (listen ev doc).
Proof.
  intros Hev H. destruct ev as [rand| |rule|text|a|a|x y|x y|]; cbn [listen admissible] in *.
  - pose proof (randomPaletteBtn_click_showsPalette rand (variables doc) Hev) as S.
    assert (Hne : fst (generatePalette rand 0) <> [])
      by (rewrite (generatePalette_drawn rand 0 Hev); discriminate).
    unfold randomPaletteBtn_click, displayPalette_swatches, setVariables in *.
    cbn [variables containers pending clipboard].
    set (colors := fst (generatePalette rand 0)) in *. clearbody colors.
    apply (rebuilt_inOrder doc _ "Random Palette" _ H S).
    cbn [paletteDisplay setDisplay]. now rewrite displayPalette_nonempty.
  - now apply updateColorFromPicker_swatches_inOrder.
  - now apply updateColorFromPicker_swatches_inOrder.
  - change (baseColorInput_value (setBaseColorInput text (variables doc))) with text.
    destruct (isValid (tinycolor text)).
    + destruct (toHsl (tinycolor text)) as [[h s] l].
      now apply updateColorFromPicker_swatches_inOrder.
    + apply setVariables_inOrder; [exact H| |reflexivity].
      destruct H as ((title & hexes & E & B) & _). now exists title, hexes.
  - now apply updateColorFromPicker_swatches_inOrder.
  - destruct (isDraggingHue (variables doc)); [|exact H].
    now apply updateColorFromPicker_swatches_inOrder.
  - now apply updateColorFromPicker_swatches_inOrder.
  - destruct (isDraggingSL (variables doc)); [|exact H].
    now apply updateColorFromPicker_swatches_inOrder.
  - apply setVariables_inOrder; [exact H| |reflexivity].
    destruct H as ((title & hexes & E & B) & _). now exists title, hexes.
Qed.

Lemma Forall_without {A} (P : A -> Prop) k l :
  Forall P l -> Forall P (firstn k l ++ skipn (S k) l).
Proof.
  intros H. revert k. induction H as [|x r Hx Hr IH]; intros [|k]; cbn [firstn skipn app].
  - constructor.
  - constructor.
  - exact Hr.
  - constructor; [exact Hx|apply IH].
Qed.

Lemma removeTask_inOrder k doc : inOrder doc -> inOrder (removeTask k doc).
Proof.
  intros (S & C & L & T). split; [exact S|]. split; [exact C|]. split; [exact L|].
  cbn [removeTask pending]. apply Forall_without.
  apply Forall_forall. intros t Ht. rewrite Forall_forall in T.
  apply (restores_colors doc); [intros el c E; exact E|now apply T].
Qed.

(** Relabelling the swatch of [el] with a legible text keeps the document
    in order. *)
Lemma relabel_inOrder el text border doc :
  inOrder doc ->
  (text = "Copied!" \/ option_map backgroundColor (swatchAt el doc) = Some text) ->
  inOrder (changeSwatch el (fun sw => mkSwatch (backgroundColor sw) text border) doc).
Proof.
  intros (S & (title & hexes & earlier & E & C) & L & T) Ht.
  split; [exact S|]. split; [|split].
  - exists title, hexes, earlier. split; [exact E|].
    now rewrite colors_changeSwatch.
  - cbn [changeSwatch containers]. apply changeAt_Forall; [exact L|].
    intros c Hc. apply changeAt_Forall.
    + rewrite Forall_forall in L. apply L. eapply nth_error_In, Hc.
    + intros sw Hsw.
      assert (G : legible sw).
      { rewrite Forall_forall in L. specialize (L c (nth_error_In _ _ Hc)).
        rewrite Forall_forall in L. apply L. eapply nth_error_In, Hsw. }
      destruct G as [N _]. split; [exact N|]. cbn [hexCode_textContent backgroundColor].
      destruct Ht as [->|Ht]; [now right|left].
      unfold swatchAt in Ht. rewrite Hc, Hsw in Ht. cbn [option_map] in Ht. congruence.
  - cbn [changeSwatch pending]. apply Forall_forall. intros t Hin.
    rewrite Forall_forall in T. apply (restores_colors doc); [|now apply T].
    intros el' c. rewrite !swatchAt_color. now rewrite colors_changeSwatch.
Qed.

Lemma copied_inOrder el doc : inOrder doc -> inOrder (copied el doc).
Proof.
  intros H. unfold copied. destruct (swatchAt el doc) as [sw|] eqn:Esw; [|exact H].
  pose proof (relabel_inOrder el "Copied!" (Some "#5cb85c") doc H (or_introl eq_refl))
    as (S & C & L & T).
  set (doc' := changeSwatch el _ doc) in *.
  split; [exact S|]. split; [exact C|]. split; [exact L|].
  cbn [addTask variables containers pending clipboard].
  apply Forall_app. split.
  - apply Forall_forall. intros t Ht. rewrite Forall_forall in T.
    apply (restores_colors doc'); [intros el' c E; exact E|now apply T].
  - constructor; [|constructor]. cbn [restores].
    assert (G : legible sw).
    { destruct H as (_ & _ & L0 & _). unfold swatchAt in Esw.
      destruct (nth_error (containers doc) (fst el)) as [c|] eqn:Ec; [|discriminate].
      rewrite Forall_forall in L0. specialize (L0 c (nth_error_In _ _ Ec)).
      rewrite Forall_forall in L0. apply L0. eapply nth_error_In, Esw. }
    destruct G as [_ [G|G]]; [right|now left].
    rewrite swatchAt_color. cbn [containers]. unfold doc'.
    rewrite colors_changeSwatch by reflexivity.
    rewrite <- swatchAt_color, Esw. cbn [option_map]. now rewrite G.
Qed.

Lemma happen_inOrder h doc : possible h -> inOrder doc -> inOrder (happen h doc).
Proof.
  intros Hh H. destruct h as [ev|index|k|k shown|k]; cbn [happen possible] in *.
  - now apply listen_inOrder.
  - destruct (swatchAt _ doc); [|exact H].
    destruct H as (S & C & L & T). split; [exact S|]. split; [exact C|]. split; [exact L|].
    cbn [addTask pending]. apply Forall_app. split; [|repeat constructor].
    apply Forall_forall. intros t Ht. rewrite Forall_forall in T.
    apply (restores_colors doc); [intros el c E; exact E|now apply T].
  - destruct (nth_error (pending doc) k) as [[el|el originalText]|]; try exact H.
    apply copied_inOrder, removeTask_inOrder, H.
  - destruct (nth_error (pending doc) k) as [[el|el originalText]|]; try exact H.
    pose proof (removeTask_inOrder k doc H) as R.
    destruct shown as [msg|]; [|exact R].
    apply setVariables_inOrder; [exact R| |reflexivity].
    destruct R as ((title & hexes & E & B) & _). now exists title, hexes.
  - destruct (nth_error (pending doc) k) as [[el|el originalText]|] eqn:Ek; try exact H.
    apply relabel_inOrder; [apply removeTask_inOrder, H|].
    destruct H as (_ & _ & _ & T). rewrite Forall_forall in T.
    exact (T _ (nth_error_In _ _ Ek)).
Qed.

Lemma loaded_inOrder baseColor rule doc : loaded baseColor rule doc -> inOrder doc.
Proof.
  induction 1 as [|doc h _ IH Hh]; [|now apply happen_inOrder].
  unfold initializeApp_swatches.
  set (st := if isValid _ then _ else _).
  destruct (updateColorFromPicker_swatches_run st (mkDocument st [] [] None))
    as (palette & E & ->).
  destruct (updateColorFromPicker_run st) as (palette' & E' & R).
  rewrite E in E'. injection E' as <-.
  pose proof (updateColorFromPicker_showsPalette st) as S.
  split; [exact S|]. split; [|split].
  - exists (ruleText (harmonyRuleSelect_value st) ++ " Harmony"), palette, [].
    cbn [variables containers app map]. rewrite R. split; [reflexivity|].
    now rewrite map_newSwatch.
  - cbn [containers app]. constructor; [|constructor].
    destruct S as (title' & hexes' & E' & _ & N). rewrite R in E'.
    cbn [paletteDisplay setDisplay] in E'. injection E' as _ <-.
    apply Forall_forall. intros sw Hsw. apply in_map_iff in Hsw as (hex & <- & Hhex).
    rewrite Forall_forall in N. split; [now apply N|now left].
  - constructor.
Qed.

(** X5: the page always shows a palette, whatever happens on it (the
    listeners of the script, clicks on swatches, clipboard writes that
    succeed or fail, timers that fire): the palette section holds the
    swatches of the palette displayed last, between one and five of them,
    each coloured [#] and six lower-case hex digits and labelled with that
    colour or with ["Copied!"]; the fallback message
    ["No colors to display ..."] is never shown. *)
Theorem palette_always_shown (baseColor rule : string) (doc : document) :
  loaded baseColor rule doc ->
  exists title earlier current,
    containers doc = (earlier ++ [current])%list /\
    paletteDisplay (variables doc) = Some (Swatches title (map backgroundColor current)) /\
    (1 <= List.length current <= 5)%nat /\
    Forall legible current.
Proof.
  intros H. destruct (loaded_inOrder _ _ _ H) as (S & (title & hexes & earlier & E & C) & L & _).
  apply map_eq_app in C as (earlier' & last' & Ec & _ & C).
  apply map_eq_cons in C as (current & rest & -> & <- & Hrest).
  apply map_eq_nil in Hrest as ->.
  exists title, earlier', current. split; [exact Ec|]. split; [exact E|].
  destruct S as (title' & hexes' & E' & B & _). rewrite E in E'. injection E' as _ <-.
  rewrite length_map in B. split; [exact B|].
  rewrite Ec in L. apply Forall_app in L as [_ L]. now inversion L.
Qed.

Lemma updateColorFromPicker_field st : fieldFollowsPicker (updateColorFromPicker st).
Proof.
  destruct (updateColorFromPicker_run st) as (palette & _ & ->). intros _.
  rewrite pickerHex_setDisplay, pickerHex_setBaseColorInput. reflexivity.
Qed.

Lemma handle_fieldFollowsPicker ev st :
  fieldFollowsPicker st -> fieldFollowsPicker (handle ev st).
Proof.
  intros H. destruct ev; cbn [handle].
  - exact H.
  - apply updateColorFromPicker_field.
  - apply updateColorFromPicker_field.
  - unfold baseColorInput_input.
    change (baseColorInput_value (setBaseColorInput text st)) with text.
    destruct (isValid (tinycolor text)) eqn:Hv.
    + destruct (toHsl (tinycolor text)) as [[h s] l].
      apply updateColorFromPicker_field.
    + unfold fieldFollowsPicker.
      change (baseColorInput_value (setBaseColorInput text st)) with text.
      rewrite Hv. discriminate.
  - unfold hueWheelCanvas_mousedown. apply updateColorFromPicker_field.
  - unfold hueWheelCanvas_mousemove. destruct (isDraggingHue st); [|exact H].
    apply updateColorFromPicker_field.
  - unfold slPickerCanvas_mousedown. apply updateColorFromPicker_field.
  - unfold slPickerCanvas_mousemove. destruct (isDraggingSL st); [|exact H].
    apply updateColorFromPicker_field.
  - exact H.
Qed.

(** X6: the base colour field follows the picker: in every state the
    script reaches, the field either holds text the parser rejects (what
    the user is typing) or exactly the hex string of the current hue,
    saturation and lightness. *)
Theorem field_follows_picker (baseColor rule : string) (st : state) :
  reachable baseColor rule st ->
  isValid (tinycolor (baseColorInput_value st)) = true ->
  baseColorInput_value st = pickerHex st.
Proof.
  intros H. change (fieldFollowsPicker st).
  induction H as [|st ev _ IH _].
  - destruct (initializeApp_run baseColor rule) as (st0 & -> & _).
    apply updateColorFromPicker_field.
  - now apply handle_fieldFollowsPicker.
Qed.

(** X7: once the mouse button is released, pointer moves over the two
    canvases change nothing, however many there are and wherever they
    point. *)
Theorem idle_moves_ignored (evs : list event) (st : state) :
  forallb isMove evs = true ->
  run evs (document_mouseup st) = document_mouseup st.
Proof.
  unfold run. induction evs as [|ev evs IH]; [reflexivity|].
  cbn [forallb fold_left]. intros H. apply andb_prop in H as [Hev Hevs].
  assert (E : handle ev (document_mouseup st) = document_mouseup st).
  { destruct ev; try discriminate Hev; cbn [handle].
    - unfold hueWheelCanvas_mousemove, document_mouseup. reflexivity.
    - unfold slPickerCanvas_mousemove, document_mouseup. reflexivity. }
  rewrite E. now apply IH.
Qed.

(** ** The saturation/lightness pad *)

Lemma clamp_div x w :
  0 < w ->
  (0 <= x -> x <= w -> Js.max 0 (Js.min 1 (x / w)) == x / w) /\
  (x <= 0 -> Js.max 0 (Js.min 1 (x / w)) == 0) /\
  (w <= x -> Js.max 0 (Js.min 1 (x / w)) == 1).
Proof.
  intros Hw.
  assert (Hlo : 0 <= x -> 0 <= x / w)
    by (intros H; apply Qle_shift_div_l; [exact Hw|lra]).
  assert (Hhi : x <= w -> x / w <= 1)
    by (intros H; apply Qle_shift_div_r; [exact Hw|lra]).
  assert (Hneg : x <= 0 -> x / w <= 0)
    by (intros H; apply Qle_shift_div_r; [exact Hw|lra]).
  assert (Hbig : w <= x -> 1 <= x / w)
    by (intros H; apply Qle_shift_div_l; [exact Hw|lra]).
  unfold Js.max, Js.min.
  repeat split; intros; repeat js_case; try reflexivity; lra.
Qed.

(** X8: a press on the saturation/lightness pad at offset ([x], [y]) keeps
    the hue and sets saturation to [x / width] and lightness to
    [1 - y / height] inside the canvas; the offsets are clamped to the
    canvas, so a point left of it gives saturation 0, right of it 1, above
    it lightness 1 and below it 0. *)
Theorem sl_pad_point (x y : Q) (st : state) :
  0 < slPickerCanvas_width -> 0 < slPickerCanvas_height ->
  let st' := slPickerCanvas_mousedown x y st in
  currentHue st' = currentHue st /\
  (0 <= x -> x <= slPickerCanvas_width ->
   currentSaturation st' == x / slPickerCanvas_width) /\
  (x <= 0 -> currentSaturation st' == 0) /\
  (slPickerCanvas_width <= x -> currentSaturation st' == 1) /\
  (0 <= y -> y <= slPickerCanvas_height ->
   currentLightness st' == 1 - y / slPickerCanvas_height) /\
  (y <= 0 -> currentLightness st' == 1) /\
  (slPickerCanvas_height <= y -> currentLightness st' == 0).
Proof.
  intros Hw Hh st'. unfold st', slPickerCanvas_mousedown, updateColorFromPicker.
  match goal with
  | |- context [handleGenerateHarmony ?s] =>
      destruct (handleGenerateHarmony_picker s) as (-> & -> & ->)
  end.
  unfold setSLFromPoint.
  cbn [currentHue currentSaturation currentLightness setHsl setDragging].
  destruct (clamp_div x _ Hw) as (Sx & S0 & S1).
  destruct (clamp_div y _ Hh) as (Ly & L0 & L1).
  split; [reflexivity|].
  repeat split; intros.
  - now apply Sx.
  - now apply S0.
  - now apply S1.
  - rewrite Ly by assumption. reflexivity.
  - rewrite L0 by assumption. reflexivity.
  - rewrite L1 by assumption. reflexivity.
Qed.

(** ** Start-up *)

Lemma pickerHex_initialState baseColor rule :
  pickerHex (initialState baseColor rule) = "#ff0000".
Proof. vm_compute. reflexivity. Qed.

(** X9: when the base colour field holds text the parser rejects as the
    page loads, [initializeApp] keeps the default triple (0, 1, 1/2),
    overwrites the field with [#ff0000], shows the palette derived from
    [#ff0000] by the selected rule, and raises no alert. *)
Theorem initialize_invalid_field (baseColor rule : string) :
  isValid (tinycolor baseColor) = false ->
  exists palette,
    generateHarmonyPalette "#ff0000" rule = inr palette /\
    initializeApp (initialState baseColor rule) =
      mkState 0 1 (1 # 2) false false "#ff0000" rule
        (Some (Swatches (ruleText rule ++ " Harmony") palette)) [].
Proof.
  intros Hv. destruct (initializeApp_run baseColor rule) as (st0 & -> & _ & _ & E).
  rewrite (E Hv).
  destruct (updateColorFromPicker_run (initialState baseColor rule)) as (palette & Ep & ->).
  rewrite pickerHex_initialState in *.
  exists palette. split; [exact Ep|reflexivity].
Qed.

(** ** The derived palettes *)

(** X10: every element of every derived palette is [#] followed by six
    lower-case hex digits, is itself accepted by the parser, and is left
    unchanged by a further normalization. *)
Theorem palette_elements_normal (b rule : string) (palette : list string) :
  generateHarmonyPalette b rule = inr palette ->
  Forall (fun c =>
            normalizedHex c = true /\
            isValid (tinycolor c) = true /\
            toHexString (tinycolor c) = c) palette.
Proof.
  intros H. destruct (generateHarmonyPalette_normalized _ _ _ H) as [colors ->].
  apply Forall_forall. intros c Hc. apply in_map_iff in Hc as (color & <- & _).
  apply normalized_element.
Qed.

(** Drop the closing normalization from a list of hex strings of
    constructed colours. *)
Ltac drop_normalization :=
  match goal with
  | |- context [map (fun color => toHexString (tinycolor color))
                  [toHexString ?a; toHexString ?b; toHexString ?c; toHexString ?d;
                   toHexString ?e]] =>
      change [toHexString a; toHexString b; toHexString c; toHexString d; toHexString e]
        with (map toHexString [a; b; c; d; e]);
      rewrite (normalize_map [a; b; c; d; e])
        by (repeat constructor;
            auto using lighten_constructed, darken_constructed, fromHsl_constructed,
              tinycolor_constructed)
  end; cbn [map].

(** X11: for every base colour the parser accepts, the [triad] rule
    returns the three colours of the library's triad (the base first),
    then the second one re-read from its hex string and lightened by 20,
    then the third one re-read and darkened by 20. *)
Theorem triad_palette (b : string) :
  isValid (tinycolor b) = true ->
  exists t1 t2,
    triad (tinycolor b) = [tinycolor b; t1; t2] /\
    generateHarmonyPalette b "triad" =
      inr [toHexString (tinycolor b);
           toHexString t1;
           toHexString t2;
           toHexString (lighten 20 (tinycolor (toHexString t1)));
           toHexString (darken 20 (tinycolor (toHexString t2)))].
Proof.
  intros H. enter_rule H. unfold triad, polyad.
  destruct (toHsl (tinycolor b)) as [[h s] l].
  cbn [map seq Nat.sub List.length Nat.ltb Nat.leb andb app at_ nth].
  rewrite slice_all. drop_normalization.
  eexists _, _. split; reflexivity.
Qed.

(** X12: for every base colour the parser accepts, the [tetrad] rule
    returns the four colours of the library's tetrad (the base first),
    then the base re-read from its hex string and lightened by 20. *)
Theorem tetrad_palette (b : string) :
  isValid (tinycolor b) = true ->
  exists t1 t2 t3,
    tetrad (tinycolor b) = [tinycolor b; t1; t2; t3] /\
    generateHarmonyPalette b "tetrad" =
      inr [toHexString (tinycolor b);
           toHexString t1;
           toHexString t2;
           toHexString t3;
           toHexString (lighten 20 (tinycolor (toHexString (tinycolor b))))].
Proof.
  intros H. enter_rule H. unfold tetrad, polyad.
  destruct (toHsl (tinycolor b)) as [[h s] l].
  cbn [map seq Nat.sub List.length Nat.ltb Nat.leb andb app at_ nth].
  rewrite slice_all. drop_normalization.
  eexists _, _, _. split; reflexivity.
Qed.

(** X13: for every base colour the parser accepts, the [splitcomplement]
    rule returns the base, the first split complement, that one re-read
    from its hex string and lightened by 15, the second split complement,
    and that one re-read and darkened by 15. *)
Theorem splitcomplement_palette (b : string) :
  isValid (tinycolor b) = true ->
  exists s1 s2,
    splitcomplement (tinycolor b) = [tinycolor b; s1; s2] /\
    generateHarmonyPalette b "splitcomplement" =
      inr [toHexString (tinycolor b);
           toHexString s1;
           toHexString (lighten 15 (tinycolor (toHexString s1)));
           toHexString s2;
           toHexString (darken 15 (tinycolor (toHexString s2)))].
Proof.
  intros H. enter_rule H. unfold splitcomplement.
  destruct (toHsl (tinycolor b)) as [[h s] l].
  cbn [map at_ nth]. rewrite slice_all. drop_normalization.
  eexists _, _. split; reflexivity.
Qed.

(** X14: for every base colour the parser accepts, the [analogous] rule
    asks the library for six analogous colours and returns the base
    followed by the second to the fifth of them; the sixth is dropped. *)
Theorem analogous_palette (b : string) :
  isValid (tinycolor b) = true ->
  exists a1 a2 a3 a4 a5,
    analogous 6 (tinycolor b) = [tinycolor b; a1; a2; a3; a4; a5] /\
    generateHarmonyPalette b "analogous" =
      inr [toHexString (tinycolor b);
           toHexString a1;
           toHexString a2;
           toHexString a3;
           toHexString a4].
Proof.
  intros H. enter_rule H. unfold analogous.
  destruct (toHsl (tinycolor b)) as [[h s] l].
  cbn [Nat.add Nat.eqb Nat.sub analogousLoop]. unfold slice.
  rewrite skipn_map, firstn_map. cbn [Nat.sub skipn firstn].
  match goal with
  | |- context [toHexString ?a :: map toHexString ?l] =>
      change (toHexString a :: map toHexString l) with (map toHexString (a :: l));
      rewrite (normalize_map (a :: l))
        by (repeat constructor; auto using fromHsl_constructed, tinycolor_constructed)
  end.
  cbn [map]. eexists _, _, _, _, _. split; reflexivity.
Qed.

(** ** Spellings of the base colour *)

Lemma generateHarmonyPalette_ext s s' rule :
  tinycolor s = tinycolor s' ->
  generateHarmonyPalette s rule = generateHarmonyPalette s' rule.
Proof. intros E. unfold generateHarmonyPalette. now rewrite E. Qed.

Lemma tinycolor_reread c : hexRead c -> tinycolor (toHexString c) = c.
Proof.
  intros H. rewrite <- (toString_hexRead c H). exact (clone_hexRead c H).
Qed.

Lemma tinycolor_toLowerCase h : plain h = true -> tinycolor (toLowerCase h) = tinycolor h.
Proof.
  intros H. unfold tinycolor.
  rewrite !stringInputToObject_plain by (rewrite ?plain_toLowerCase; exact H).
  now rewrite hex8_toLowerCase, hex6_toLowerCase, hex4_toLowerCase, hex3_toLowerCase.
Qed.

Lemma tinycolor_hash h :
  plain h = true -> tinycolor (String "#" (stripHash h)) = tinycolor h.
Proof.
  intros H. destruct (stripHash_cases h) as [E|E].
  - now rewrite <- E.
  - rewrite E. unfold tinycolor.
    rewrite !stringInputToObject_plain by (rewrite ?plain_cons; exact H).
    unfold hex8, hex6, hex4, hex3. cbn [stripHash]. now rewrite E.
Qed.

Lemma tinycolor_shorthand h a b c :
  validHex h = true ->
  stripHash h = String a (String b (String c EmptyString)) ->
  tinycolor (String a (String a (String b (String b (String c (String c EmptyString)))))) =
  tinycolor h.
Proof.
  intros Hh E. pose proof (validHex_plain h Hh) as Hp.
  unfold validHex in Hh. rewrite E in Hh. apply andb_prop in Hh as [_ Hd].
  cbn [list_ascii_of_string forallb] in Hd.
  apply andb_prop in Hd as [Ha Hd]. apply andb_prop in Hd as [Hb Hd].
  apply andb_prop in Hd as [Hc _].
  assert (Hne : Ascii.eqb a "#" = false).
  { destruct (Ascii.eqb_spec a "#") as [->|]; [discriminate Ha|reflexivity]. }
  unfold tinycolor. rewrite !stringInputToObject_plain.
  - unfold hex8, hex6, hex4, hex3. rewrite E, (stripHash_other _ _ Hne).
    cbn [list_ascii_of_string orElse]. now rewrite orElse_none.
  - exact Hp.
  - unfold plain. cbn [list_ascii_of_string forallb].
    now rewrite !isHexDigit_plainChar.
Qed.

(** X15: the palette depends on the colour, not on how a hex string spells
    it: a valid hex string, its lower-case form, its form with a leading
    [#], the six-digit expansion of a three-digit shorthand, and the
    normalized hex string of the colour all give the same result. *)
Theorem base_color_spelling (h rule : string) :
  validHex h = true ->
  generateHarmonyPalette (toLowerCase h) rule = generateHarmonyPalette h rule /\
  generateHarmonyPalette (String "#" (stripHash h)) rule = generateHarmonyPalette h rule /\
  generateHarmonyPalette (toHexString (tinycolor h)) rule = generateHarmonyPalette h rule /\
  (forall a b c,
      stripHash h = String a (String b (String c EmptyString)) ->
      generateHarmonyPalette
        (String a (String a (String b (String b (String c (String c EmptyString)))))) rule =
      generateHarmonyPalette h rule).
Proof.
  intros Hh. pose proof (validHex_plain h Hh) as Hp.
  split; [apply generateHarmonyPalette_ext, tinycolor_toLowerCase, Hp|].
  split; [apply generateHarmonyPalette_ext, tinycolor_hash, Hp|].
  split; [apply generateHarmonyPalette_ext, tinycolor_reread, validHex_hexRead, Hh|].
  intros a b c E. now apply generateHarmonyPalette_ext, tinycolor_shorthand.
Qed.

(** ** [displayPalette] on arbitrary strings *)

Lemma swatches_count colors :
  List.length (map toHexString (filter isValid (map tinycolor colors))) =
  List.length (filter (fun c => isValid (tinycolor c)) colors).
Proof.
  rewrite length_map. induction colors as [|c colors IH]; [reflexivity|].
  cbn [map filter]. destruct (isValid (tinycolor c)); cbn [List.length]; now rewrite IH.
Qed.

(** A colour name is labelled with the six digits of its entry in the
    table. *)
Lemma name_label c entry :
  lookup (toLowerCase (trimRight (trimLeft c))) names = Some entry ->
  toHexString (tinycolor c) = sixDigitForm entry.
Proof.
  intros L. unfold tinycolor, stringInputToObject. rewrite L.
  apply lookup_In in L.
  assert (H : forallb
                (fun kv =>
                   plain (snd kv) &&
                   String.eqb
                     (toHexString
                        (construct
                           (orElse (hex8 true (snd kv))
                              (orElse (hex6 true (snd kv))
                                 (orElse (hex4 true (snd kv)) (hex3 true (snd kv)))))))
                     (sixDigitForm (snd kv))) names = true)
    by (vm_compute; reflexivity).
  rewrite forallb_forall in H. specialize (H _ L). cbn [snd] in H.
  apply andb_prop in H as [Hp He].
  unfold matchers. rewrite (functionalNotation_plain entry Hp). cbn [orElse].
  now apply String.eqb_eq.
Qed.

(** A valid hex colour string is labelled with its six digits in lower
    case. *)
Lemma validHex_label h : validHex h = true -> toHexString (tinycolor h) = sixDigitForm h.
Proof.
  intros Hh. pose proof (validHex_plain h Hh) as Hp.
  pose proof Hh as Hv. unfold validHex in Hv. apply andb_prop in Hv as [Hlen Hd].
  unfold sixDigitForm.
  destruct (list_ascii_of_string (stripHash h))
    as [|a [|b [|c [|d [|e [|f [|g l]]]]]]] eqn:E; try discriminate Hlen.
  - assert (Es : stripHash h = String a (String b (String c EmptyString))).
    { rewrite <- (string_of_list_ascii_of_string (stripHash h)), E. reflexivity. }
    rewrite Es. cbn [toLowerCase list_ascii_of_string].
    rewrite <- (tinycolor_shorthand h a b c Hh Es).
    cbn [forallb] in Hd.
    apply andb_prop in Hd as [Ha Hd]. apply andb_prop in Hd as [Hb Hd].
    apply andb_prop in Hd as [Hc _].
    destruct (tinycolor_hex6 a a b b c c) as [_ T]; [cbn [forallb]; now rewrite Ha, Hb, Hc|].
    rewrite <- (tinycolor_hash
                  (String a (String a (String b (String b (String c (String c EmptyString))))))).
    + assert (Hne : Ascii.eqb a "#" = false).
      { destruct (Ascii.eqb_spec a "#") as [->|]; [discriminate Ha|reflexivity]. }
      rewrite (stripHash_other _ _ Hne). cbv zeta in T. rewrite T. reflexivity.
    + unfold plain. cbn [list_ascii_of_string forallb].
      now rewrite !isHexDigit_plainChar.
  - assert (Es : stripHash h =
                 String a (String b (String c (String d (String e (String f EmptyString)))))).
    { rewrite <- (string_of_list_ascii_of_string (stripHash h)), E. reflexivity. }
    rewrite Es. cbn [toLowerCase list_ascii_of_string].
    rewrite <- (tinycolor_hash h Hp), Es.
    destruct (tinycolor_hex6 a b c d e f Hd) as [_ T]. cbv zeta in T. rewrite T.
    reflexivity.
Qed.

(** X16: for a non-empty list, [displayPalette] shows one swatch per string
    the parser accepts, in the order of the list, each labelled with the
    normalized hex string of its own colour, and skips the others; a valid
    hex colour string of 3 or 6 digits is labelled with [#] and its six
    digits in lower case, and a colour name with [#] and the six digits of
    its entry in the table of names.  The fallback message is shown for the
    empty list only. *)
Theorem display_skips_invalid (colors : list string) (title : string) :
  colors <> [] ->
  exists hexes,
    displayPalette colors title = Swatches title hexes /\
    Forall2
      (fun c hex =>
         hex = toHexString (tinycolor c) /\ normalizedHex hex = true /\
         (validHex c = true -> hex = sixDigitForm c) /\
         (forall entry,
            lookup (toLowerCase (trimRight (trimLeft c))) names = Some entry ->
            hex = sixDigitForm entry))
      (filter (fun c => isValid (tinycolor c)) colors) hexes /\
    displayPalette [] title = NoColors title.
Proof.
  intros Hne. exists (map toHexString (filter isValid (map tinycolor colors))).
  split; [destruct colors; [contradiction|reflexivity]|].
  split; [|reflexivity]. clear Hne.
  induction colors as [|c colors IH]; [constructor|].
  cbn [map filter]. destruct (isValid (tinycolor c)); [|exact IH].
  cbn [map]. constructor; [|exact IH].
  split; [reflexivity|]. split; [apply normalized_element|].
  split; [apply validHex_label|apply name_label].
Qed.

(** ** Every palette can be drawn *)

Lemma outcomeOf_unit c : 0 <= outcomeOf c /\ outcomeOf c < 1.
Proof.
  assert (H : forall c, Qle_bool 0 (outcomeOf c) && Js.lt (outcomeOf c) 1 = true)
    by (apply forall_ascii; vm_compute; reflexivity).
  specialize (H c). apply andb_prop in H as [H0 H1].
  apply Qle_bool_iff in H0. split; [exact H0|].
  destruct (Js_lt_spec (outcomeOf c) 1); [assumption|discriminate].
Qed.

Lemma hexDigitAt_outcomeOf c : isUpperHexDigit c = true -> hexDigitAt (outcomeOf c) = c.
Proof.
  assert (H : forall c,
             negb (isUpperHexDigit c) || Ascii.eqb (hexDigitAt (outcomeOf c)) c = true)
    by (apply forall_ascii; vm_compute; reflexivity).
  intros Hc. specialize (H c). rewrite Hc in H. now apply Ascii.eqb_eq.
Qed.

Lemma matchesUpperHexColor_digits s :
  matchesUpperHexColor s = true ->
  exists d1 d2 d3 d4 d5 d6,
    s = String "#" (String d1 (String d2 (String d3 (String d4 (String d5 (String d6 EmptyString)))))) /\
    forallb isUpperHexDigit [d1; d2; d3; d4; d5; d6] = true.
Proof.
  unfold matchesUpperHexColor. destruct s as [|c digits]; [discriminate|].
  destruct (Ascii.eqb_spec c "#") as [->|Hc].
  - intros H. apply andb_prop in H as [L F].
    destruct digits as [|d1 [|d2 [|d3 [|d4 [|d5 [|d6 [|? ?]]]]]]]; try discriminate.
    now exists d1, d2, d3, d4, d5, d6.
  - destruct c as [[] [] [] [] [] [] [] []]; try discriminate. now contradiction Hc.
Qed.

(** X17: every palette of five colours written [#] and six upper-case hex
    digits is the outcome of [generatePalette] for some sequence of values
    of [Math.random()]; it uses thirty of them. *)
Theorem random_reaches_every_palette (c1 c2 c3 c4 c5 : string) :
  Forall (fun c => matchesUpperHexColor c = true) [c1; c2; c3; c4; c5] ->
  exists rand,
    unitInterval rand /\
    generatePalette rand 0 = ([c1; c2; c3; c4; c5], 30%nat).
Proof.
  intros H.
  inversion_clear H as [|? ? H1 Ha]. inversion_clear Ha as [|? ? H2 Hb].
  inversion_clear Hb as [|? ? H3 Hc]. inversion_clear Hc as [|? ? H4 Hd].
  inversion_clear Hd as [|? ? H5 _].
  destruct (matchesUpperHexColor_digits _ H1) as (a1 & a2 & a3 & a4 & a5 & a6 & -> & Fa).
  destruct (matchesUpperHexColor_digits _ H2) as (b1 & b2 & b3 & b4 & b5 & b6 & -> & Fb).
  destruct (matchesUpperHexColor_digits _ H3) as (x1 & x2 & x3 & x4 & x5 & x6 & -> & Fx).
  destruct (matchesUpperHexColor_digits _ H4) as (y1 & y2 & y3 & y4 & y5 & y6 & -> & Fy).
  destruct (matchesUpperHexColor_digits _ H5) as (z1 & z2 & z3 & z4 & z5 & z6 & -> & Fz).
  cbn [forallb] in Fa, Fb, Fx, Fy, Fz.
  repeat match goal with
         | F : _ && _ = true |- _ => apply andb_prop in F as [? F]
         end.
  exists (fun k =>
            outcomeOf
              (nth k [a1; a2; a3; a4; a5; a6; b1; b2; b3; b4; b5; b6;
                      x1; x2; x3; x4; x5; x6; y1; y2; y3; y4; y5; y6;
                      z1; z2; z3; z4; z5; z6] "0"%char)).
  split; [intros k; apply outcomeOf_unit|].
  rewrite generatePalette_drawn by (intros k; apply outcomeOf_unit).
  unfold drawnColor. cbn [seq map Nat.add nth string_of_list_ascii].
  rewrite !hexDigitAt_outcomeOf by assumption. reflexivity.
Qed.

(** ** The canvases *)

Lemma vars_updateColorFromPicker_canvas st scr :
  vars (updateColorFromPicker_canvas st scr) = updateColorFromPicker st.
Proof.
  unfold updateColorFromPicker_canvas, updateColorFromPicker.
  now destruct (handleGenerateHarmony st).
Qed.

(** The variables of the screen evolve as [handle] says. *)
Lemma vars_listener ev scr : vars (listener ev scr) = handle ev (vars scr).
Proof.
  destruct ev; cbn [listener handle].
  - reflexivity.
  - apply vars_updateColorFromPicker_canvas.
  - apply vars_updateColorFromPicker_canvas.
  - unfold baseColorInput_input.
    destruct (isValid (tinycolor (baseColorInput_value (setBaseColorInput text (vars scr)))));
      [|reflexivity].
    destruct (toHsl _) as [[h s] l]. apply vars_updateColorFromPicker_canvas.
  - unfold hueWheelCanvas_mousedown. apply vars_updateColorFromPicker_canvas.
  - unfold hueWheelCanvas_mousemove. destruct (isDraggingHue (vars scr)); [|reflexivity].
    apply vars_updateColorFromPicker_canvas.
  - unfold slPickerCanvas_mousedown. apply vars_updateColorFromPicker_canvas.
  - unfold slPickerCanvas_mousemove. destruct (isDraggingSL (vars scr)); [|reflexivity].
    apply vars_updateColorFromPicker_canvas.
  - reflexivity.
Qed.

Lemma vars_initializeApp_canvas st : vars (initializeApp_canvas st) = initializeApp st.
Proof.
  unfold initializeApp_canvas, initializeApp.
  rewrite vars_updateColorFromPicker_canvas. reflexivity.
Qed.

Lemma displayed_reachable baseColor rule scr :
  displayed baseColor rule scr -> reachable baseColor rule (vars scr).
Proof.
  induction 1 as [|scr ev _ IH Hev].
  - rewrite vars_initializeApp_canvas. constructor.
  - rewrite vars_listener. now constructor.
Qed.

Lemma reachable_inRange baseColor rule st : reachable baseColor rule st -> inRange st.
Proof.
  induction 1 as [|st ev _ IH Hev];
    [apply initializeApp_inRange|now apply handle_inRange].
Qed.

Lemma drawHueWheel_picker p st st' :
  currentHue st' = currentHue st ->
  currentSaturation st' = currentSaturation st ->
  currentLightness st' = currentLightness st ->
  drawHueWheel p st' = drawHueWheel p st.
Proof. intros Hh Hs Hl. unfold drawHueWheel. now rewrite Hh, Hs, Hl. Qed.

Lemma drawSLPicker_picker st st' :
  currentHue st' = currentHue st ->
  currentSaturation st' = currentSaturation st ->
  currentLightness st' = currentLightness st ->
  drawSLPicker st' = drawSLPicker st.
Proof. intros Hh Hs Hl. unfold drawSLPicker. now rewrite Hh, Hs, Hl. Qed.

Lemma pickerHex_picker st st' :
  currentHue st' = currentHue st ->
  currentSaturation st' = currentSaturation st ->
  currentLightness st' = currentLightness st ->
  pickerHex st' = pickerHex st.
Proof. intros Hh Hs Hl. unfold pickerHex. now rewrite Hh, Hs, Hl. Qed.

Lemma upToDate_setVars st scr :
  currentHue st = currentHue (vars scr) ->
  currentSaturation st = currentSaturation (vars scr) ->
  currentLightness st = currentLightness (vars scr) ->
  harmonyRuleSelect_value st = harmonyRuleSelect_value (vars scr) ->
  upToDate scr -> upToDate (setVars st scr).
Proof.
  intros Hh Hs Hl Hr [[e1 E1] [e2 E2]]. unfold upToDate, setVars.
  cbn [vars hueWheelCtx slPickerCtx].
  rewrite (drawHueWheel_picker _ _ _ Hh Hs Hl), (drawSLPicker_picker _ _ Hh Hs Hl),
    (pickerHex_picker _ _ Hh Hs Hl), Hr.
  split; [now exists e1|now exists e2].
Qed.

Lemma updateColorFromPicker_canvas_run st scr :
  exists palette,
    generateHarmonyPalette (pickerHex st) (harmonyRuleSelect_value st) = inr palette /\
    updateColorFromPicker_canvas st scr =
      mkScreen (updateColorFromPicker st)
        (hueWheelCtx scr ++ drawHueWheel (inr palette) st)
        (slPickerCtx scr ++ drawSLPicker st).
Proof.
  destruct (handleGenerateHarmony_run st) as (palette & E & R).
  exists palette. split; [exact E|].
  unfold updateColorFromPicker_canvas, updateColorFromPicker. rewrite R. cbn [fst].
  f_equal.
Qed.

Lemma updateColorFromPicker_canvas_upToDate st scr :
  upToDate (updateColorFromPicker_canvas st scr).
Proof.
  destruct (updateColorFromPicker_canvas_run st scr) as (palette & E & ->).
  destruct (updateColorFromPicker_run st) as (palette' & E' & R).
  unfold upToDate. cbn [vars hueWheelCtx slPickerCtx].
  assert (Hh : currentHue (updateColorFromPicker st) = currentHue st) by now rewrite R.
  assert (Hs : currentSaturation (updateColorFromPicker st) = currentSaturation st)
    by now rewrite R.
  assert (Hl : currentLightness (updateColorFromPicker st) = currentLightness st)
    by now rewrite R.
  assert (Hr : harmonyRuleSelect_value (updateColorFromPicker st) = harmonyRuleSelect_value st)
    by now rewrite R.
  rewrite (drawHueWheel_picker _ _ _ Hh Hs Hl), (drawSLPicker_picker _ _ Hh Hs Hl),
    (pickerHex_picker _ _ Hh Hs Hl), Hr, E.
  split; eexists; reflexivity.
Qed.

Lemma listener_upToDate ev scr : upToDate scr -> upToDate (listener ev scr).
Proof.
  intros H. destruct ev; cbn [listener].
  2, 3, 5, 7: apply updateColorFromPicker_canvas_upToDate.
  - now apply upToDate_setVars.
  - destruct (isValid (tinycolor (baseColorInput_value (setBaseColorInput text (vars scr))))).
    + destruct (toHsl _) as [[h s] l]. apply updateColorFromPicker_canvas_upToDate.
    + now apply upToDate_setVars.
  - destruct (isDraggingHue (vars scr)); [|exact H].
    apply updateColorFromPicker_canvas_upToDate.
  - destruct (isDraggingSL (vars scr)); [|exact H].
    apply updateColorFromPicker_canvas_upToDate.
  - now apply upToDate_setVars.
Qed.

(** X18: the canvases are never stale: on every screen the page goes
    through, the last picture on the hue wheel is the one [drawHueWheel]
    draws for the current triple and the palette of the current triple and
    rule, and the last picture on the pad is the one [drawSLPicker] draws
    for the current triple. *)
Theorem canvases_up_to_date (baseColor rule : string) (scr : screen) :
  displayed baseColor rule scr -> upToDate scr.
Proof.
  induction 1 as [|scr ev _ IH _].
  - unfold initializeApp_canvas. apply updateColorFromPicker_canvas_upToDate.
  - now apply listener_upToDate.
Qed.

Lemma updateColorFromPicker_picker st :
  currentHue (updateColorFromPicker st) = currentHue st /\
  currentSaturation (updateColorFromPicker st) = currentSaturation st /\
  currentLightness (updateColorFromPicker st) = currentLightness st.
Proof. unfold updateColorFromPicker. apply handleGenerateHarmony_picker. Qed.

Lemma circles_app a b : circles (a ++ b) = (circles a ++ circles b)%list.
Proof. apply flat_map_app. Qed.

Lemma circles_drawSLPicker st :
  circles (drawSLPicker st) =
    [(currentSaturation st * slPickerCanvas_width,
      (1 - currentLightness st) * slPickerCanvas_height,
      SL_MARKER_RADIUS)].
Proof. reflexivity. Qed.

Lemma scale_range t w : 0 <= t -> t <= 1 -> 0 < w -> 0 <= t * w /\ t * w <= w.
Proof.
  intros H0 H1 Hw. split.
  - apply Qmult_le_0_compat; lra.
  - setoid_replace w with (1 * w) at 2 by ring.
    apply Qmult_le_compat_r; lra.
Qed.

Lemma clamp_unit v : 0 <= Js.max 0 (Js.min 1 v) /\ Js.max 0 (Js.min 1 v) <= 1.
Proof. unfold Js.max, Js.min. repeat js_case; lra. Qed.

(** X19: on binary64, a press on the saturation/lightness pad puts the
    marker under the pointer up to rounding: for a pointer inside the
    canvas the centre [drawSLPicker] computes is within [width * 2^-52] of
    the abscissa of the press and within [height * 2^-51] of its ordinate
    (it need not be equal to them), and for a pointer outside it lies on
    the nearest edge; the width and height are numbers of the canvas, 1 at
    least. *)
Theorem sl_marker_at_pointer (x y : Q) (st : Double.picker) :
  1 <= slPickerCanvas_width -> 1 <= slPickerCanvas_height ->
  Double.round slPickerCanvas_width == slPickerCanvas_width ->
  Double.round slPickerCanvas_height == slPickerCanvas_height ->
  let st' := Double.slPickerCanvas_mousedown x y st in
  let mx := fst (Double.marker st') in
  let my := snd (Double.marker st') in
  (0 <= x <= slPickerCanvas_width -> Qabs (mx - x) <= slPickerCanvas_width * 2 ^ (-52)) /\
  (0 <= y <= slPickerCanvas_height -> Qabs (my - y) <= slPickerCanvas_height * 2 ^ (-51)) /\
  (x <= 0 -> mx == 0) /\ (slPickerCanvas_width <= x -> mx == slPickerCanvas_width) /\
  (y <= 0 -> my == 0) /\ (slPickerCanvas_height <= y -> my == slPickerCanvas_height).
Proof.
  intros Hw Hh Rw Rh st' mx my.
  destruct (marker64_x x slPickerCanvas_width Hw Rw) as (X & X0 & X1).
  destruct (marker64_y y slPickerCanvas_height Hh Rh) as (Y & Y0 & Y1).
  unfold mx, my, st', Double.marker, Double.slPickerCanvas_mousedown, Double.setSLFromPoint.
  cbn [fst snd Double.currentSaturation Double.currentLightness Double.setHsl
         Double.setDragging].
  split; [intros Hx; apply Qabs_Qle_condition, X, Hx|].
  split; [intros Hy; apply Qabs_Qle_condition, Y, Hy|].
  split; [exact X0|]. split; [exact X1|]. split; [exact Y0|exact Y1].
Qed.

(** X20: the marker of the saturation/lightness pad never leaves the pad:
    on every screen the page goes through, the last picture on the pad is
    the one of the current triple, and its marker is centred inside the
    canvas. *)
Theorem sl_marker_inside (baseColor rule : string) (scr : screen) :
  0 < slPickerCanvas_width -> 0 < slPickerCanvas_height ->
  displayed baseColor rule scr ->
  exists earlier mx my,
    slPickerCtx scr = (earlier ++ drawSLPicker (vars scr))%list /\
    circles (drawSLPicker (vars scr)) = [(mx, my, SL_MARKER_RADIUS)] /\
    0 <= mx /\ mx <= slPickerCanvas_width /\
    0 <= my /\ my <= slPickerCanvas_height.
Proof.
  intros Hw Hh H.
  assert (U : upToDate scr).
  { clear Hw Hh. induction H as [|scr ev _ IH _].
    - unfold initializeApp_canvas. apply updateColorFromPicker_canvas_upToDate.
    - now apply listener_upToDate. }
  pose proof (reachable_inRange _ _ _ (displayed_reachable _ _ _ H)) as R.
  destruct U as [_ [earlier E]]. destruct R as (_ & _ & [Hs0 Hs1] & [Hl0 Hl1]).
  exists earlier. eexists _, _. split; [exact E|].
  rewrite circles_drawSLPicker. split; [reflexivity|].
  destruct (scale_range (currentSaturation (vars scr)) _ Hs0 Hs1 Hw).
  destruct (scale_range (1 - currentLightness (vars scr)) slPickerCanvas_height)
    as [? ?]; lra.
Qed.

(** ** The indicators on the hue wheel *)

Lemma hueSegment_circles cx cy r b l :
  List.length (circles (flat_map (hueSegment cx cy r b) l)) = List.length l.
Proof.
  induction l as [|a l IH]; [reflexivity|].
  cbn [flat_map]. rewrite circles_app, length_app, IH. reflexivity.
Qed.

Lemma normalizedHex_lower c : normalizedHex c = true -> toLowerCase c = c.
Proof.
  unfold normalizedHex. intros H. apply andb_prop in H as [_ H]. now apply String.eqb_eq.
Qed.

Lemma harmonyIndicator_circles cx cy r base c :
  toLowerCase c = c -> toLowerCase base = base -> isValid (tinycolor c) = true ->
  List.length (circles (harmonyIndicator cx cy r base c)) =
    if String.eqb c base then 0%nat else 1%nat.
Proof.
  intros Ec Eb Hv. unfold harmonyIndicator. rewrite Ec, Eb.
  destruct (String.eqb c base); [reflexivity|]. rewrite Hv.
  destruct (toHsl (tinycolor c)) as [[h s] l]. reflexivity.
Qed.

Lemma indicators_circles cx cy r base colors :
  toLowerCase base = base ->
  Forall (fun c => normalizedHex c = true /\ isValid (tinycolor c) = true) colors ->
  List.length (circles (flat_map (harmonyIndicator cx cy r base) colors)) =
    List.length (filter (fun c => negb (String.eqb c base)) colors).
Proof.
  intros Eb. induction 1 as [|c colors [Hn Hv] _ IH]; [reflexivity|].
  cbn [flat_map filter]. rewrite circles_app, length_app, IH.
  rewrite (harmonyIndicator_circles _ _ _ _ _ (normalizedHex_lower _ Hn) Eb Hv).
  destruct (String.eqb c base); reflexivity.
Qed.

Lemma pickerHex_lower st : toLowerCase (pickerHex st) = pickerHex st.
Proof. apply normalizedHex_lower, toHexString_normalizedHex. Qed.

Lemma drawHueWheel_circles palette st :
  Forall (fun c => normalizedHex c = true /\ isValid (tinycolor c) = true) palette ->
  List.length (circles (drawHueWheel (inr palette) st)) =
    (360 + 1 + List.length (filter (fun c => negb (String.eqb c (pickerHex st))) palette))%nat.
Proof.
  intros H. unfold drawHueWheel. cbv zeta.
  rewrite !circles_app, !length_app, hueSegment_circles, length_seq.
  destruct palette as [|c colors]; [reflexivity|].
  change (toHexString
            (fromHsl (currentHue st) (currentSaturation st) (currentLightness st) None))
    with (pickerHex st).
  rewrite (indicators_circles _ _ _ (pickerHex st) (c :: colors) (pickerHex_lower st) H).
  reflexivity.
Qed.

Lemma filter_shorter {A} (f : A -> bool) (x : A) (l : list A) :
  In x l -> f x = false -> (List.length (filter f l) < List.length l)%nat.
Proof.
  induction l as [|a l IH]; [contradiction|].
  intros [->|Hin] Hx; cbn [filter List.length].
  - rewrite Hx. pose proof (filter_length_le f l). lia.
  - specialize (IH Hin Hx). destruct (f a); cbn [List.length]; lia.
Qed.

(** Under every rule but [monochromatic] the palette of a colour read from
    a hex string holds the hex string of that colour. *)
Lemma palette_holds_base b rule palette :
  hexRead (tinycolor b) ->
  rule <> "monochromatic" ->
  generateHarmonyPalette b rule = inr palette ->
  In (toHexString (tinycolor b)) palette.
Proof.
  intros Hb Hm H. pose proof (hexRead_isValid _ Hb) as Hv.
  destruct (in_dec string_dec rule harmonyRules) as [Hin|Hout].
  - assert (E : exists x y z t u,
               generateHarmonyPalette b rule = inr [x; y; z; t; u] /\
               (x = toHexString (tinycolor b) \/ z = toHexString (tinycolor b))).
    { simpl in Hin. destruct Hin as [<-|[<-|[<-|[<-|[<-|[<-|[<-|[]]]]]]]].
      - enter_rule Hv. unfold analogous.
        destruct (toHsl (tinycolor b)) as [[h s] l].
        cbn [Nat.add Nat.eqb Nat.sub analogousLoop]. unfold slice.
        rewrite skipn_map, firstn_map. cbn [Nat.sub skipn firstn].
        match goal with
        | |- context [toHexString ?a :: map toHexString ?l] =>
            change (toHexString a :: map toHexString l) with (map toHexString (a :: l));
            rewrite (normalize_map (a :: l))
              by (repeat constructor; auto using fromHsl_constructed, tinycolor_constructed)
        end.
        cbn [map]. eexists _, _, _, _, _. split; [reflexivity|now left].
      - contradiction.
      - enter_rule Hv. unfold splitcomplement.
        destruct (toHsl (tinycolor b)) as [[h s] l].
        cbn [map at_ nth]. rewrite slice_all. drop_normalization.
        eexists _, _, _, _, _. split; [reflexivity|now left].
      - enter_rule Hv. unfold triad, polyad.
        destruct (toHsl (tinycolor b)) as [[h s] l].
        cbn [map seq Nat.sub List.length Nat.ltb Nat.leb andb app at_ nth].
        rewrite slice_all. drop_normalization.
        eexists _, _, _, _, _. split; [reflexivity|now left].
      - enter_rule Hv. unfold tetrad, polyad.
        destruct (toHsl (tinycolor b)) as [[h s] l].
        cbn [map seq Nat.sub List.length Nat.ltb Nat.leb andb app at_ nth].
        rewrite slice_all. drop_normalization.
        eexists _, _, _, _, _. split; [reflexivity|now left].
      - rewrite (palette_complement b Hb).
        eexists _, _, _, _, _. split; [reflexivity|now left].
      - rewrite (palette_shades b Hb).
        eexists _, _, _, _, _. split; [reflexivity|now right]. }
    destruct E as (x & y & z & t & u & E & Hxz). rewrite E in H. injection H as <-.
    destruct Hxz as [<-|<-]; simpl; auto.
  - rewrite (palette_default b rule Hv Hout) in H. injection H as <-. now left.
Qed.

(** ** From HSL back to the bytes *)

(** Split on every comparison, reducing the conditionals as they are
    decided. *)
Ltac js_split := repeat (js_case; cbv beta iota in *).

Lemma hue2rgb_affine p q t : hue2rgb p q t == p + (q - p) * hue2rgb 0 1 t.
Proof. unfold hue2rgb. repeat js_case; ring. Qed.

Lemma hue2rgb_compat p q t t' : t == t' -> hue2rgb p q t == hue2rgb p q t'.
Proof.
  intros H. unfold hue2rgb. js_split; try lra; rewrite H; reflexivity.
Qed.

Lemma weight_range t : -(1 # 3) <= t -> t <= 4 # 3 -> 0 <= hue2rgb 0 1 t <= 1.
Proof. intros H0 H1. unfold hue2rgb. js_split; lra. Qed.

Lemma quot_range u d a lo hi :
  0 < d -> u * d == a -> lo * d <= a -> a <= hi * d -> lo <= u <= hi.
Proof.
  intros Hd E Hlo Hhi.
  assert (Eu : u == a / d) by (rewrite <- E; field; lra).
  rewrite Eu. now apply div_range.
Qed.

(** The weights of the three channels, sector by sector: [u] is the
    quotient the [switch] of [rgbToHsl] computes, [d] the chroma. *)
Lemma sector_red_up r g b d u :
  b <= g -> g <= r -> 0 < d -> d == r - b -> u * d == g - b ->
  hue2rgb 0 1 (u * (1 # 6) + (1 # 3)) * d == r - b /\
  hue2rgb 0 1 (u * (1 # 6)) * d == g - b /\
  hue2rgb 0 1 (u * (1 # 6) - (1 # 3)) * d == 0.
Proof.
  intros Hbg Hgr Hd Ed Eu.
  destruct (quot_range u d (g - b) 0 1 Hd Eu) as [U0 U1]; try lra.
  unfold hue2rgb. repeat split; js_split; try lra; nra.
Qed.

Lemma sector_red_down r g b d u :
  g < b -> b <= r -> 0 < d -> d == r - g -> u * d == g - b ->
  hue2rgb 0 1 ((u + 6) * (1 # 6) + (1 # 3)) * d == r - g /\
  hue2rgb 0 1 ((u + 6) * (1 # 6)) * d == 0 /\
  hue2rgb 0 1 ((u + 6) * (1 # 6) - (1 # 3)) * d == b - g.
Proof.
  intros Hgb Hbr Hd Ed Eu.
  destruct (quot_range u d (g - b) (-1) 0 Hd Eu) as [U0 U1]; try lra.
  unfold hue2rgb. repeat split; js_split; try lra; nra.
Qed.

Lemma sector_green r g b m d u :
  r <= g -> b <= g -> m <= r -> m <= b -> m == r \/ m == b ->
  0 < d -> d == g - m -> u * d == b - r ->
  hue2rgb 0 1 ((u + 2) * (1 # 6) + (1 # 3)) * d == r - m /\
  hue2rgb 0 1 ((u + 2) * (1 # 6)) * d == g - m /\
  hue2rgb 0 1 ((u + 2) * (1 # 6) - (1 # 3)) * d == b - m.
Proof.
  intros Hrg Hbg Hmr Hmb Hm Hd Ed Eu.
  destruct Hm as [Em|Em].
  - destruct (quot_range u d (b - r) 0 1 Hd Eu) as [U0 U1]; try lra.
    unfold hue2rgb. repeat split; js_split; try lra; nra.
  - destruct (quot_range u d (b - r) (-1) 0 Hd Eu) as [U0 U1]; try lra.
    unfold hue2rgb. repeat split; js_split; try lra; nra.
Qed.

Lemma sector_blue r g b m d u :
  r <= b -> g <= b -> m <= r -> m <= g -> m == r \/ m == g ->
  0 < d -> d == b - m -> u * d == r - g ->
  hue2rgb 0 1 ((u + 4) * (1 # 6) + (1 # 3)) * d == r - m /\
  hue2rgb 0 1 ((u + 4) * (1 # 6)) * d == g - m /\
  hue2rgb 0 1 ((u + 4) * (1 # 6) - (1 # 3)) * d == b - m.
Proof.
  intros Hrb Hgb Hmr Hmg Hm Hd Ed Eu.
  destruct Hm as [Em|Em].
  - destruct (quot_range u d (r - g) (-1) 0 Hd Eu) as [U0 U1]; try lra.
    unfold hue2rgb. repeat split; js_split; try lra; nra.
  - destruct (quot_range u d (r - g) 0 1 Hd Eu) as [U0 U1]; try lra.
    unfold hue2rgb. repeat split; js_split; try lra; nra.
Qed.

(** Write every division by a numeral as a multiplication, for [lra]. *)
Ltac constant_divisions :=
  unfold Qdiv in *;
  repeat match goal with
    | |- context [/ (?n # ?d)] =>
        let v := eval compute in (/ (n # d)) in change (/ (n # d)) with v
    | H : context [/ (?n # ?d)] |- _ =>
        let v := eval compute in (/ (n # d)) in change (/ (n # d)) with v in H
    end.

Lemma floor_bounds x : inject_Z (Qfloor x) <= x /\ x < inject_Z (Qfloor x) + 1.
Proof.
  split; [apply Qfloor_le|].
  pose proof (Qlt_floor x) as H. rewrite inject_Z_plus in H. exact H.
Qed.

Lemma floor_unique x n : inject_Z n <= x -> x < inject_Z n + 1 -> Qfloor x = n.
Proof.
  intros H0 H1. destruct (floor_bounds x) as [F0 F1].
  assert (A : (Qfloor x < n + 1)%Z).
  { rewrite Zlt_Qlt, inject_Z_plus. change (inject_Z 1) with 1. lra. }
  assert (B : (n < Qfloor x + 1)%Z).
  { rewrite Zlt_Qlt, inject_Z_plus. change (inject_Z 1) with 1. lra. }
  lia.
Qed.

(** The hue of [toHsl()] read back by [hslToRgb]. *)
Lemma bound01_hue x :
  0 <= x -> x <= 3599 # 10 -> bound01 (Num x) 360 == x * (1 # 360).
Proof.
  intros H0 H1. unfold bound01.
  assert (En : Js.min 360 (Js.max 0 x) == x)
    by (unfold Js.min, Js.max; js_split; lra).
  assert (Et : Js.trunc (Js.min 360 (Js.max 0 x) / 360) = 0%Z).
  { apply trunc_unit.
    - apply Qle_shift_div_l; lra.
    - apply div_lt; lra. }
  unfold Js.rem. rewrite Et. unfold Js.abs.
  js_split; try lra.
  rewrite En. constant_divisions. change (inject_Z 0) with 0. ring.
Qed.

(** A saturation or lightness in [0, 1] passed through
    [convertToPercentage] and read back by [hslToRgb]: truncated to four
    decimals. *)
Lemma bound01_pct v :
  0 <= v -> v <= 1 ->
  v - (1 # 10000) < bound01 (convertToPercentage (Num v)) 100 /\
  bound01 (convertToPercentage (Num v)) 100 <= v /\
  0 <= bound01 (convertToPercentage (Num v)) 100 /\
  ((1 # 2) <= v -> (1 # 2) <= bound01 (convertToPercentage (Num v)) 100).
Proof.
  intros H0 H1. unfold convertToPercentage.
  destruct (Js_le_spec v 1) as [_|C]; [|lra].
  unfold bound01.
  assert (En : Js.min 100 (Js.max 0 (v * 100)) == v * 100)
    by (unfold Js.min, Js.max; js_split; lra).
  set (k := Js.trunc (Js.min 100 (Js.max 0 (v * 100)) * 100)).
  assert (Ek : k = Qfloor (v * 10000)).
  { unfold k, Js.trunc. js_split; [lra|].
    apply Qfloor_comp. rewrite En. ring. }
  destruct (floor_bounds (v * 10000)) as [F0 F1]. rewrite <- Ek in F0, F1.
  assert (K0 : 0 <= inject_Z k).
  { rewrite Ek. change 0 with (inject_Z 0). rewrite <- Zle_Qle.
    rewrite <- (Qfloor_Z 0). apply Qfloor_resp_le. unfold inject_Z. lra. }
  assert (Khalf : (1 # 2) <= v -> 5000 <= inject_Z k).
  { intros Hv. rewrite Ek. change 5000 with (inject_Z 5000). rewrite <- Zle_Qle.
    rewrite <- (Qfloor_Z 5000). apply Qfloor_resp_le. unfold inject_Z. lra. }
  clearbody k. clear Ek En.
  unfold Js.abs, Js.rem. constant_divisions.
  assert (Hint : 9999 < inject_Z k -> 10000 <= inject_Z k).
  { intros Hk. change 10000 with (inject_Z 10000). rewrite <- Zle_Qle.
    assert (Hz : (9999 < k)%Z) by (rewrite Zlt_Qlt; unfold inject_Z at 1; lra).
    lia. }
  js_split; try lra.
  - rewrite trunc_unit by lra. change (inject_Z 0) with 0.
    repeat split; intros; lra.
Qed.

(** The two bounds [p] and [q] of [hslToRgb] computed from a truncated
    saturation and lightness stay close to the smallest and the largest
    channel. *)
Lemma truncated_bounds M m d l s l' s' :
  0 <= m -> m < M -> M <= 1 -> d == M - m ->
  l * 2 == M + m ->
  (if Js.lt (1 # 2) l then s * (2 - M - m) == d else s * (M + m) == d) ->
  l - (1 # 10000) < l' -> l' <= l -> 0 <= l' ->
  s - (1 # 10000) < s' -> s' <= s -> 0 <= s' ->
  ((1 # 2) <= l -> (1 # 2) <= l') ->
  let q := if Js.lt l' (1 # 2) then l' * (1 + s') else l' + s' - l' * s' in
  let p := 2 * l' - q in
  M - (5 # 10000) <= q /\ q <= M + (5 # 10000) /\
  m - (5 # 10000) <= p /\ p <= m + (5 # 10000).
Proof.
  intros Hm HmM HM Ed El Es Hl1 Hl2 Hl0 Hs1 Hs2 Hs0 Hhalf q p. unfold p, q. clear p q.
  assert (S1 : s <= 1).
  { destruct (Js_lt_spec (1 # 2) l).
    - destruct (quot_range s (2 - M - m) d 0 1) as [_ ?]; lra.
    - destruct (quot_range s (M + m) d 0 1) as [_ ?]; lra. }
  destruct (Js_lt_spec l' (1 # 2)) as [Hlo|Hhi].
  - destruct (Js_lt_spec (1 # 2) l) as [C|_]; [specialize (Hhalf ltac:(lra)); lra|].
    assert (Hq : l * (1 + s) == M) by nra.
    repeat split; nra.
  - assert (Hq : l + s - l * s == M).
    { destruct (Js_lt_spec (1 # 2) l); nra. }
    repeat split; nra.
Qed.

(** A channel is a mix of the two bounds with the weight of its sector. *)
Lemma channel_close p q m M w x :
  M - (5 # 10000) <= q -> q <= M + (5 # 10000) ->
  m - (5 # 10000) <= p -> p <= m + (5 # 10000) ->
  0 <= w -> w <= 1 -> w * (M - m) == x - m ->
  x - (5 # 10000) <= p + (q - p) * w /\ p + (q - p) * w <= x + (5 # 10000).
Proof. intros. split; nra. Qed.

Lemma round_near x n :
  (0 <= n <= 255)%Z ->
  inject_Z n - (1 # 4) <= x -> x <= inject_Z n + (1 # 4) ->
  Js.round (roundSmall (clamp255 x)) = n.
Proof.
  intros [N0 N1] H0 H1.
  assert (Q0 : 0 <= inject_Z n) by (change 0 with (inject_Z 0); now rewrite <- Zle_Qle).
  assert (Q1 : inject_Z n <= 255) by (change 255 with (inject_Z 255); now rewrite <- Zle_Qle).
  assert (Hy : inject_Z n - (1 # 4) <= clamp255 x /\ clamp255 x <= inject_Z n + (1 # 4))
    by (unfold clamp255, Js.min, Js.max; js_split; lra).
  destruct Hy as [Y0 Y1].
  assert (E : Js.round (clamp255 x) = n)
    by (unfold Js.round; apply floor_unique; lra).
  unfold roundSmall. js_split; [|exact E].
  rewrite E. unfold Js.round. apply floor_unique; lra.
Qed.

(** The channel of a colour read from a byte, as [rgbToHsl] receives it. *)
Lemma reading_byte n :
  (0 <= n <= 255)%Z ->
  bound01 (Num (roundSmall (clamp255 (bound01 (Num (inject_Z n)) 255 * 255)))) 255 ==
  inject_Z n * (1 # 255).
Proof.
  intros Hn. apply Qeq_bool_eq.
  apply (byte_forall
           (fun n =>
              Qeq_bool
                (bound01 (Num (roundSmall (clamp255 (bound01 (Num (inject_Z n)) 255 * 255)))) 255)
                (inject_Z n * (1 # 255))));
    [vm_compute; reflexivity|exact Hn].
Qed.

Lemma byte_gap R G r g :
  r == inject_Z R * (1 # 255) -> g == inject_Z G * (1 # 255) ->
  r < g -> r + (1 # 255) <= g.
Proof.
  intros Er Eg H.
  assert (Hz : (R < G)%Z) by (rewrite Zlt_Qlt; lra).
  assert (Hq : inject_Z R + 1 <= inject_Z G).
  { change 1 with (inject_Z 1). rewrite <- inject_Z_plus, <- Zle_Qle. lia. }
  lra.
Qed.

Lemma byte_gap' R G r g :
  r == inject_Z R * (1 # 255) -> g == inject_Z G * (1 # 255) ->
  g <= r \/ r + (1 # 255) <= g.
Proof.
  intros Er Eg. destruct (Qlt_le_dec r g) as [H|H]; [right|now left].
  now apply (byte_gap R G).
Qed.

Lemma byte_unit R r : (0 <= R <= 255)%Z -> r == inject_Z R * (1 # 255) -> 0 <= r /\ r <= 1.
Proof.
  intros [N0 N1] E.
  assert (Q0 : 0 <= inject_Z R) by (change 0 with (inject_Z 0); now rewrite <- Zle_Qle).
  assert (Q1 : inject_Z R <= 255) by (change 255 with (inject_Z 255); now rewrite <- Zle_Qle).
  lra.
Qed.

(** One channel of [hslToRgb], from the weight of its sector. *)
Lemma hue2rgb_close p q M m d t c x X :
  M - (5 # 10000) <= q /\ q <= M + (5 # 10000) /\
  m - (5 # 10000) <= p /\ p <= m + (5 # 10000) ->
  d == M - m -> t == c -> -(1 # 3) <= c -> c <= 4 # 3 ->
  hue2rgb 0 1 c * d == x - m ->
  x == inject_Z X * (1 # 255) ->
  inject_Z X - (1 # 4) <= hue2rgb p q t * 255 /\
  hue2rgb p q t * 255 <= inject_Z X + (1 # 4).
Proof.
  intros (Q0 & Q1 & P0 & P1) Ed Et C0 C1 Ew Ex.
  rewrite (hue2rgb_affine p q t), (hue2rgb_compat 0 1 t c Et).
  destruct (weight_range c C0 C1) as [W0 W1].
  assert (Ew' : hue2rgb 0 1 c * (M - m) == x - m) by (rewrite <- Ed; exact Ew).
  destruct (channel_close p q m M (hue2rgb 0 1 c) x Q0 Q1 P0 P1 W0 W1 Ew') as [A B].
  lra.
Qed.

Lemma max3_spec r g b :
  r <= Js.max3 r g b /\ g <= Js.max3 r g b /\ b <= Js.max3 r g b /\
  (Js.max3 r g b == r \/ Js.max3 r g b == g \/ Js.max3 r g b == b).
Proof.
  unfold Js.max3, Js.max. js_split; repeat split; try lra;
    first [left; lra|right; left; lra|right; right; lra].
Qed.

Lemma min3_spec r g b :
  Js.min3 r g b <= r /\ Js.min3 r g b <= g /\ Js.min3 r g b <= b /\
  (Js.min3 r g b == r \/ Js.min3 r g b == g \/ Js.min3 r g b == b).
Proof.
  unfold Js.min3, Js.min. js_split; repeat split; try lra;
    first [left; lra|right; left; lra|right; right; lra].
Qed.

(** [hslToRgb] on the HSL reading of three bytes gives the bytes back, up
    to a quarter. *)
Lemma hslToRgb_rgbToHsl (R G B : Z) (xr xg xb hq : Q) :
  (0 <= R <= 255)%Z -> (0 <= G <= 255)%Z -> (0 <= B <= 255)%Z ->
  bound01 (Num xr) 255 == inject_Z R * (1 # 255) ->
  bound01 (Num xg) 255 == inject_Z G * (1 # 255) ->
  bound01 (Num xb) 255 == inject_Z B * (1 # 255) ->
  hq == fst (fst (rgbToHsl xr xg xb)) * 360 ->
  let s := snd (fst (rgbToHsl xr xg xb)) in
  let l := snd (rgbToHsl xr xg xb) in
  let out := hslToRgb (Num hq) (convertToPercentage (Num s)) (convertToPercentage (Num l)) in
  (inject_Z R - (1 # 4) <= fst (fst out) /\ fst (fst out) <= inject_Z R + (1 # 4)) /\
  (inject_Z G - (1 # 4) <= snd (fst out) /\ snd (fst out) <= inject_Z G + (1 # 4)) /\
  (inject_Z B - (1 # 4) <= snd out /\ snd out <= inject_Z B + (1 # 4)).
Proof.
  intros HR HG HB. unfold rgbToHsl.
  generalize (bound01 (Num xr) 255) as r.
  generalize (bound01 (Num xg) 255) as g.
  generalize (bound01 (Num xb) 255) as b.
  intros b g r Er Eg Eb. cbv zeta.
  destruct (byte_unit R r HR Er) as [R0 R1].
  destruct (byte_unit G g HG Eg) as [G0 G1].
  destruct (byte_unit B b HB Eb) as [B0 B1].
  destruct (max3_spec r g b) as (Mr & Mg & Mb & HM).
  destruct (min3_spec r g b) as (mr & mg & mb & Hm).
  set (M := Js.max3 r g b) in *. set (m := Js.min3 r g b) in *.
  destruct (Js_eq_spec M m) as [Egrey|Ecol]; cbn [fst snd].
  - (* grey *)
    intros Ehq.
    assert (El : 0 <= (M + m) / 2 /\ (M + m) / 2 <= 1) by (constant_divisions; lra).
    destruct (bound01_pct 0) as (_ & S1 & S0 & _); try lra.
    destruct (bound01_pct ((M + m) / 2)) as (L1 & L2 & L0 & _); try tauto.
    unfold hslToRgb.
    set (s' := bound01 (convertToPercentage (Num 0)) 100) in *.
    set (l' := bound01 (convertToPercentage (Num ((M + m) / 2))) 100) in *.
    destruct (Js_eq_spec s' 0) as [_|C]; [|exfalso; apply C; lra].
    cbn [fst snd]. constant_divisions. repeat split; lra.
  - (* coloured *)
    assert (Hd : 0 < M - m) by (destruct (Qlt_le_dec m M); [lra|exfalso; apply Ecol; lra]).
    assert (Hgap : (1 # 255) <= M - m).
    { destruct (byte_gap' R G r g Er Eg), (byte_gap' G R g r Eg Er),
        (byte_gap' R B r b Er Eb), (byte_gap' B R b r Eb Er),
        (byte_gap' G B g b Eg Eb), (byte_gap' B G b g Eb Eg); lra. }
    set (l := (M + m) / 2) in *.
    assert (El : l * 2 == M + m) by (unfold l; field).
    set (s := if Js.lt (1 # 2) l then (M - m) / (2 - M - m) else (M - m) / (M + m)) in *.
    assert (Es : if Js.lt (1 # 2) l then s * (2 - M - m) == M - m else s * (M + m) == M - m).
    { unfold s. destruct (Js_lt_spec (1 # 2) l); field; lra. }
    assert (Hs : (1 # 510) <= s /\ s <= 1).
    { destruct (Js_lt_spec (1 # 2) l).
      - apply (quot_range s (2 - M - m) (M - m)); lra.
      - apply (quot_range s (M + m) (M - m)); lra. }
    destruct (bound01_pct s) as (S1 & S2 & S0 & _); try lra.
    destruct (bound01_pct l) as (L1 & L2 & L0 & Lhalf); try lra.
    intros Ehq. unfold hslToRgb.
    set (s' := bound01 (convertToPercentage (Num s)) 100) in *.
    set (l' := bound01 (convertToPercentage (Num l)) 100) in *.
    set (h' := bound01 (Num hq) 360).
    destruct (Js_eq_spec s' 0) as [C|_]; [lra|]. cbn [fst snd].
    pose proof (truncated_bounds M m (M - m) l s l' s' ltac:(lra) ltac:(lra) ltac:(lra)
                  ltac:(reflexivity) El Es L1 L2 L0 S1 S2 S0 Lhalf) as PQ.
    cbv zeta in PQ.
    set (q := if Js.lt l' (1 # 2) then l' * (1 + s') else l' + s' - l' * s') in *.
    set (p := 2 * l' - q) in *.
    unfold hueSector in Ehq.
    destruct (Js_eq_spec M r) as [EMr|NMr];
      [destruct (Js_lt_spec g b) as [Hgb|Hbg]|destruct (Js_eq_spec M g) as [EMg|NMg]].
    + (* red, towards magenta *)
      assert (Em : m == g) by (destruct Hm as [E|[E|E]]; lra).
      assert (Gap : g + (1 # 255) <= b) by (destruct (byte_gap' G B g b Eg Eb); lra).
      set (u := (g - b) / (M - m)) in Ehq.
      assert (Eu : u * (M - m) == g - b) by (unfold u; field; lra).
      clearbody u.
      destruct (quot_range u (M - m) (g - b) (-1) (-(1 # 255)) Hd Eu) as [U0 U1]; try lra.
      constant_divisions.
      assert (Eh : h' == hq * (1 # 360)) by (apply bound01_hue; lra).
      destruct (sector_red_down r g b (M - m) u) as (Wr & Wg & Wb); try lra.
      split; [|split].
      * apply (hue2rgb_close p q M m (M - m) _ ((u + 6) * (1 # 6) + (1 # 3)) r R PQ); lra.
      * apply (hue2rgb_close p q M m (M - m) _ ((u + 6) * (1 # 6)) g G PQ); lra.
      * apply (hue2rgb_close p q M m (M - m) _ ((u + 6) * (1 # 6) - (1 # 3)) b B PQ); lra.
    + (* red, towards yellow *)
      assert (Em : m == b) by (destruct Hm as [E|[E|E]]; lra).
      set (u := (g - b) / (M - m)) in Ehq.
      assert (Eu : u * (M - m) == g - b) by (unfold u; field; lra).
      clearbody u.
      destruct (quot_range u (M - m) (g - b) 0 1 Hd Eu) as [U0 U1]; try lra.
      constant_divisions.
      assert (Eh : h' == hq * (1 # 360)) by (apply bound01_hue; lra).
      destruct (sector_red_up r g b (M - m) u) as (Wr & Wg & Wb); try lra.
      split; [|split].
      * apply (hue2rgb_close p q M m (M - m) _ (u * (1 # 6) + (1 # 3)) r R PQ); lra.
      * apply (hue2rgb_close p q M m (M - m) _ (u * (1 # 6)) g G PQ); lra.
      * apply (hue2rgb_close p q M m (M - m) _ (u * (1 # 6) - (1 # 3)) b B PQ); lra.
    + (* green *)
      assert (Em : m == r \/ m == b) by (destruct Hm as [E|[E|E]]; [now left|lra|now right]).
      set (u := (b - r) / (M - m)) in Ehq.
      assert (Eu : u * (M - m) == b - r) by (unfold u; field; lra).
      clearbody u.
      destruct (quot_range u (M - m) (b - r) (-1) 1 Hd Eu) as [U0 U1]; try lra.
      constant_divisions.
      assert (Eh : h' == hq * (1 # 360)) by (apply bound01_hue; lra).
      destruct (sector_green r g b m (M - m) u) as (Wr & Wg & Wb); try lra.
      split; [|split].
      * apply (hue2rgb_close p q M m (M - m) _ ((u + 2) * (1 # 6) + (1 # 3)) r R PQ); lra.
      * apply (hue2rgb_close p q M m (M - m) _ ((u + 2) * (1 # 6)) g G PQ); lra.
      * apply (hue2rgb_close p q M m (M - m) _ ((u + 2) * (1 # 6) - (1 # 3)) b B PQ); lra.
    + (* blue *)
      assert (EMb : M == b) by (destruct HM as [E|[E|E]]; [contradiction|contradiction|exact E]).
      assert (Em : m == r \/ m == g) by (destruct Hm as [E|[E|E]]; [now left|now right|lra]).
      set (u := (r - g) / (M - m)) in Ehq.
      assert (Eu : u * (M - m) == r - g) by (unfold u; field; lra).
      clearbody u.
      destruct (quot_range u (M - m) (r - g) (-1) 1 Hd Eu) as [U0 U1]; try lra.
      constant_divisions.
      assert (Eh : h' == hq * (1 # 360)) by (apply bound01_hue; lra).
      destruct (sector_blue r g b m (M - m) u) as (Wr & Wg & Wb); try lra.
      split; [|split].
      * apply (hue2rgb_close p q M m (M - m) _ ((u + 4) * (1 # 6) + (1 # 3)) r R PQ); lra.
      * apply (hue2rgb_close p q M m (M - m) _ ((u + 4) * (1 # 6)) g G PQ); lra.
      * apply (hue2rgb_close p q M m (M - m) _ ((u + 4) * (1 # 6) - (1 # 3)) b B PQ); lra.
Qed.

Lemma construct_hsl_r h s l a f :
  _r (construct (Some (mkInput (ObjHsl h s l) a f))) =
    roundSmall
      (clamp255 (fst (fst (hslToRgb h (convertToPercentage s) (convertToPercentage l))))).
Proof. reflexivity. Qed.

Lemma construct_hsl_g h s l a f :
  _g (construct (Some (mkInput (ObjHsl h s l) a f))) =
    roundSmall
      (clamp255 (snd (fst (hslToRgb h (convertToPercentage s) (convertToPercentage l))))).
Proof. reflexivity. Qed.

Lemma construct_hsl_b h s l a f :
  _b (construct (Some (mkInput (ObjHsl h s l) a f))) =
    roundSmall
      (clamp255 (snd (hslToRgb h (convertToPercentage s) (convertToPercentage l)))).
Proof. reflexivity. Qed.

(** The colour built from the HSL reading of a colour read from a hex
    string prints as the same hex string, whatever number stands for the
    hue as long as it equals the reading. *)
Lemma fromHsl_toHsl c hq a :
  hexRead c ->
  hq == fst (fst (toHsl c)) ->
  toHexString (fromHsl hq (snd (fst (toHsl c))) (snd (toHsl c)) a) = toHexString c.
Proof.
  intros (R & G & B & HR & HG & HB & ->). unfold toHsl.
  pose proof (hslToRgb_rgbToHsl R G B
                (_r (construct (Some (hexBytes R G B))))
                (_g (construct (Some (hexBytes R G B))))
                (_b (construct (Some (hexBytes R G B)))) hq HR HG HB) as H.
  unfold hexBytes in *.
  rewrite construct_rgb_r, construct_rgb_g, construct_rgb_b in *.
  specialize (H (reading_byte R HR) (reading_byte G HG) (reading_byte B HB)).
  destruct (rgbToHsl _ _ _) as [[h s] l]. cbn [fst snd] in *.
  intros Ehq. specialize (H Ehq). cbv zeta in H.
  destruct H as ([Hr0 Hr1] & [Hg0 Hg1] & [Hb0 Hb1]).
  unfold toHexString, rgbToHex, fromHsl.
  rewrite construct_hsl_r, construct_hsl_g, construct_hsl_b.
  rewrite construct_rgb_r, construct_rgb_g, construct_rgb_b.
  rewrite (round_near _ R HR Hr0 Hr1), (round_near _ G HG Hg0 Hg1),
    (round_near _ B HB Hb0 Hb1).
  now rewrite !byte_channel.
Qed.

(** ** Typed colours *)

Lemma pickerHex_toHsl c st :
  hexRead c ->
  pickerHex (setHsl (fst (fst (toHsl c))) (snd (fst (toHsl c))) (snd (toHsl c)) st) =
    toHexString c.
Proof.
  intros Hc. unfold pickerHex.
  cbn [currentHue currentSaturation currentLightness setHsl].
  apply fromHsl_toHsl; [exact Hc|reflexivity].
Qed.

Lemma palette_reread b rule :
  hexRead (tinycolor b) ->
  generateHarmonyPalette (toHexString (tinycolor b)) rule = generateHarmonyPalette b rule.
Proof. intros Hb. now apply generateHarmonyPalette_ext, tinycolor_reread. Qed.

(** X22: typing a valid hex colour keeps the colour: the listener sets the
    picker to the HSL reading of the typed colour, rewrites the field to
    the normalized hex string of that same colour, and shows the palette
    of the typed colour under the selected rule. *)
Theorem typed_color_kept (h : string) (st : state) :
  validHex h = true ->
  let st' := baseColorInput_input h st in
  (currentHue st', currentSaturation st', currentLightness st') = toHsl (tinycolor h) /\
  baseColorInput_value st' = toHexString (tinycolor h) /\
  exists palette,
    generateHarmonyPalette h (harmonyRuleSelect_value st) = inr palette /\
    paletteDisplay st' =
      Some (Swatches (ruleText (harmonyRuleSelect_value st) ++ " Harmony") palette).
Proof.
  intros Hh st'. pose proof (validHex_hexRead h Hh) as Hc.
  unfold st', baseColorInput_input.
  change (baseColorInput_value (setBaseColorInput h st)) with h.
  rewrite (hexRead_isValid _ Hc).
  pose proof (pickerHex_toHsl (tinycolor h) (setBaseColorInput h st) Hc) as Hp.
  destruct (toHsl (tinycolor h)) as [[hue s] l]. cbn [fst snd] in Hp.
  destruct (updateColorFromPicker_run (setHsl hue s l (setBaseColorInput h st)))
    as (palette & E & ->).
  rewrite Hp in *.
  cbn [currentHue currentSaturation currentLightness baseColorInput_value paletteDisplay
         harmonyRuleSelect_value setDisplay setBaseColorInput setHsl] in *.
  split; [reflexivity|]. split; [reflexivity|].
  exists palette. split; [|reflexivity].
  now rewrite <- (palette_reread h _ Hc).
Qed.

Lemma initializeApp_valid baseColor rule :
  isValid (tinycolor baseColor) = true ->
  initializeApp (initialState baseColor rule) =
    updateColorFromPicker
      (setHsl (fst (fst (toHsl (tinycolor baseColor))))
         (snd (fst (toHsl (tinycolor baseColor)))) (snd (toHsl (tinycolor baseColor)))
         (initialState baseColor rule)).
Proof.
  intros H. unfold initializeApp, updateColorFromPicker.
  change (baseColorInput_value (initialState baseColor rule)) with baseColor.
  rewrite H. now destruct (toHsl (tinycolor baseColor)) as [[h s] l].
Qed.

(** X23: a page that loads with a valid hex colour in the field starts on
    that colour: [initializeApp] sets the picker to its HSL reading,
    rewrites the field to its normalized hex string, shows its palette
    under the selected rule and raises no alert. *)
Theorem initialize_valid_field (baseColor rule : string) :
  validHex baseColor = true ->
  let st := initializeApp (initialState baseColor rule) in
  (currentHue st, currentSaturation st, currentLightness st) = toHsl (tinycolor baseColor) /\
  baseColorInput_value st = toHexString (tinycolor baseColor) /\
  alerts st = [] /\
  exists palette,
    generateHarmonyPalette baseColor rule = inr palette /\
    paletteDisplay st = Some (Swatches (ruleText rule ++ " Harmony") palette).
Proof.
  intros Hh st. pose proof (validHex_hexRead baseColor Hh) as Hc.
  unfold st. rewrite (initializeApp_valid _ _ (hexRead_isValid _ Hc)).
  pose proof (pickerHex_toHsl (tinycolor baseColor) (initialState baseColor rule) Hc) as Hp.
  destruct (toHsl (tinycolor baseColor)) as [[hue s] l]. cbn [fst snd] in Hp |- *.
  destruct (updateColorFromPicker_run (setHsl hue s l (initialState baseColor rule)))
    as (palette & E & ->).
  rewrite Hp in *.
  cbn [currentHue currentSaturation currentLightness baseColorInput_value paletteDisplay
         harmonyRuleSelect_value alerts setDisplay setBaseColorInput setHsl initialState] in *.
  split; [reflexivity|]. split; [reflexivity|]. split; [reflexivity|].
  exists palette. split; [|reflexivity].
  now rewrite <- (palette_reread baseColor _ Hc).
Qed.

(** ** The analogous palette holds the base twice *)

Lemma fromHsl_reading c hue s l hq a :
  hexRead c -> toHsl c = (hue, s, l) -> hq == hue ->
  toHexString (fromHsl hq s l a) = toHexString c.
Proof.
  intros Hc E Hq. pose proof (fromHsl_toHsl c hq a Hc) as H.
  rewrite E in H. cbn [fst snd] in H. now apply H.
Qed.

(** [x % 360] on a number that is not negative. *)
Lemma rem360 x :
  0 <= x ->
  exists k,
    Js.rem x 360 == x - 360 * inject_Z k /\ 0 <= Js.rem x 360 /\ Js.rem x 360 < 360.
Proof.
  intros Hx. unfold Js.rem, Js.trunc.
  destruct (floor_bounds (x / 360)) as [F0 F1].
  exists (Qfloor (x / 360)).
  destruct (Js_lt_spec (x / 360) 0) as [C|_].
  - exfalso. constant_divisions. lra.
  - split; [reflexivity|]. constant_divisions. lra.
Qed.

(** Four steps round the wheel: back by 36 degrees, then three times
    forward by 12. *)
Lemma analogous_third hue part :
  part == 12 -> 0 <= hue -> hue < 360 ->
  Js.rem (Js.rem (Js.rem (Js.rem (hue - 36 + 720) 360 + part) 360 + part) 360 + part) 360 ==
  hue.
Proof.
  intros Hp H0 H1.
  destruct (rem360 (hue - 36 + 720)) as (k0 & E0 & A0 & B0); [lra|].
  set (h0 := Js.rem (hue - 36 + 720) 360) in *.
  destruct (rem360 (h0 + part)) as (k1 & E1 & A1 & B1); [lra|].
  set (h1 := Js.rem (h0 + part) 360) in *.
  destruct (rem360 (h1 + part)) as (k2 & E2 & A2 & B2); [lra|].
  set (h2 := Js.rem (h1 + part) 360) in *.
  destruct (rem360 (h2 + part)) as (k3 & E3 & A3 & B3); [lra|].
  set (h3 := Js.rem (h2 + part) 360) in *.
  assert (E : h3 == hue + 720 - 360 * inject_Z (k0 + k1 + k2 + k3))
    by (rewrite !inject_Z_plus; lra).
  assert (K : (k0 + k1 + k2 + k3 = 2)%Z).
  { assert (Lo : (1 < k0 + k1 + k2 + k3)%Z) by (rewrite Zlt_Qlt; unfold inject_Z at 1; lra).
    assert (Hi : (k0 + k1 + k2 + k3 < 3)%Z) by (rewrite Zlt_Qlt; unfold inject_Z at 2; lra).
    lia. }
  rewrite K in E. unfold inject_Z in E. lra.
Qed.

(** X24: for every valid hex base colour the [analogous] palette holds the
    base colour twice: at index 0, and again at index 3, where the
    library's walk round the hue wheel comes back to the hue of the
    base. *)
Theorem analogous_repeats_base (h : string) :
  validHex h = true ->
  exists x1 x2 x4,
    generateHarmonyPalette h "analogous" =
      inr [toHexString (tinycolor h); x1; x2; toHexString (tinycolor h); x4].
Proof.
  intros Hh. pose proof (validHex_hexRead h Hh) as Hc.
  pose proof (hexRead_isValid _ Hc) as H.
  pose proof (toHsl_range (tinycolor h)) as R.
  enter_rule H. unfold analogous.
  destruct (toHsl (tinycolor h)) as [[hue s] l] eqn:E.
  destruct R as (R0 & R1 & _).
  cbn [Nat.add Nat.eqb Nat.sub analogousLoop]. unfold slice.
  rewrite skipn_map, firstn_map. cbn [Nat.sub skipn firstn].
  match goal with
  | |- context [toHexString ?a :: map toHexString ?l] =>
      change (toHexString a :: map toHexString l) with (map toHexString (a :: l));
      rewrite (normalize_map (a :: l))
        by (repeat constructor; auto using fromHsl_constructed, tinycolor_constructed)
  end.
  cbn [map].
  match goal with
  | |- context [[toHexString _; _; _; toHexString (fromHsl ?hq ?s ?l ?a); _]] =>
      rewrite (fromHsl_reading (tinycolor h) hue s l hq a Hc E)
  end.
  - eexists _, _, _. reflexivity.
  - change (inject_Z (Z.shiftr (Js.trunc (360 / 30 * inject_Z (Z.of_nat 6))) 1)) with 36.
    apply analogous_third; [reflexivity|assumption|assumption].
Qed.

(** ** From HSV back to the bytes *)

(** ** From HSV back to the bytes *)

(** One channel of [hsvToRgb]: the value scaled down by the weight of the
    channel times the saturation, both truncated. *)
Lemma hsv_close M d v s v' s' w x :
  0 < M -> M <= 1 -> 0 <= d -> d <= M -> v == M -> s * M == d ->
  v - (1 # 10000) < v' -> v' <= v -> 0 <= v' ->
  s - (1 # 10000) < s' -> s' <= s -> 0 <= s' ->
  0 <= w -> w <= 1 -> w * d == M - x ->
  x - (5 # 10000) <= v' * (1 - w * s') /\ v' * (1 - w * s') <= x + (5 # 10000).
Proof.
  intros HM HM1 Hd0 Hd1 Ev Es V1 V2 V0 S1 S2 S0 W0 W1 Ew.
  assert (Hs1 : s <= 1) by (destruct (quot_range s M d 0 1 HM Es); lra).
  assert (E1 : w * d == w * s * v) by (rewrite <- Es, Ev; ring).
  assert (A1 : 0 <= (1 - w) * s') by (apply Qmult_le_0_compat; lra).
  assert (A2 : 0 <= w * s') by (apply Qmult_le_0_compat; lra).
  assert (F1 : 0 <= (v - v') * (1 - w * s')) by (apply Qmult_le_0_compat; lra).
  assert (F2 : 0 <= (v - v') * (w * s')) by (apply Qmult_le_0_compat; lra).
  assert (A3 : 0 <= v * w) by (apply Qmult_le_0_compat; lra).
  assert (A4 : 0 <= (1 - v) * w) by (apply Qmult_le_0_compat; lra).
  assert (F3 : 0 <= v * w * (s - s')) by (apply Qmult_le_0_compat; lra).
  assert (F4 : 0 <= (1 - v * w) * (s - s')) by (apply Qmult_le_0_compat; lra).
  split; lra.
Qed.

(** The channels [hsvToRgb] picks for the sector [i]. *)
Lemma hsvToRgb_sector hh ss vv i :
  Js.floor (bound01 hh 360 * 6) = i -> (0 <= i <= 5)%Z ->
  let s := bound01 ss 100 in
  let v := bound01 vv 100 in
  let f := bound01 hh 360 * 6 - inject_Z i in
  let p := v * (1 - s) in
  let q := v * (1 - f * s) in
  let t := v * (1 - (1 - f) * s) in
  hsvToRgb hh ss vv =
    match i with
    | 0%Z => (v * 255, t * 255, p * 255)
    | 1%Z => (q * 255, v * 255, p * 255)
    | 2%Z => (p * 255, v * 255, t * 255)
    | 3%Z => (p * 255, q * 255, v * 255)
    | 4%Z => (t * 255, p * 255, v * 255)
    | _ => (v * 255, p * 255, q * 255)
    end.
Proof.
  intros Ei Hi. unfold hsvToRgb. cbv zeta. rewrite Ei.
  assert (C : (i = 0 \/ i = 1 \/ i = 2 \/ i = 3 \/ i = 4 \/ i = 5)%Z) by lia.
  destruct C as [->|[->|[->|[->|[->| ->]]]]]; reflexivity.
Qed.

(** [hsvToRgb] on the HSV reading of three bytes gives the bytes back, up
    to a quarter. *)
Lemma hsvToRgb_rgbToHsv (R G B : Z) (xr xg xb hq : Q) :
  (0 <= R <= 255)%Z -> (0 <= G <= 255)%Z -> (0 <= B <= 255)%Z ->
  bound01 (Num xr) 255 == inject_Z R * (1 # 255) ->
  bound01 (Num xg) 255 == inject_Z G * (1 # 255) ->
  bound01 (Num xb) 255 == inject_Z B * (1 # 255) ->
  hq == fst (fst (rgbToHsv xr xg xb)) * 360 ->
  let s := snd (fst (rgbToHsv xr xg xb)) in
  let v := snd (rgbToHsv xr xg xb) in
  let out := hsvToRgb (Num hq) (convertToPercentage (Num s)) (convertToPercentage (Num v)) in
  (inject_Z R - (1 # 4) <= fst (fst out) /\ fst (fst out) <= inject_Z R + (1 # 4)) /\
  (inject_Z G - (1 # 4) <= snd (fst out) /\ snd (fst out) <= inject_Z G + (1 # 4)) /\
  (inject_Z B - (1 # 4) <= snd out /\ snd out <= inject_Z B + (1 # 4)).
Proof.
  intros HR HG HB. unfold rgbToHsv.
  generalize (bound01 (Num xr) 255) as r.
  generalize (bound01 (Num xg) 255) as g.
  generalize (bound01 (Num xb) 255) as b.
  intros b g r Er Eg Eb. cbv zeta.
  destruct (byte_unit R r HR Er) as [R0 R1].
  destruct (byte_unit G g HG Eg) as [G0 G1].
  destruct (byte_unit B b HB Eb) as [B0 B1].
  destruct (max3_spec r g b) as (Mr & Mg & Mb & HM).
  destruct (min3_spec r g b) as (mr & mg & mb & Hm).
  set (M := Js.max3 r g b) in *. set (m := Js.min3 r g b) in *.
  set (s := if Js.eq M 0 then 0 else (M - m) / M).
  destruct (bound01_pct M) as (V1 & V2 & V0 & _); try lra.
  destruct (Js_eq_spec M m) as [Egrey|Ecol]; cbn [fst snd]; intros Ehq.
  - (* grey *)
    assert (Es : s == 0).
    { unfold s. destruct (Js_eq_spec M 0); [reflexivity|].
      unfold Qdiv. setoid_replace (M - m) with 0 by lra. ring. }
    destruct (bound01_pct s) as (_ & S2 & S0 & _); try lra.
    assert (Eh : bound01 (Num hq) 360 == hq * (1 # 360)) by (apply bound01_hue; lra).
    assert (Ei : Js.floor (bound01 (Num hq) 360 * 6) = 0%Z)
      by (apply floor_unique; unfold inject_Z; lra).
    rewrite (hsvToRgb_sector _ _ _ 0 Ei) by lia. cbn [fst snd].
    set (s' := bound01 (convertToPercentage (Num s)) 100) in *.
    set (v' := bound01 (convertToPercentage (Num M)) 100) in *.
    assert (Es' : s' == 0) by lra.
    rewrite !Es'. repeat split; lra.
  - (* coloured *)
    assert (Hd : 0 < M - m) by (destruct (Qlt_le_dec m M); [lra|exfalso; apply Ecol; lra]).
    assert (Hm0 : 0 <= m) by (destruct Hm as [E|[E|E]]; lra).
    assert (Es : s * M == M - m).
    { unfold s. destruct (Js_eq_spec M 0); [lra|field; lra]. }
    destruct (quot_range s M (M - m) 0 1 ltac:(lra) Es) as [Hs0 Hs1]; try lra.
    destruct (bound01_pct s) as (S1 & S2 & S0 & _); try lra.
    set (s' := bound01 (convertToPercentage (Num s)) 100) in *.
    set (v' := bound01 (convertToPercentage (Num M)) 100) in *.
    pose proof (fun w x =>
                  hsv_close M (M - m) M s v' s' w x ltac:(lra) ltac:(lra) ltac:(lra)
                    ltac:(lra) (Qeq_refl M) Es V1 V2 V0 S1 S2 S0) as Close.
    unfold hueSector in Ehq.
    destruct (Js_eq_spec M r) as [EMr|NMr];
      [destruct (Js_lt_spec g b) as [Hgb|Hbg]|destruct (Js_eq_spec M g) as [EMg|NMg]].
    + (* red, towards magenta: sector 5 *)
      assert (Em : m == g) by (destruct Hm as [E|[E|E]]; lra).
      assert (Gap : g + (1 # 255) <= b) by (destruct (byte_gap' G B g b Eg Eb); lra).
      set (u := (g - b) / (M - m)) in Ehq.
      assert (Eu : u * (M - m) == g - b) by (unfold u; field; lra).
      clearbody u.
      destruct (quot_range u (M - m) (g - b) (-1) (-(1 # 255)) Hd Eu) as [U0 U1]; try lra.
      constant_divisions.
      assert (Eh : bound01 (Num hq) 360 == hq * (1 # 360)) by (apply bound01_hue; lra).
      assert (Ei : Js.floor (bound01 (Num hq) 360 * 6) = 5%Z)
        by (apply floor_unique; unfold inject_Z; lra).
      rewrite (hsvToRgb_sector _ _ _ 5 Ei) by lia. cbn [fst snd]. fold s' v'.
      set (f := bound01 (Num hq) 360 * 6 - inject_Z 5).
      assert (Ef : f == u + 1) by (unfold f, inject_Z; lra).
      assert (Wq : f * (M - m) == M - b) by (rewrite Ef; lra).
      destruct (Close 1 g ltac:(lra) ltac:(lra) ltac:(lra)) as [? ?].
      destruct (Close f b ltac:(lra) ltac:(lra) Wq) as [? ?].
      repeat split; lra.
    + (* red, towards yellow: sectors 0 and 1 *)
      assert (Em : m == b) by (destruct Hm as [E|[E|E]]; lra).
      set (u := (g - b) / (M - m)) in Ehq.
      assert (Eu : u * (M - m) == g - b) by (unfold u; field; lra).
      clearbody u.
      destruct (quot_range u (M - m) (g - b) 0 1 Hd Eu) as [U0 U1]; try lra.
      constant_divisions.
      assert (Eh : bound01 (Num hq) 360 == hq * (1 # 360)) by (apply bound01_hue; lra).
      destruct (Qlt_le_dec u 1) as [Hu|Hu].
      * assert (Ei : Js.floor (bound01 (Num hq) 360 * 6) = 0%Z)
          by (apply floor_unique; unfold inject_Z; lra).
        rewrite (hsvToRgb_sector _ _ _ 0 Ei) by lia. cbn [fst snd]. fold s' v'.
        set (f := bound01 (Num hq) 360 * 6 - inject_Z 0).
        assert (Ef : f == u) by (unfold f, inject_Z; lra).
        assert (Wt : (1 - f) * (M - m) == M - g) by (rewrite Ef; lra).
        destruct (Close (1 - f) g ltac:(lra) ltac:(lra) Wt) as [? ?].
        destruct (Close 1 b ltac:(lra) ltac:(lra) ltac:(lra)) as [? ?].
        repeat split; lra.
      * assert (Eu1 : u == 1) by lra. rewrite Eu1 in Eu.
        assert (Ei : Js.floor (bound01 (Num hq) 360 * 6) = 1%Z)
          by (apply floor_unique; unfold inject_Z; lra).
        rewrite (hsvToRgb_sector _ _ _ 1 Ei) by lia. cbn [fst snd]. fold s' v'.
        set (f := bound01 (Num hq) 360 * 6 - inject_Z 1).
        assert (Ef : f == 0) by (unfold f, inject_Z; lra).
        assert (Wq : f * (M - m) == M - r) by (rewrite Ef; lra).
        destruct (Close f r ltac:(lra) ltac:(lra) Wq) as [? ?].
        destruct (Close 1 b ltac:(lra) ltac:(lra) ltac:(lra)) as [? ?].
        repeat split; lra.
    + (* green: sectors 1, 2 and 3 *)
      set (u := (b - r) / (M - m)) in Ehq.
      assert (Eu : u * (M - m) == b - r) by (unfold u; field; lra).
      clearbody u.
      destruct (byte_gap' B R b r Eb Er) as [Hrb|Gap].
      * assert (Em : m == r) by (destruct Hm as [E|[E|E]]; lra).
        destruct (quot_range u (M - m) (b - r) 0 1 Hd Eu) as [U0 U1]; try lra.
        constant_divisions.
        assert (Eh : bound01 (Num hq) 360 == hq * (1 # 360)) by (apply bound01_hue; lra).
        destruct (Qlt_le_dec u 1) as [Hu|Hu].
        -- assert (Ei : Js.floor (bound01 (Num hq) 360 * 6) = 2%Z)
             by (apply floor_unique; unfold inject_Z; lra).
           rewrite (hsvToRgb_sector _ _ _ 2 Ei) by lia. cbn [fst snd]. fold s' v'.
           set (f := bound01 (Num hq) 360 * 6 - inject_Z 2).
           assert (Ef : f == u) by (unfold f, inject_Z; lra).
           assert (Wt : (1 - f) * (M - m) == M - b) by (rewrite Ef; lra).
           destruct (Close (1 - f) b ltac:(lra) ltac:(lra) Wt) as [? ?].
           destruct (Close 1 r ltac:(lra) ltac:(lra) ltac:(lra)) as [? ?].
           repeat split; lra.
        -- assert (Eu1 : u == 1) by lra. rewrite Eu1 in Eu.
           assert (Ei : Js.floor (bound01 (Num hq) 360 * 6) = 3%Z)
             by (apply floor_unique; unfold inject_Z; lra).
           rewrite (hsvToRgb_sector _ _ _ 3 Ei) by lia. cbn [fst snd]. fold s' v'.
           set (f := bound01 (Num hq) 360 * 6 - inject_Z 3).
           assert (Ef : f == 0) by (unfold f, inject_Z; lra).
           assert (Wq : f * (M - m) == M - g) by (rewrite Ef; lra).
           destruct (Close f g ltac:(lra) ltac:(lra) Wq) as [? ?].
           destruct (Close 1 r ltac:(lra) ltac:(lra) ltac:(lra)) as [? ?].
           repeat split; lra.
      * assert (Em : m == b) by (destruct Hm as [E|[E|E]]; lra).
        destruct (quot_range u (M - m) (b - r) (-1) (-(1 # 255)) Hd Eu) as [U0 U1]; try lra.
        constant_divisions.
        assert (Eh : bound01 (Num hq) 360 == hq * (1 # 360)) by (apply bound01_hue; lra).
        assert (Ei : Js.floor (bound01 (Num hq) 360 * 6) = 1%Z)
          by (apply floor_unique; unfold inject_Z; lra).
        rewrite (hsvToRgb_sector _ _ _ 1 Ei) by lia. cbn [fst snd]. fold s' v'.
        set (f := bound01 (Num hq) 360 * 6 - inject_Z 1).
        assert (Ef : f == u + 1) by (unfold f, inject_Z; lra).
        assert (Wq : f * (M - m) == M - r) by (rewrite Ef; lra).
        destruct (Close f r ltac:(lra) ltac:(lra) Wq) as [? ?].
        destruct (Close 1 b ltac:(lra) ltac:(lra) ltac:(lra)) as [? ?].
        repeat split; lra.
    + (* blue: sectors 3, 4 and 5 *)
      assert (EMb : M == b) by (destruct HM as [E|[E|E]]; [contradiction|contradiction|exact E]).
      set (u := (r - g) / (M - m)) in Ehq.
      assert (Eu : u * (M - m) == r - g) by (unfold u; field; lra).
      clearbody u.
      destruct (byte_gap' R G r g Er Eg) as [Hgr|Gap].
      * assert (Em : m == g) by (destruct Hm as [E|[E|E]]; lra).
        destruct (quot_range u (M - m) (r - g) 0 1 Hd Eu) as [U0 U1]; try lra.
        constant_divisions.
        assert (Eh : bound01 (Num hq) 360 == hq * (1 # 360)) by (apply bound01_hue; lra).
        destruct (Qlt_le_dec u 1) as [Hu|Hu].
        -- assert (Ei : Js.floor (bound01 (Num hq) 360 * 6) = 4%Z)
             by (apply floor_unique; unfold inject_Z; lra).
           rewrite (hsvToRgb_sector _ _ _ 4 Ei) by lia. cbn [fst snd]. fold s' v'.
           set (f := bound01 (Num hq) 360 * 6 - inject_Z 4).
           assert (Ef : f == u) by (unfold f, inject_Z; lra).
           assert (Wt : (1 - f) * (M - m) == M - r) by (rewrite Ef; lra).
           destruct (Close (1 - f) r ltac:(lra) ltac:(lra) Wt) as [? ?].
           destruct (Close 1 g ltac:(lra) ltac:(lra) ltac:(lra)) as [? ?].
           repeat split; lra.
        -- assert (Eu1 : u == 1) by lra. rewrite Eu1 in Eu.
           assert (Ei : Js.floor (bound01 (Num hq) 360 * 6) = 5%Z)
             by (apply floor_unique; unfold inject_Z; lra).
           rewrite (hsvToRgb_sector _ _ _ 5 Ei) by lia. cbn [fst snd]. fold s' v'.
           set (f := bound01 (Num hq) 360 * 6 - inject_Z 5).
           assert (Ef : f == 0) by (unfold f, inject_Z; lra).
           assert (Wq : f * (M - m) == M - b) by (rewrite Ef; lra).
           destruct (Close f b ltac:(lra) ltac:(lra) Wq) as [? ?].
           destruct (Close 1 g ltac:(lra) ltac:(lra) ltac:(lra)) as [? ?].
           repeat split; lra.
      * assert (Em : m == r) by (destruct Hm as [E|[E|E]]; lra).
        destruct (quot_range u (M - m) (r - g) (-1) (-(1 # 255)) Hd Eu) as [U0 U1]; try lra.
        constant_divisions.
        assert (Eh : bound01 (Num hq) 360 == hq * (1 # 360)) by (apply bound01_hue; lra).
        assert (Ei : Js.floor (bound01 (Num hq) 360 * 6) = 3%Z)
          by (apply floor_unique; unfold inject_Z; lra).
        rewrite (hsvToRgb_sector _ _ _ 3 Ei) by lia. cbn [fst snd]. fold s' v'.
        set (f := bound01 (Num hq) 360 * 6 - inject_Z 3).
        assert (Ef : f == u + 1) by (unfold f, inject_Z; lra).
        assert (Wq : f * (M - m) == M - g) by (rewrite Ef; lra).
        destruct (Close f g ltac:(lra) ltac:(lra) Wq) as [? ?].
        destruct (Close 1 r ltac:(lra) ltac:(lra) ltac:(lra)) as [? ?].
        repeat split; lra.
Qed.

Lemma construct_hsv_r h s v a f :
  _r (construct (Some (mkInput (ObjHsv h s v) a f))) =
    roundSmall
      (clamp255 (fst (fst (hsvToRgb h (convertToPercentage s) (convertToPercentage v))))).
Proof. reflexivity. Qed.

Lemma construct_hsv_g h s v a f :
  _g (construct (Some (mkInput (ObjHsv h s v) a f))) =
    roundSmall
      (clamp255 (snd (fst (hsvToRgb h (convertToPercentage s) (convertToPercentage v))))).
Proof. reflexivity. Qed.

Lemma construct_hsv_b h s v a f :
  _b (construct (Some (mkInput (ObjHsv h s v) a f))) =
    roundSmall
      (clamp255 (snd (hsvToRgb h (convertToPercentage s) (convertToPercentage v)))).
Proof. reflexivity. Qed.

(** The colour built from the HSV reading of a colour read from a hex
    string prints as the same hex string. *)
Lemma fromHsv_toHsv c hq :
  hexRead c ->
  hq == fst (fst (toHsv c)) ->
  toHexString (fromHsv hq (snd (fst (toHsv c))) (snd (toHsv c))) = toHexString c.
Proof.
  intros (R & G & B & HR & HG & HB & ->). unfold toHsv.
  pose proof (hsvToRgb_rgbToHsv R G B
                (_r (construct (Some (hexBytes R G B))))
                (_g (construct (Some (hexBytes R G B))))
                (_b (construct (Some (hexBytes R G B)))) hq HR HG HB) as H.
  unfold hexBytes in *.
  rewrite construct_rgb_r, construct_rgb_g, construct_rgb_b in *.
  specialize (H (reading_byte R HR) (reading_byte G HG) (reading_byte B HB)).
  destruct (rgbToHsv _ _ _) as [[h s] v]. cbn [fst snd] in *.
  intros Ehq. specialize (H Ehq). cbv zeta in H.
  destruct H as ([Hr0 Hr1] & [Hg0 Hg1] & [Hb0 Hb1]).
  unfold toHexString, rgbToHex, fromHsv.
  rewrite construct_hsv_r, construct_hsv_g, construct_hsv_b.
  rewrite construct_rgb_r, construct_rgb_g, construct_rgb_b.
  rewrite (round_near _ R HR Hr0 Hr1), (round_near _ G HG Hg0 Hg1),
    (round_near _ B HB Hb0 Hb1).
  now rewrite !byte_channel.
Qed.

Lemma monochromatic_head b :
  hexRead (tinycolor b) ->
  exists x1 x2 x3 x4,
    generateHarmonyPalette b "monochromatic" =
      inr [toHexString (tinycolor b); x1; x2; x3; x4].
Proof.
  intros Hb. pose proof (hexRead_isValid _ Hb) as Hv.
  enter_rule Hv. unfold monochromatic.
  pose proof (fromHsv_toHsv (tinycolor b)) as E.
  destruct (toHsv (tinycolor b)) as [[h s] v]. cbn [fst snd] in E.
  cbn [Nat.eqb monochromaticLoop].
  rewrite normalize_map by (repeat constructor; apply fromHsv_constructed).
  cbn [map]. rewrite (E h Hb) by reflexivity.
  now eexists _, _, _, _.
Qed.

(** X25: for every valid hex base colour the [monochromatic] palette has
    five colours and starts with the base colour: the library's first
    colour is built from the HSV reading of the base, and that reading
    gives back the bytes of the base. *)
Theorem monochromatic_starts_with_base (h : string) :
  validHex h = true ->
  exists x1 x2 x3 x4,
    generateHarmonyPalette h "monochromatic" =
      inr [toHexString (tinycolor h); x1; x2; x3; x4].
Proof.
  intros Hh. pose proof (validHex_hexRead h Hh) as Hc.
  destruct (monochromatic_head h Hc) as (x1 & x2 & x3 & x4 & E).
  exists x1, x2, x3, x4. exact E.
Qed.

(** ** The indicators of the hue wheel *)

(** Under every rule the palette of a colour read from a hex string holds
    the hex string of that colour. *)
Lemma palette_holds_base_any b rule palette :
  hexRead (tinycolor b) ->
  generateHarmonyPalette b rule = inr palette ->
  In (toHexString (tinycolor b)) palette.
Proof.
  intros Hb H. destruct (string_dec rule "monochromatic") as [->|Hm].
  - destruct (monochromatic_head b Hb) as (x1 & x2 & x3 & x4 & E).
    rewrite E in H. injection H as <-. now left.
  - now apply (palette_holds_base b rule).
Qed.

(** X21: each redraw of the hue wheel draws its 360 band segments, the hue
    marker, and one indicator for every colour of the returned palette
    other than the base colour: at most four under every rule, and none
    under a rule outside the seven. *)
Theorem wheel_indicators (st : state) (scr : screen) :
  exists palette,
    snd (handleGenerateHarmony st) = inr palette /\
    hueWheelCtx (updateColorFromPicker_canvas st scr) =
      (hueWheelCtx scr ++ drawHueWheel (inr palette) st)%list /\
    let others := filter (fun c => negb (String.eqb c (pickerHex st))) palette in
    List.length (circles (drawHueWheel (inr palette) st)) =
      (360 + 1 + List.length others)%nat /\
    (List.length others <= 4)%nat /\
    (~ In (harmonyRuleSelect_value st) harmonyRules -> others = []).
Proof.
  destruct (handleGenerateHarmony_run st) as (palette & E & R).
  destruct (updateColorFromPicker_canvas_run st scr) as (palette' & E' & R').
  rewrite E in E'. injection E' as <-.
  exists palette. rewrite R, R'. cbn [snd hueWheelCtx].
  split; [reflexivity|]. split; [reflexivity|].
  assert (Hb : toHexString (tinycolor (pickerHex st)) = pickerHex st)
    by apply normalize_construct.
  split; [|split].
  - apply drawHueWheel_circles.
    destruct (generateHarmonyPalette_normalized _ _ _ E) as [colors ->].
    apply Forall_forall. intros c Hc. apply in_map_iff in Hc as (color & <- & _).
    destruct (normalized_element color) as (Hn & Hv & _). now split.
  - pose proof (palette_holds_base_any (pickerHex st) _ _ (toHexString_hexRead _) E) as Hin.
    rewrite Hb in Hin.
    pose proof (filter_shorter (fun c => negb (String.eqb c (pickerHex st)))
                  _ _ Hin) as Hlt.
    cbv beta in Hlt. rewrite String.eqb_refl in Hlt. specialize (Hlt eq_refl).
    pose proof (generateHarmonyPalette_length _ _ _ E). lia.
  - intros Hout.
    rewrite (palette_default _ _ (pickerHex_valid st) Hout) in E. injection E as <-.
    rewrite Hb. cbn [filter]. now rewrite String.eqb_refl.
Qed.

End Script.

(** ** Concrete runs

    The closed statements below are read with the instances
    [noFunctionalNotation] and [samplePage]. *)

(** The triad of [#3498db]. *)
Lemma palette_size_witness :
  validHex "#3498db" = true /\
  exists palette,
    generateHarmonyPalette "#3498db" "triad" = inr palette /\
    (In "triad" harmonyRules -> List.length palette = 5%nat) /\
    (~ In "triad" harmonyRules -> palette = [toHexString (tinycolor "#3498db")]).
Proof.
  split; [reflexivity|].
  apply (palette_size (library := noFunctionalNotation) (fun s _ _ _ => eq_refl) "#3498db" "triad").
  reflexivity.
Defined.

(** The complement palette of [#3498db]. *)
Lemma complement_palette_witness :
  validHex "#3498db" = true /\
  generateHarmonyPalette "#3498db" "complement" =
    (let base := tinycolor "#3498db" in
     inr [toHexString base;
          toHexString (lighten 20 base);
          toHexString (complement base);
          toHexString (lighten 20 (tinycolor (toHexString (complement base))));
          toHexString (desaturate 10 (spin 30 base))]).
Proof.
  split; [reflexivity|].
  apply (complement_palette (library := noFunctionalNotation) (fun s _ _ _ => eq_refl) "#3498db").
  reflexivity.
Defined.

(** At [#000011] the fifth element of the [complement] palette is
    [#080110] (spin, then desaturate), where the specification's expression
    (desaturate, then spin) gives [#090110]. *)
Lemma complement_palette_counterexample :
  generateHarmonyPalette "#000011" "complement" =
    inr ["#000011"; "#000077"; "#111100"; "#777700"; "#080110"] /\
  specComplementPalette (tinycolor "#000011") =
    ["#000011"; "#000077"; "#111100"; "#777700"; "#090110"] /\
  generateHarmonyPalette "#000011" "complement" <>
    inr (specComplementPalette (tinycolor "#000011")).
Proof.
  split; [vm_compute; reflexivity|]. split; [vm_compute; reflexivity|].
  intros H. vm_compute in H. discriminate H.
Qed.

(** A press on the wheel at -10 degrees. *)
Lemma wheel_angle_witness :
  Double.fromAtan2 (-(10)) /\
  Double.currentHue (Double.hueWheelCanvas_mousedown (-(10)) Double.initialPicker) == 350.
Proof.
  assert (H : Double.fromAtan2 (-(10))) by (split; vm_compute; discriminate).
  split; [exact H|].
  apply (wheel_angle (-(10)) Double.initialPicker H).
  reflexivity.
Defined.

(** A press 128 pixels right of the centre of the wheel and 2^-45 of a
    pixel above it: [atan2] of so flat a slope is the slope, -2^-52, which
    is about -1.27e-14 degrees, and the hue stored is 360. *)
Lemma wheel_angle_counterexample :
  let a := Double.div (Double.mul (- 2 ^ (-52)) 180) Double.Math_PI in
  Double.fromAtan2 a /\ a < 0 /\
  Double.currentHue (Double.hueWheelCanvas_mousedown a Double.initialPicker) == 360 /\
  ~ Double.currentHue (Double.hueWheelCanvas_mousedown a Double.initialPicker) < 360.
Proof.
  cbv zeta. split; [split; vm_compute; discriminate|].
  split; [vm_compute; reflexivity|].
  split; [vm_compute; reflexivity|].
  intros H. vm_compute in H. discriminate H.
Qed.

(** With the functional notations of release 1.6, ["notacolor"] is
    malformed and rejected, and ["rgb(255, 0, 0)"] is not malformed and
    derives the shades of red. *)
Lemma rejected_base_color_witness :
  malformed (library := tinycolorNotation) "notacolor" = true /\
  isValid (tinycolor (library := tinycolorNotation) "notacolor") = false /\
  generateHarmonyPalette (library := tinycolorNotation) "notacolor" "triad" =
    inl (InvalidBaseColor invalidBaseColorAlert) /\
  malformed (library := tinycolorNotation) "rgb(255, 0, 0)" = false /\
  isValid (tinycolor (library := tinycolorNotation) "rgb(255, 0, 0)") = true /\
  generateHarmonyPalette (library := tinycolorNotation) "rgb(255, 0, 0)" "shades" =
    inr ["#660000"; "#b30000"; "#ff0000"; "#ff4d4d"; "#ff9999"].
Proof.
  destruct (rejected_base_color (library := tinycolorNotation) functionalMatchers_keyword
              "notacolor" "triad" (initialState "#3498db" "triad"))
    as (V & R & _ & M & _).
  destruct (rejected_base_color (library := tinycolorNotation) functionalMatchers_keyword
              "rgb(255, 0, 0)" "shades" (initialState "#3498db" "shades"))
    as (V' & _ & A & _).
  assert (M' : malformed (library := tinycolorNotation) "rgb(255, 0, 0)" = false)
    by (vm_compute; reflexivity).
  split; [exact M|]. split; [rewrite V, M; reflexivity|]. split; [apply (R M)|].
  split; [exact M'|]. split; [rewrite V', M'; reflexivity|].
  destruct (A M') as (palette & E). rewrite E. vm_compute in E.
  injection E as <-. reflexivity.
Defined.

(** ["red"] is not a hex colour string, and the derivation on it does not
    fail. *)
Lemma rejected_base_color_counterexample :
  validHex "red" = false /\
  generateHarmonyPalette "red" "shades" =
    inr ["#660000"; "#b30000"; "#ff0000"; "#ff4d4d"; "#ff9999"] /\
  generateHarmonyPalette "red" "shades" <> inl (InvalidBaseColor invalidBaseColorAlert).
Proof.
  split; [vm_compute; reflexivity|]. split; [vm_compute; reflexivity|].
  intros H. vm_compute in H. discriminate H.
Qed.

(** The shades of [#3498db]. *)
Lemma shades_palette_witness :
  validHex "#3498db" = true /\
  exists palette,
    generateHarmonyPalette "#3498db" "shades" = inr palette /\
    nth_error palette 2 = Some "#3498db".
Proof.
  split; [reflexivity|].
  destruct (shades_palette (library := noFunctionalNotation) (fun s _ _ _ => eq_refl) "#3498db" eq_refl)
    as (palette & E & _ & Hc).
  exists palette. split; [exact E|]. rewrite Hc. vm_compute. reflexivity.
Defined.

(** From [#3498db] the [monochromatic] palette holds [#040a0f], whose
    rounded hue is 207 where that of the base is 204. *)
Lemma monochromatic_hue_counterexample :
  generateHarmonyPalette "#3498db" "monochromatic" =
    inr ["#3498db"; "#040a0f"; "#102e42"; "#1c5175"; "#2875a8"] /\
  roundedHue "#3498db" = 204%Z /\
  roundedHue "#040a0f" = 207%Z /\
  ~ (forall palette,
       generateHarmonyPalette "#3498db" "monochromatic" = inr palette ->
       Forall (fun e => roundedHue e = roundedHue "#3498db") palette).
Proof.
  assert (E : generateHarmonyPalette "#3498db" "monochromatic" =
                inr ["#3498db"; "#040a0f"; "#102e42"; "#1c5175"; "#2875a8"])
    by (vm_compute; reflexivity).
  split; [exact E|]. split; [vm_compute; reflexivity|].
  split; [vm_compute; reflexivity|].
  intros H. specialize (H _ E).
  inversion H as [|? ? _ H']. inversion H' as [|? ? Hd _].
  vm_compute in Hd. discriminate Hd.
Qed.

(** The monochromatic palette of [#3498db]. *)
Lemma monochromatic_palette_witness :
  validHex "#3498db" = true /\
  generateHarmonyPalette "#3498db" "monochromatic" =
    inr ["#3498db"; "#040a0f"; "#102e42"; "#1c5175"; "#2875a8"].
Proof.
  split; [reflexivity|].
  pose proof (monochromatic_palette (library := noFunctionalNotation) (fun s _ _ _ => eq_refl) "#3498db" eq_refl) as H.
  vm_compute in H. vm_compute. exact H.
Defined.

(** A random source that always answers 1/2. *)
Lemma random_palette_witness :
  unitInterval (fun _ => 1 # 2) /\
  fst (generatePalette (fun _ => 1 # 2) 0) =
    ["#888888"; "#888888"; "#888888"; "#888888"; "#888888"] /\
  Forall (fun c => matchesHexColor c = true) (fst (generatePalette (fun _ => 1 # 2) 0)).
Proof.
  assert (H : unitInterval (fun _ => 1 # 2))
    by (intros n; split; [vm_compute; discriminate|reflexivity]).
  split; [exact H|]. split; [reflexivity|].
  apply (random_palette (fun _ => 1 # 2) 0 H).
Defined.

(** A press on the pad 300 pixels right of the canvas and 20 above it. *)
Lemma picker_in_range_witness :
  0 < slPickerCanvas_width /\
  0 < slPickerCanvas_height /\
  Double.inRange
    (Double.handle (Double.SLMouseDown 500 (-(20)))
       (Double.initializeApp (tinycolor "#3498db") Double.initialPicker)).
Proof.
  split; [reflexivity|]. split; [reflexivity|].
  destruct (picker_in_range (page := samplePage)
              (Double.initializeApp (tinycolor "#3498db") Double.initialPicker)
              eq_refl eq_refl (Double.reachable_init _)) as (_ & H & _).
  apply H. exact I.
Defined.

(** The hue 360 is stored by a press on the wheel at -2^-52 radians, and
    by typing [rgb(255, 1, 1.0000000000001)], whose blue channel the
    constructor computes as [bound01(b, 255) * 255]. *)
Lemma picker_in_range_counterexample :
  let a := Double.div (Double.mul (- 2 ^ (-52)) 180) Double.Math_PI in
  let b := Double.mul (Double.bound01 (Double.round (10000000000001 # 10000000000000)) 255) 255 in
  let typed := mkColor 255 1 b 1 (Some FormatRgb) true in
  let pressed := Double.handle (Double.HueMouseDown a) Double.initialPicker in
  let entered := Double.handle (Double.BaseColorInput typed) Double.initialPicker in
  Double.admissible (Double.HueMouseDown a) /\
  Double.currentHue pressed == 360 /\ ~ Double.currentHue pressed < 360 /\
  Double.currentHue entered == 360 /\ ~ Double.currentHue entered < 360.
Proof.
  cbv zeta. split; [split; vm_compute; discriminate|].
  split; [vm_compute; reflexivity|].
  split; [intros H; vm_compute in H; discriminate H|].
  split; [vm_compute; reflexivity|].
  intros H. vm_compute in H. discriminate H.
Qed.

(** Generating right after loading a page whose field holds ["notacolor"]. *)
Lemma generate_never_invalid_witness :
  exists palette,
    snd (handleGenerateHarmony (initialState "notacolor" "triad")) = inr palette.
Proof.
  destruct (generate_never_invalid (library := noFunctionalNotation) (fun s _ _ _ => eq_refl) (initialState "notacolor" "triad"))
    as (palette & E & _).
  exists palette. exact E.
Defined.

(** The shades of ["red"]. *)
Lemma css_name_accepted_witness :
  isValid (tinycolor "red") = true /\
  generateHarmonyPalette "red" "shades" =
    inr ["#660000"; "#b30000"; "#ff0000"; "#ff4d4d"; "#ff9999"].
Proof.
  destruct (css_name_accepted (library := noFunctionalNotation) (fun s _ _ _ => eq_refl) "shades" (initialState "#3498db" "shades"))
    as (_ & Hv & _).
  split; [exact Hv|]. vm_compute. reflexivity.
Defined.

(** ** Concrete runs of the further properties *)

(** After loading a page whose field holds [#3498db]. *)
Lemma alert_never_raised_witness :
  reachable "#3498db" "triad" (initializeApp (initialState "#3498db" "triad")) /\
  alerts (initializeApp (initialState "#3498db" "triad")) = [].
Proof.
  split; [constructor|].
  exact (alert_never_raised (library := noFunctionalNotation) (fun s _ _ _ => eq_refl)
           "#3498db" "triad" _ (reachable_init _ _)).
Defined.

(** A random source that always answers 1/2 shows five times [#888888]. *)
Lemma random_palette_displayed_witness :
  unitInterval (fun _ => 1 # 2) /\
  randomPaletteBtn_click (fun _ => 1 # 2) (initialState "#3498db" "triad") =
    setDisplay
      (Swatches "Random Palette" ["#888888"; "#888888"; "#888888"; "#888888"; "#888888"])
      (initialState "#3498db" "triad").
Proof.
  assert (H : unitInterval (fun _ => 1 # 2))
    by (intros n; split; [vm_compute; discriminate|reflexivity]).
  split; [exact H|].
  apply (random_palette_displayed (library := noFunctionalNotation) (fun s _ _ _ => eq_refl)
           (fun _ => 1 # 2) (initialState "#3498db" "triad") H).
Defined.

(** Two clicks on the first swatch, each copied before the timer of the
    other fires: once both timers have fired the label reads ["Copied!"]
    for good. *)
Lemma palette_always_shown_witness :
  let doc :=
    fold_left (fun doc h => happen h doc)
      [SwatchClick 0; ClipboardWritten 0; SwatchClick 0; ClipboardWritten 1;
       TimerFired 0; TimerFired 0]
      (initializeApp_swatches (initialState "#3498db" "triad")) in
  loaded "#3498db" "triad" doc /\
  pending doc = [] /\
  option_map hexCode_textContent (swatchAt (0, 0)%nat doc) = Some "Copied!" /\
  exists title earlier current,
    containers doc = (earlier ++ [current])%list /\
    paletteDisplay (variables doc) = Some (Swatches title (map backgroundColor current)) /\
    (1 <= List.length current <= 5)%nat /\
    Forall legible current.
Proof.
  cbv zeta. cbn [fold_left].
  assert (L : loaded "#3498db" "triad"
                (happen (TimerFired 0)
                   (happen (TimerFired 0)
                      (happen (ClipboardWritten 1)
                         (happen (SwatchClick 0)
                            (happen (ClipboardWritten 0)
                               (happen (SwatchClick 0)
                                  (initializeApp_swatches (initialState "#3498db" "triad")))))))))
    by (do 6 (apply loaded_step; [|exact I]); apply loaded_init).
  split; [exact L|]. split; [vm_compute; reflexivity|]. split; [vm_compute; reflexivity|].
  exact (palette_always_shown (library := noFunctionalNotation) (fun s _ _ _ => eq_refl)
           "#3498db" "triad" _ L).
Defined.

(** After loading a page whose field holds ["notacolor"], the field holds
    the hex string of the default triple. *)
Lemma field_follows_picker_witness :
  reachable "notacolor" "triad" (initializeApp (initialState "notacolor" "triad")) /\
  isValid (tinycolor (baseColorInput_value (initializeApp (initialState "notacolor" "triad")))) =
    true /\
  baseColorInput_value (initializeApp (initialState "notacolor" "triad")) =
    pickerHex (initializeApp (initialState "notacolor" "triad")).
Proof.
  split; [constructor|].
  assert (H : isValid
                (tinycolor
                   (baseColorInput_value (initializeApp (initialState "notacolor" "triad")))) =
              true) by (vm_compute; reflexivity).
  split; [exact H|].
  exact (field_follows_picker (library := noFunctionalNotation) (fun s _ _ _ => eq_refl)
           "notacolor" "triad" _ (reachable_init _ _) H).
Defined.

(** Two moves after the button is released. *)
Lemma idle_moves_ignored_witness :
  forallb isMove [HueMouseMove 10; SLMouseMove 5 5] = true /\
  run [HueMouseMove 10; SLMouseMove 5 5] (document_mouseup (initialState "#3498db" "triad")) =
    document_mouseup (initialState "#3498db" "triad").
Proof.
  split; [reflexivity|].
  apply (idle_moves_ignored (library := noFunctionalNotation)
           [HueMouseMove 10; SLMouseMove 5 5] (initialState "#3498db" "triad")).
  reflexivity.
Defined.

(** A press in the middle of the left edge of a pad of 200 by 200. *)
Lemma sl_pad_point_witness :
  0 < slPickerCanvas_width /\
  0 < slPickerCanvas_height /\
  currentSaturation (slPickerCanvas_mousedown 0 100 (initialState "#3498db" "triad")) == 0 /\
  currentLightness (slPickerCanvas_mousedown 0 100 (initialState "#3498db" "triad")) ==
    1 - 100 / slPickerCanvas_height.
Proof.
  split; [reflexivity|]. split; [reflexivity|].
  destruct (sl_pad_point (library := noFunctionalNotation) (page := samplePage)
              0 100 (initialState "#3498db" "triad") eq_refl eq_refl)
    as (_ & _ & S0 & _ & Ly & _).
  split; [apply S0|apply Ly]; vm_compute; discriminate.
Defined.

(** Loading a page whose field holds ["notacolor"]. *)
Lemma initialize_invalid_field_witness :
  isValid (tinycolor "notacolor") = false /\
  baseColorInput_value (initializeApp (initialState "notacolor" "triad")) = "#ff0000".
Proof.
  split; [reflexivity|].
  destruct (initialize_invalid_field (library := noFunctionalNotation)
              (fun s _ _ _ => eq_refl) "notacolor" "triad" eq_refl) as (palette & _ & E).
  rewrite E. reflexivity.
Defined.

(** The shades of [#3498db] are normalized hex strings. *)
Lemma palette_elements_normal_witness :
  generateHarmonyPalette "#3498db" "shades" =
    inr ["#124364"; "#1d6fa5"; "#3498db"; "#75b9e7"; "#b6daf2"] /\
  Forall (fun c =>
            normalizedHex c = true /\
            isValid (tinycolor c) = true /\
            toHexString (tinycolor c) = c)
    ["#124364"; "#1d6fa5"; "#3498db"; "#75b9e7"; "#b6daf2"].
Proof.
  assert (H : generateHarmonyPalette "#3498db" "shades" =
                inr ["#124364"; "#1d6fa5"; "#3498db"; "#75b9e7"; "#b6daf2"])
    by (vm_compute; reflexivity).
  split; [exact H|].
  exact (palette_elements_normal (library := noFunctionalNotation) (fun s _ _ _ => eq_refl)
           "#3498db" "shades" _ H).
Defined.

(** The triad of [#3498db]. *)
Lemma triad_palette_witness :
  isValid (tinycolor "#3498db") = true /\
  exists t1 t2,
    triad (tinycolor "#3498db") = [tinycolor "#3498db"; t1; t2] /\
    generateHarmonyPalette "#3498db" "triad" =
      inr [toHexString (tinycolor "#3498db");
           toHexString t1;
           toHexString t2;
           toHexString (lighten 20 (tinycolor (toHexString t1)));
           toHexString (darken 20 (tinycolor (toHexString t2)))].
Proof.
  split; [reflexivity|].
  apply (triad_palette (library := noFunctionalNotation) (fun s _ _ _ => eq_refl) "#3498db").
  reflexivity.
Defined.

(** The tetrad of [#3498db]. *)
Lemma tetrad_palette_witness :
  isValid (tinycolor "#3498db") = true /\
  exists t1 t2 t3,
    tetrad (tinycolor "#3498db") = [tinycolor "#3498db"; t1; t2; t3] /\
    generateHarmonyPalette "#3498db" "tetrad" =
      inr [toHexString (tinycolor "#3498db");
           toHexString t1;
           toHexString t2;
           toHexString t3;
           toHexString (lighten 20 (tinycolor (toHexString (tinycolor "#3498db"))))].
Proof.
  split; [reflexivity|].
  apply (tetrad_palette (library := noFunctionalNotation) (fun s _ _ _ => eq_refl) "#3498db").
  reflexivity.
Defined.

(** The split complements of [#3498db]. *)
Lemma splitcomplement_palette_witness :
  isValid (tinycolor "#3498db") = true /\
  exists s1 s2,
    splitcomplement (tinycolor "#3498db") = [tinycolor "#3498db"; s1; s2] /\
    generateHarmonyPalette "#3498db" "splitcomplement" =
      inr [toHexString (tinycolor "#3498db");
           toHexString s1;
           toHexString (lighten 15 (tinycolor (toHexString s1)));
           toHexString s2;
           toHexString (darken 15 (tinycolor (toHexString s2)))].
Proof.
  split; [reflexivity|].
  apply (splitcomplement_palette (library := noFunctionalNotation) (fun s _ _ _ => eq_refl)
           "#3498db").
  reflexivity.
Defined.

(** The analogous colours of [#3498db]. *)
Lemma analogous_palette_witness :
  isValid (tinycolor "#3498db") = true /\
  exists a1 a2 a3 a4 a5,
    analogous 6 (tinycolor "#3498db") = [tinycolor "#3498db"; a1; a2; a3; a4; a5] /\
    generateHarmonyPalette "#3498db" "analogous" =
      inr [toHexString (tinycolor "#3498db");
           toHexString a1;
           toHexString a2;
           toHexString a3;
           toHexString a4].
Proof.
  split; [reflexivity|].
  apply (analogous_palette (library := noFunctionalNotation) (fun s _ _ _ => eq_refl) "#3498db").
  reflexivity.
Defined.

(** The shorthand ["ABC"] and its spellings. *)
Lemma base_color_spelling_witness :
  validHex "ABC" = true /\
  generateHarmonyPalette "abc" "triad" = generateHarmonyPalette "ABC" "triad" /\
  generateHarmonyPalette "#ABC" "triad" = generateHarmonyPalette "ABC" "triad" /\
  generateHarmonyPalette "AABBCC" "triad" = generateHarmonyPalette "ABC" "triad".
Proof.
  split; [reflexivity|].
  destruct (base_color_spelling (library := noFunctionalNotation) (fun s _ _ _ => eq_refl)
              "ABC" "triad" eq_refl) as (Hl & Hh & _ & Hs).
  split; [exact Hl|]. split; [exact Hh|]. exact (Hs "A" "B" "C" eq_refl)%char.
Defined.

(** A list of five strings, two of which the parser rejects. *)
Lemma display_skips_invalid_witness :
  ["#ABC"; "notacolor"; "3498DB"; "#12"; " Red "] <> [] /\
  displayPalette ["#ABC"; "notacolor"; "3498DB"; "#12"; " Red "] "Palette" =
    Swatches "Palette" ["#aabbcc"; "#3498db"; "#ff0000"].
Proof.
  assert (Hne : ["#ABC"; "notacolor"; "3498DB"; "#12"; " Red "] <> []) by discriminate.
  split; [exact Hne|].
  destruct (display_skips_invalid (library := noFunctionalNotation) (fun s _ _ _ => eq_refl)
              ["#ABC"; "notacolor"; "3498DB"; "#12"; " Red "] "Palette" Hne)
    as (hexes & E & F & _).
  rewrite E. vm_compute in E. injection E as <-. reflexivity.
Defined.

(** A random source for five given colours. *)
Lemma random_reaches_every_palette_witness :
  Forall (fun c => matchesUpperHexColor c = true)
    ["#000000"; "#FFFFFF"; "#3498DB"; "#ABCDEF"; "#012345"] /\
  exists rand,
    unitInterval rand /\
    generatePalette rand 0 =
      (["#000000"; "#FFFFFF"; "#3498DB"; "#ABCDEF"; "#012345"], 30%nat).
Proof.
  assert (H : Forall (fun c => matchesUpperHexColor c = true)
                ["#000000"; "#FFFFFF"; "#3498DB"; "#ABCDEF"; "#012345"])
    by (repeat constructor).
  split; [exact H|].
  exact (random_reaches_every_palette "#000000" "#FFFFFF" "#3498DB" "#ABCDEF" "#012345" H).
Defined.

(** The first screen of a page whose field holds [#3498db]. *)
Lemma canvases_up_to_date_witness :
  displayed "#3498db" "triad" (initializeApp_canvas (initialState "#3498db" "triad")) /\
  upToDate (initializeApp_canvas (initialState "#3498db" "triad")).
Proof.
  split; [constructor|].
  exact (canvases_up_to_date (library := noFunctionalNotation) (fun s _ _ _ => eq_refl)
           "#3498db" "triad" _ (displayed_init _ _)).
Defined.

(** A press at (50, 30) on a pad of 200 by 200: the marker is drawn at
    ordinate 30.000000000000004, that is 30 + 2^-48. *)
Lemma sl_marker_at_pointer_witness :
  1 <= slPickerCanvas_width /\ 1 <= slPickerCanvas_height /\
  Double.round slPickerCanvas_width == slPickerCanvas_width /\
  Double.round slPickerCanvas_height == slPickerCanvas_height /\
  0 <= 30 <= slPickerCanvas_height /\
  snd (Double.marker (Double.slPickerCanvas_mousedown 50 30 Double.initialPicker)) ==
    30 + 2 ^ (-48) /\
  Qabs (snd (Double.marker (Double.slPickerCanvas_mousedown 50 30 Double.initialPicker)) - 30)
    <= slPickerCanvas_height * 2 ^ (-51).
Proof.
  assert (Hw : 1 <= slPickerCanvas_width) by (vm_compute; discriminate).
  assert (Hh : 1 <= slPickerCanvas_height) by (vm_compute; discriminate).
  assert (Rw : Double.round slPickerCanvas_width == slPickerCanvas_width)
    by (vm_compute; reflexivity).
  assert (Rh : Double.round slPickerCanvas_height == slPickerCanvas_height)
    by (vm_compute; reflexivity).
  assert (Hy : 0 <= 30 <= slPickerCanvas_height) by (split; vm_compute; discriminate).
  split; [exact Hw|]. split; [exact Hh|]. split; [exact Rw|]. split; [exact Rh|].
  split; [exact Hy|]. split; [vm_compute; reflexivity|].
  destruct (sl_marker_at_pointer (page := samplePage) 50 30 Double.initialPicker Hw Hh Rw Rh)
    as (_ & Y & _).
  exact (Y Hy).
Defined.

(** The marker on the first screen. *)
Lemma sl_marker_inside_witness :
  0 < slPickerCanvas_width /\
  0 < slPickerCanvas_height /\
  displayed "#3498db" "triad" (initializeApp_canvas (initialState "#3498db" "triad")) /\
  exists mx my,
    circles (drawSLPicker (vars (initializeApp_canvas (initialState "#3498db" "triad")))) =
      [(mx, my, SL_MARKER_RADIUS)] /\
    0 <= mx /\ mx <= slPickerCanvas_width /\
    0 <= my /\ my <= slPickerCanvas_height.
Proof.
  split; [reflexivity|]. split; [reflexivity|]. split; [constructor|].
  destruct (sl_marker_inside (library := noFunctionalNotation) (page := samplePage)
              (fun s _ _ _ => eq_refl) "#3498db" "triad"
              (initializeApp_canvas (initialState "#3498db" "triad"))
              eq_refl eq_refl (displayed_init _ _))
    as (earlier & mx & my & _ & E & H).
  exists mx, my. split; [exact E|exact H].
Defined.

(** Generating from the default triple with the [triad] rule. *)
Lemma harmony_palette_displayed_witness :
  exists palette,
    snd (handleGenerateHarmony (initialState "#3498db" "triad")) = inr palette /\
    paletteDisplay (fst (handleGenerateHarmony (initialState "#3498db" "triad"))) =
      Some (Swatches "triad Harmony" palette).
Proof.
  destruct (harmony_palette_displayed (library := noFunctionalNotation)
              (fun s _ _ _ => eq_refl) (initialState "#3498db" "triad"))
    as (palette & E & _ & D & _).
  exists palette. split; [exact E|exact D].
Defined.

(** Pressing Generate twice on the default triple. *)
Lemma generate_idempotent_witness :
  updateColorFromPicker (updateColorFromPicker (initialState "#3498db" "triad")) =
  updateColorFromPicker (initialState "#3498db" "triad").
Proof.
  exact (generate_idempotent (library := noFunctionalNotation) (fun s _ _ _ => eq_refl)
           (initialState "#3498db" "triad")).
Defined.

(** The wheel drawn for the default triple under a rule outside the seven:
    360 segments and the marker. *)
Lemma wheel_indicators_witness :
  ~ In "none" harmonyRules /\
  exists palette,
    snd (handleGenerateHarmony (initialState "#3498db" "none")) = inr palette /\
    List.length (circles (drawHueWheel (inr palette) (initialState "#3498db" "none"))) =
      361%nat.
Proof.
  assert (Hout : ~ In "none" harmonyRules)
    by (simpl; intros H; repeat destruct H as [H|H]; try discriminate H; exact H).
  split; [exact Hout|].
  destruct (wheel_indicators (library := noFunctionalNotation) (fun s _ _ _ => eq_refl)
              (initialState "#3498db" "none")
              (mkScreen (initialState "#3498db" "none") [] []))
    as (palette & E & _ & L & _ & N).
  exists palette. split; [exact E|]. rewrite L, (N Hout). reflexivity.
Defined.

(** Typing the shorthand ["ABC"] over the default state. *)
Lemma typed_color_kept_witness :
  validHex "ABC" = true /\
  baseColorInput_value (baseColorInput_input "ABC" (initialState "#3498db" "triad")) =
    "#aabbcc".
Proof.
  split; [reflexivity|].
  destruct (typed_color_kept (library := noFunctionalNotation) (fun s _ _ _ => eq_refl)
              "ABC" (initialState "#3498db" "triad") eq_refl) as (_ & E & _).
  rewrite E. vm_compute. reflexivity.
Defined.

(** Loading a page whose field holds ["3498DB"]. *)
Lemma initialize_valid_field_witness :
  validHex "3498DB" = true /\
  baseColorInput_value (initializeApp (initialState "3498DB" "shades")) = "#3498db" /\
  exists palette,
    generateHarmonyPalette "3498DB" "shades" = inr palette /\
    paletteDisplay (initializeApp (initialState "3498DB" "shades")) =
      Some (Swatches "shades Harmony" palette).
Proof.
  split; [reflexivity|].
  destruct (initialize_valid_field (library := noFunctionalNotation) (fun s _ _ _ => eq_refl)
              "3498DB" "shades" eq_refl) as (_ & E & _ & palette & Ep & D).
  split; [rewrite E; vm_compute; reflexivity|].
  exists palette. split; [exact Ep|exact D].
Defined.

(** The analogous palette of [#3498db]. *)
Lemma analogous_repeats_base_witness :
  validHex "#3498db" = true /\
  generateHarmonyPalette "#3498db" "analogous" =
    inr ["#3498db"; "#34dbdb"; "#34b9db"; "#3498db"; "#3477db"].
Proof.
  split; [reflexivity|].
  destruct (analogous_repeats_base (library := noFunctionalNotation) (fun s _ _ _ => eq_refl)
              "#3498db" eq_refl) as (x1 & x2 & x4 & E).
  rewrite E. vm_compute in E. injection E as <- <- <-. vm_compute. reflexivity.
Defined.

(** The monochromatic palette of [#3498db]. *)
Lemma monochromatic_starts_with_base_witness :
  validHex "#3498db" = true /\
  exists x1 x2 x3 x4,
    generateHarmonyPalette "#3498db" "monochromatic" = inr ["#3498db"; x1; x2; x3; x4].
Proof.
  split; [reflexivity|].
  exact (monochromatic_starts_with_base (library := noFunctionalNotation)
           (fun s _ _ _ => eq_refl) "#3498db" eq_refl).
Defined.
